(** * DataSoph AI front end: the conversation runtime

    A shallow embedding of the client-side conversation runtime of the
    DataSoph AI front end, and the properties of it that the specification
    states.  Four parts of the source are embedded:

    - the upload classifier, [useFileUpload] in [hooks/useChatHistory.ts]
      ([FILE_SIZE_LIMITS], [SUPPORTED_FORMATS], [getFileInfo], [validateFile]);
    - the content parser, [components/UI/MessageParser.tsx]
      ([parseHTMLContent], [AIMessage]), with the regular expressions it runs;
    - the conversation store: the save effect of [ClaudeChatArea], the session
      index of [ClaudeSidebar] ([checkForNewMessages], [handleRenameSubmit])
      and the hook [useChatHistory] ([addMessageToChat], [renameChat]);
    - the request lifecycle of [ClaudeChatArea] ([handleSendMessage] and the
      continuations that run when the network exchange settles).

    Conventions.  A JavaScript string is a [string] that holds the text in
    UTF-8, a lone surrogate as its three bytes: the bytes of the source file
    are the strings of the program.  [trim] and the class [\s] of a pattern
    take the white space of ECMAScript, inside and outside ASCII
    ([Js.whiteSpace]); [length] and [substring] count UTF-16 code units
    ([Js.units], [Js.substringTo]).  [toLowerCase] and [toUpperCase] are the
    case conversions of Unicode, which the engine provides: the classifier
    takes them as parameters, and a statement that depends on what they do
    says so in a hypothesis; [Js.asciiLowerCase] and [Js.asciiUpperCase] are
    what they do on ASCII text.  A JavaScript object used as a table is an
    association list in source order: [Js.assoc] reads an own property,
    [Js.get] is the lookup [o[k]] and the test [k in o], which also find the
    members inherited from [Object.prototype].  [localStorage] is a finite
    map from keys to stored values; a stored value is the data [JSON.parse]
    gives back, not the text. *)

From Stdlib Require Import String Ascii List ZArith NArith Lia Bool DecimalString.
From stdpp Require Import gmap strings.
Import ListNotations.

(** ** JavaScript strings *)

Module Js.

Fixpoint startsWith (s p : string) {struct p} : bool :=
  match p, s with
  | EmptyString, _ => true
  | String a p', String b s' => Ascii.eqb a b && startsWith s' p'
  | String _ _, EmptyString => false
  end.

Fixpoint includes (s sub : string) : bool :=
  startsWith s sub ||
  match s with
  | EmptyString => false
  | String _ s' => includes s' sub
  end.

Fixpoint drop (n : nat) (s : string) : string :=
  match n, s with
  | O, _ => s
  | S _, EmptyString => EmptyString
  | S n', String _ s' => drop n' s'
  end.

Fixpoint take (n : nat) (s : string) : string :=
  match n, s with
  | O, _ => EmptyString
  | S _, EmptyString => EmptyString
  | S n', String c s' => String c (take n' s')
  end.

(** Whether the character occurs in the string. *)
Fixpoint occurs (c : ascii) (s : string) : bool :=
  match s with
  | EmptyString => false
  | String x s' => Ascii.eqb x c || occurs c s'
  end.

(** [s.slice(i, j)] and [s.substring(i, j)] for [0 <= i <= j]. *)
Definition slice (s : string) (i j : nat) : string := take (j - i) (drop i s).

(** The number of bytes of the WhiteSpace or LineTerminator code point of
    ECMAScript at the head of [s], [0] when there is none.  They are
    U+0009 to U+000D, U+0020, U+00A0, U+1680, U+2000 to U+200A, U+2028,
    U+2029, U+202F, U+205F, U+3000 and U+FEFF; [trim] and the class [\s]
    of a pattern take these and no other. *)
Definition whiteSpace (s : string) : nat :=
  match s with
  | EmptyString => 0
  | String c s1 =>
      let b := nat_of_ascii c in
      if ((9 <=? b) && (b <=? 13)) || (b =? 32) then 1
      else if b =? 194 then
        match s1 with
        | String c1 _ => if nat_of_ascii c1 =? 160 then 2 else 0
        | EmptyString => 0
        end
      else if (b =? 225) || (b =? 226) || (b =? 227) || (b =? 239) then
        match s1 with
        | String c1 (String c2 _) =>
            let b1 := nat_of_ascii c1 in
            let b2 := nat_of_ascii c2 in
            if (b =? 225) && (b1 =? 154) && (b2 =? 128) then 3
            else if (b =? 226) && (b1 =? 128)
                    && (((128 <=? b2) && (b2 <=? 138)) || (b2 =? 168) || (b2 =? 169)
                        || (b2 =? 175)) then 3
            else if (b =? 226) && (b1 =? 129) && (b2 =? 159) then 3
            else if (b =? 227) && (b1 =? 128) && (b2 =? 128) then 3
            else if (b =? 239) && (b1 =? 187) && (b2 =? 191) then 3
            else 0
        | _ => 0
        end
      else 0
  end.

(** [trimStart]: every round steps over one code point, so the length of
    the string is fuel enough. *)
Fixpoint trimStartFrom (fuel : nat) (s : string) : string :=
  match fuel with
  | O => s
  | S fuel' =>
      match whiteSpace s with
      | O => s
      | S k => trimStartFrom fuel' (drop (S k) s)
      end
  end.

Definition trimStart (s : string) : string := trimStartFrom (String.length s) s.

(** Whether [s] is made of white space only. *)
Fixpoint blankFrom (fuel : nat) (s : string) : bool :=
  match s with
  | EmptyString => true
  | String _ _ =>
      match fuel with
      | O => false
      | S fuel' =>
          match whiteSpace s with
          | O => false
          | S k => blankFrom fuel' (drop (S k) s)
          end
      end
  end.

Definition blank (s : string) : bool := blankFrom (String.length s) s.

(** [trimEnd]: the string is cut where what is left of it is white space. *)
Fixpoint trimEnd (s : string) : string :=
  match s with
  | EmptyString => EmptyString
  | String c s' => if blank s then EmptyString else String c (trimEnd s')
  end.

Definition trim (s : string) : string := trimEnd (trimStart s).

(** The number of UTF-16 code units that a byte opens: one for an ASCII
    byte and for the first byte of a sequence of two or three bytes, two
    for the first byte of a sequence of four, none for a byte that
    continues a sequence. *)
Definition unitsOf (c : ascii) : nat :=
  let b := nat_of_ascii c in
  if b <? 128 then 1 else if b <? 192 then 0 else if b <? 240 then 1 else 2.

(** [s.length] *)
Fixpoint units (s : string) : nat :=
  match s with
  | EmptyString => 0
  | String c s' => unitsOf c + units s'
  end.

(** The high surrogate of the code point that the bytes [c], [c1], [c2] and
    one more encode, in three bytes. *)
Definition highSurrogate (c c1 c2 : ascii) : string :=
  let h := (55232 + (N_of_ascii c mod 8) * 256 + (N_of_ascii c1 mod 64) * 4
            + (N_of_ascii c2 mod 64) / 16)%N in
  String (ascii_of_N 237)
    (String (ascii_of_N (128 + (h / 64) mod 64))
       (String (ascii_of_N (128 + h mod 64)) EmptyString)).

(** [s.substring(0, n)]: a cut between the two code units of a code point
    keeps its high surrogate. *)
Fixpoint substringTo (n : nat) (s : string) : string :=
  match s with
  | EmptyString => EmptyString
  | String c s' =>
      match unitsOf c with
      | O => String c (substringTo n s')
      | S O =>
          match n with
          | O => EmptyString
          | S n' => String c (substringTo n' s')
          end
      | S (S _) =>
          match n with
          | O => EmptyString
          | S O =>
              match s' with
              | String c1 (String c2 _) => highSurrogate c c1 c2
              | _ => EmptyString
              end
          | S (S n') => String c (substringTo n' s')
          end
      end
  end.

(** A string in a condition: the empty string is the only falsy one. *)
Definition truthy (s : string) : bool :=
  match s with EmptyString => false | String _ _ => true end.

Definition lowerChar (c : ascii) : ascii :=
  let n := nat_of_ascii c in
  if (65 <=? n)%nat && (n <=? 90)%nat then ascii_of_nat (n + 32) else c.

Definition upperChar (c : ascii) : ascii :=
  let n := nat_of_ascii c in
  if (97 <=? n)%nat && (n <=? 122)%nat then ascii_of_nat (n - 32) else c.

Fixpoint mapChars (f : ascii -> ascii) (s : string) : string :=
  match s with
  | EmptyString => EmptyString
  | String c s' => String (f c) (mapChars f s')
  end.

(** [toLowerCase] and [toUpperCase] on a string of ASCII characters. *)
Definition asciiLowerCase : string -> string := mapChars lowerChar.
Definition asciiUpperCase : string -> string := mapChars upperChar.

Fixpoint isAscii (s : string) : bool :=
  match s with
  | EmptyString => true
  | String c s' => (nat_of_ascii c <? 128) && isAscii s'
  end.

(** [s.split(sep)] for a one-character separator: never the empty array. *)
Fixpoint split (sep : ascii) (s : string) : list string :=
  match s with
  | EmptyString => [EmptyString]
  | String c s' =>
      if Ascii.eqb c sep then EmptyString :: split sep s'
      else match split sep s' with
           | [] => [String c EmptyString]
           | h :: t => String c h :: t
           end
  end.

(** [a.pop()] read as a value: the last element, [undefined] on [[]]. *)
Fixpoint pop (a : list string) : option string :=
  match a with
  | [] => None
  | [x] => Some x
  | _ :: t => pop t
  end.

(** Own-property lookup in an object literal. *)
Fixpoint assoc {A} (k : string) (o : list (string * A)) : option A :=
  match o with
  | [] => None
  | (k', v) :: o' => if String.eqb k k' then Some v else assoc k o'
  end.

Definition keys {A} (o : list (string * A)) : list string := map fst o.

(** The names of the members that an object literal inherits from
    [Object.prototype]. *)
Definition OBJECT_PROTOTYPE : list string :=
  [ "constructor"; "__defineGetter__"; "__defineSetter__"; "hasOwnProperty";
    "__lookupGetter__"; "__lookupSetter__"; "isPrototypeOf"; "propertyIsEnumerable";
    "toString"; "valueOf"; "__proto__"; "toLocaleString" ].

(** What [o[k]] is for an object literal [o]: an own property or a member
    of [Object.prototype]; [None] is [undefined], and [k in o] holds when
    it is not [None]. *)
Inductive Member (A : Type) :=
| Own (v : A)
| Inherited (key : string).
Arguments Own {A} v.
Arguments Inherited {A} key.

Definition get {A} (k : string) (o : list (string * A)) : option (Member A) :=
  match assoc k o with
  | Some v => Some (Own v)
  | None => if existsb (String.eqb k) OBJECT_PROTOTYPE then Some (Inherited k) else None
  end.

(** [m.name] for an inherited member: the name of the function, [Object]
    for the constructor; the getter [__proto__] gives the prototype, which
    has no name. *)
Definition inheritedName (key : string) : option string :=
  if String.eqb key "__proto__" then None
  else if String.eqb key "constructor" then Some "Object"
  else Some key.

(** [a.includes(x)] on an array of strings. *)
Definition arrayIncludes (a : list string) (x : string) : bool :=
  existsb (String.eqb x) a.

Definition digits (n : N) : string := NilZero.string_of_uint (N.to_uint n).

Fixpoint zeros (n : nat) : string :=
  match n with O => EmptyString | S n' => String "0" (zeros n') end.

End Js.

(** ** Upload classifier ([useFileUpload]) *)

Module Upload.

Module File.
Record t := mk { name : string; type : string; size : N }.
End File.

Record FormatInfo := { ext : option string; name : string; priority : nat }.

Definition MB : N := 1024 * 1024.

Definition FILE_SIZE_LIMITS : list (string * N) :=
  [ ("text/csv", 100 * 1024 * 1024);
    ("application/json", 50 * 1024 * 1024);
    ("text/plain", 10 * 1024 * 1024);
    ("text/markdown", 10 * 1024 * 1024);
    ("application/vnd.ms-excel", 200 * 1024 * 1024);
    ("application/vnd.openxmlformats-officedocument.spreadsheetml.sheet", 200 * 1024 * 1024);
    ("application/pdf", 50 * 1024 * 1024);
    ("application/vnd.openxmlformats-officedocument.wordprocessingml.document", 50 * 1024 * 1024);
    ("image/png", 50 * 1024 * 1024);
    ("image/jpeg", 50 * 1024 * 1024);
    ("image/svg+xml", 10 * 1024 * 1024);
    ("default", 50 * 1024 * 1024) ]%N.

Definition byMime (e n : string) (p : nat) : FormatInfo :=
  {| ext := Some e; name := n; priority := p |}.

Definition byExt (n : string) (p : nat) : FormatInfo :=
  {| ext := None; name := n; priority := p |}.

Definition structured_data : list (string * FormatInfo) :=
  [ ("text/csv", byMime ".csv" "CSV Files" 1);
    ("application/vnd.ms-excel", byMime ".xls" "Excel Files (Legacy)" 1);
    ("application/vnd.openxmlformats-officedocument.spreadsheetml.sheet", byMime ".xlsx" "Excel Files" 1);
    ("application/json", byMime ".json" "JSON Data" 1);
    ("text/plain", byMime ".txt" "Text Files" 1) ].

Definition documents : list (string * FormatInfo) :=
  [ ("application/pdf", byMime ".pdf" "PDF Documents" 1);
    ("application/vnd.openxmlformats-officedocument.wordprocessingml.document", byMime ".docx" "Word Documents" 2);
    ("text/html", byMime ".html" "HTML Documents" 2);
    ("text/markdown", byMime ".md" "Markdown Files" 2) ].

Definition images : list (string * FormatInfo) :=
  [ ("image/png", byMime ".png" "PNG Images (with OCR)" 2);
    ("image/jpeg", byMime ".jpg" "JPEG Images (with OCR)" 2);
    ("image/tiff", byMime ".tiff" "TIFF Images (with OCR)" 2);
    ("image/bmp", byMime ".bmp" "Bitmap Images (with OCR)" 2);
    ("image/webp", byMime ".webp" "WebP Images (with OCR)" 2);
    ("image/svg+xml", byMime ".svg" "SVG Images" 2) ].

Definition by_extension : list (string * FormatInfo) :=
  [ (".jsonl", byExt "JSON Lines" 1);
    (".parquet", byExt "Parquet Files" 1);
    (".ipynb", byExt "Jupyter Notebooks" 1);
    (".sql", byExt "SQL Scripts" 1);
    (".xml", byExt "XML Files" 2);
    (".yaml", byExt "YAML Files" 2);
    (".yml", byExt "YAML Files" 2);
    (".sqlite", byExt "SQLite Database" 2);
    (".db", byExt "Database Files" 2);
    (".h5", byExt "HDF5 Files" 2);
    (".hdf5", byExt "HDF5 Files" 2);
    (".sav", byExt "SPSS Files" 3);
    (".dta", byExt "Stata Files" 3);
    (".sas7bdat", byExt "SAS Files" 3);
    (".rda", byExt "R Data Files" 3);
    (".rds", byExt "R Serialized Data" 3);
    (".avro", byExt "Apache Avro" 3);
    (".orc", byExt "Apache ORC" 3);
    (".feather", byExt "Apache Arrow" 3);
    (".pkl", byExt "Pickle Files" 3);
    (".pickle", byExt "Pickle Files" 3);
    (".joblib", byExt "Joblib Models" 3);
    (".onnx", byExt "ONNX Models" 3);
    (".tiff", byExt "TIFF Images (with OCR)" 2);
    (".tif", byExt "TIFF Images (with OCR)" 2);
    (".bmp", byExt "Bitmap Images (with OCR)" 2);
    (".webp", byExt "WebP Images (with OCR)" 2);
    (".heic", byExt "HEIC Images (iPhone photos with OCR)" 2);
    (".wav", byExt "Audio Files" 3);
    (".mp3", byExt "Audio Files" 3);
    (".mp4", byExt "Video Files" 3) ].

Definition SUPPORTED_FORMATS : list (string * list (string * FormatInfo)) :=
  [ ("structured_data", structured_data);
    ("documents", documents);
    ("images", images);
    ("by_extension", by_extension) ].

(** [getAllSupportedTypes]: the keys of the [by_extension] object are the
    extensions, the keys of every other category the MIME types.  The
    source collects them in two [Set]s, read only through [includes]. *)
Fixpoint getAllSupportedTypes (cats : list (string * list (string * FormatInfo)))
  : list string * list string :=
  match cats with
  | [] => ([], [])
  | (category, formats) :: rest =>
      let '(mimeTypes, extensions) := getAllSupportedTypes rest in
      if String.eqb category "by_extension"
      then (mimeTypes, Js.keys formats ++ extensions)
      else (Js.keys formats ++ mimeTypes, extensions)
  end.

Definition ALLOWED_MIME_TYPES : list string := fst (getAllSupportedTypes SUPPORTED_FORMATS).
Definition ALLOWED_EXTENSIONS : list string := snd (getAllSupportedTypes SUPPORTED_FORMATS).

Section Locale.
(** [String.prototype.toLowerCase] and [toUpperCase], the case conversions
    of Unicode, which the classifier takes from the engine. *)
Variable toLowerCase toUpperCase : string -> string.

(** ['.' + file.name.split('.').pop()?.toLowerCase()] *)
Definition extensionOf (fileName : string) : string :=
  "." +:+ match Js.pop (Js.split "." fileName) with
          | Some seg => toLowerCase seg
          | None => "undefined"
          end.

(** The loop of [getFileInfo] over [Object.entries(SUPPORTED_FORMATS)]:
    [file.type in formats] and [formats[file.type]]. *)
Fixpoint findByMime (type : string) (cats : list (string * list (string * FormatInfo)))
  : option (Js.Member FormatInfo) :=
  match cats with
  | [] => None
  | (category, formats) :: rest =>
      if String.eqb category "by_extension" then findByMime type rest
      else match Js.get type formats with
           | Some found => Some found
           | None => findByMime type rest
           end
  end.

Definition getFileInfo (file : File.t) : option (Js.Member FormatInfo) :=
  let extension := extensionOf (File.name file) in
  match findByMime (File.type file) SUPPORTED_FORMATS with
  | Some found => Some found
  | None => Js.get extension by_extension
  end.
End Locale.

(** [(bytes / (1024 * 1024)).toFixed(d)].  The quotient of an integer below
    2^53 by 2^20 is exact in binary64; [toFixed] takes the integer [n] with
    [n / 10^d] nearest to it, the larger one on a tie, and prints it with
    [d] decimals. *)
Definition toFixedMB (d : nat) (bytes : N) : string :=
  let scale := (10 ^ N.of_nat d)%N in
  let n := ((2 * bytes * scale + MB) / (2 * MB))%N in
  match d with
  | O => Js.digits n
  | S _ =>
      let frac := Js.digits (n mod scale) in
      Js.digits (n / scale) +:+ "." +:+ Js.zeros (d - String.length frac) +:+ frac
  end.

Definition unsupportedMessage : string := "‚ùå File type not supported. 

üìÅ **Supported formats:**
‚Ä¢ **Data:** CSV, Excel (.xlsx, .xls), JSON, Parquet, SQL
‚Ä¢ **Documents:** PDF, Word (.docx), HTML, Markdown, Jupyter Notebooks
‚Ä¢ **Images with OCR:** PNG, JPEG, TIFF, BMP, WebP, HEIC (text/table extraction)
‚Ä¢ **Statistical:** SPSS (.sav), Stata (.dta), R data (.rda, .rds)
‚Ä¢ **Databases:** SQLite, HDF5
‚Ä¢ **Models:** Pickle, Joblib, ONNX

üîÑ Convert your file to one of these formats for the best analysis experience.".

Definition tooLargeMessage (label sizeMB limitMB : string) : string :=
  "üìè File size exceeds limit for " +:+ label +:+ " files." +:+ "
      
" +:+ "**Current size:** " +:+ sizeMB +:+ "MB" +:+ "
" +:+ "**Maximum allowed:** " +:+ limitMB +:+ "MB" +:+ "

üí° **Tips:**
‚Ä¢ For large datasets, try converting to Parquet format
‚Ä¢ For text files, consider splitting into smaller chunks
‚Ä¢ For images, compress or resize before uploading".

(** [FILE_SIZE_LIMITS['default']] *)
Definition defaultLimit : N :=
  match Js.assoc "default" FILE_SIZE_LIMITS with Some l => l | None => 0%N end.

(** The value of [sizeLimit]: a number of bytes, or an inherited member,
    which is not a number. *)
Inductive Limit :=
| Bytes (n : N)
| NotANumber.

(** [(FILE_SIZE_LIMITS as any)[file.type] || FILE_SIZE_LIMITS['default']] *)
Definition sizeLimitFor (type : string) : Limit :=
  match Js.get type FILE_SIZE_LIMITS with
  | Some (Js.Own l) => if (l =? 0)%N then Bytes defaultLimit else Bytes l
  | Some (Js.Inherited _) => NotANumber
  | None => Bytes defaultLimit
  end.

Section Locale.
Variable toLowerCase toUpperCase : string -> string.

(** [fileInfo?.name || extension.toUpperCase()] *)
Definition labelOf (fileInfo : option (Js.Member FormatInfo)) (extension : string)
  : string :=
  let name :=
    match fileInfo with
    | Some (Js.Own info) => Some (name info)
    | Some (Js.Inherited key) => Js.inheritedName key
    | None => None
    end in
  match name with
  | Some n => if Js.truthy n then n else toUpperCase extension
  | None => toUpperCase extension
  end.

(** [validateFile]: [None] is the source's [null] (the file is accepted),
    [Some msg] the message shown to the user.  [file.size > sizeLimit] is
    false when [sizeLimit] is not a number. *)
Definition validateFile (file : File.t) : option string :=
  let extension := extensionOf toLowerCase (File.name file) in
  let fileInfo := getFileInfo toLowerCase file in
  if negb (bool_decide (is_Some fileInfo))
     && negb (Js.arrayIncludes ALLOWED_MIME_TYPES (File.type file))
     && negb (Js.arrayIncludes ALLOWED_EXTENSIONS extension)
  then Some unsupportedMessage
  else
    match sizeLimitFor (File.type file) with
    | Bytes sizeLimit =>
        if (sizeLimit <? File.size file)%N then
          let sizeMB := toFixedMB 2 (File.size file) in
          let limitMB := toFixedMB 0 sizeLimit in
          Some (tooLargeMessage (labelOf fileInfo extension) sizeMB limitMB)
        else None
    | NotANumber => None
    end.

Definition isFileSupported (file : File.t) : bool :=
  bool_decide (is_Some (getFileInfo toLowerCase file))
  || Js.arrayIncludes ALLOWED_MIME_TYPES (File.type file)
  || Js.arrayIncludes ALLOWED_EXTENSIONS (extensionOf toLowerCase (File.name file)).

(** [file] resolves to the entry [info] under [key]: [getFileInfo] finds it
    by the MIME type of the file, or, when it finds nothing by the MIME
    type, by the extension. *)
Definition resolvesTo (file : File.t) (key : string) (info : FormatInfo) : Prop :=
  (findByMime (File.type file) SUPPORTED_FORMATS = Some (Js.Own info)
   /\ key = File.type file)
  \/ (findByMime (File.type file) SUPPORTED_FORMATS = None
      /\ key = extensionOf toLowerCase (File.name file)
      /\ Js.get key by_extension = Some (Js.Own info)).
End Locale.

(** The registry of the specification: every entry of every category, under
    its key. *)
Definition registry : list (string * FormatInfo) := flat_map snd SUPPORTED_FORMATS.

(** The size ceiling of the entry under [key]: its override, or the default. *)
Definition ceilingOf (key : string) : N :=
  match Js.assoc key FILE_SIZE_LIMITS with Some l => l | None => defaultLimit end.

End Upload.

(** ** Regular expressions

    The fragment of ECMAScript patterns the source is written in: a pattern is
    a sequence of literal runs and of one-character classes under [*], [+],
    [*?] or an optional group [(c+)?], the quantified class possibly being a
    capturing group.  Matching backtracks by priority as ECMAScript does: a
    greedy quantifier tries the longest run first, a lazy one the shortest. *)

Module Regex.

Inductive capture := NoCapture | Capture | OptionalCapture.

(** [Rep] repeats a class of characters that one byte decides, [Units] a
    class whose members may take several bytes: [unit s] is the number of
    bytes of the member at the head of [s], [0] when there is none. *)
Inductive atom :=
| Lit (s : string)
| Rep (cap : capture) (greedy : bool) (min : nat) (cls : ascii -> bool)
| Units (greedy : bool) (min : nat) (unit : string -> nat).

Definition t := list atom.

(** Length of the longest prefix of [s] inside the class. *)
Fixpoint span (cls : ascii -> bool) (s : string) : nat :=
  match s with
  | EmptyString => 0
  | String c s' => if cls c then S (span cls s') else 0
  end.

(** The repetition counts to try, in priority order. *)
Definition counts (greedy : bool) (min k : nat) : list nat :=
  let up := seq min (S k - min) in
  if greedy then rev up else up.

Definition captured (cap : capture) (n : nat) (s : string) (groups : list (option string))
  : list (option string) :=
  match cap with
  | NoCapture => groups
  | Capture => Some (Js.take n s) :: groups
  | OptionalCapture => (match n with O => None | S _ => Some (Js.take n s) end) :: groups
  end.

(** The offsets at which a run of members of the class may end: after none
    of them, after one, and so on; [skip] counts the bytes of a member
    still to step over. *)
Fixpoint stops (unit : string -> nat) (skip pos : nat) (s : string) : list nat :=
  match skip with
  | S k =>
      match s with
      | EmptyString => []
      | String _ s' => stops unit k (S pos) s'
      end
  | O =>
      pos :: match unit s, s with
             | S k, String _ s' => stops unit k (S pos) s'
             | _, _ => []
             end
  end.

(** The ends to try for a run of at least [min] members, in priority
    order. *)
Definition ends (greedy : bool) (min : nat) (unit : string -> nat) (s : string)
  : list nat :=
  let up := skipn min (stops unit 0 0 s) in
  if greedy then rev up else up.

(** Every way the pattern matches at the head of [s], in the order in which
    backtracking reaches them: the capture groups and what is left of [s]
    after the match. *)
Fixpoint matches (r : t) (s : string) : list (list (option string) * string) :=
  match r with
  | [] => [([], s)]
  | Lit l :: r' =>
      if Js.startsWith s l then matches r' (Js.drop (String.length l) s) else []
  | Rep cap greedy min cls :: r' =>
      flat_map
        (fun n => map (fun m => (captured cap n s (fst m), snd m)) (matches r' (Js.drop n s)))
        (counts greedy min (span cls s))
  | Units greedy min unit :: r' =>
      flat_map (fun n => matches r' (Js.drop n s)) (ends greedy min unit s)
  end.

(** The match that the engine returns is the first one it reaches. *)
Definition matchHere (r : t) (s : string) : option (list (option string) * string) :=
  head (matches r s).

(** The match object of [exec]: [index], the capture groups, the length of
    [match[0]], and the subject from [lastIndex] on. *)
Record result := mkResult {
  index : nat;
  groups : list (option string);
  size : nat;
  after : string }.

(** [r.exec(subject)] when [s] is the subject from offset [pos] on: the
    leftmost match at or after [pos]. *)
Fixpoint exec (r : t) (s : string) (pos : nat) : option result :=
  match matchHere r s with
  | Some (gs, rest) => Some (mkResult pos gs (String.length s - String.length rest) rest)
  | None =>
      match s with
      | EmptyString => None
      | String _ s' => exec r s' (S pos)
      end
  end.

(** [while ((m = r.exec(subject)) !== null)] for a global pattern: every
    iteration resumes at [lastIndex], the end of the previous match.  The
    patterns of the source open with a literal, so a match is never empty
    and [fuel] beyond the length of the subject is never used up. *)
Fixpoint execLoop (fuel : nat) (r : t) (s : string) (pos : nat) : list result :=
  match fuel with
  | O => []
  | S fuel' =>
      match exec r s pos with
      | None => []
      | Some m => m :: execLoop fuel' r (after m) (index m + size m)
      end
  end.

Definition execAll (r : t) (subject : string) : list result :=
  execLoop (S (String.length subject)) r subject 0.

(** [subject.match(r)] for a pattern without the [g] flag. *)
Definition matchFirst (r : t) (subject : string) : option result := exec r subject 0.

Definition group (m : result) (i : nat) : option string :=
  match nth_error (groups m) (i - 1) with
  | Some g => g
  | None => None
  end.

(** The pieces of the subject between the matches [ms], [lastIndex] being
    the offset where the previous match ended. *)
Fixpoint pieces (subject : string) (lastIndex : nat) (ms : list result)
         (sep : result -> list (option string)) : list (option string) :=
  match ms with
  | [] => [Some (Js.drop lastIndex subject)]
  | m :: ms' =>
      Some (Js.slice subject lastIndex (index m)) :: sep m
        ++ pieces subject (index m + size m) ms' sep
  end.

(** [subject.replace(r, by)] for a global pattern and a replacement without
    [$]. *)
Definition replaceAll (r : t) (subject by_ : string) : string :=
  fold_right
    (fun p acc => match p with Some x => x +:+ acc | None => acc end) EmptyString
    (pieces subject 0 (execAll r subject) (fun _ => [Some by_])).

(** [subject.split(r)]: the pieces between the matches, each followed by the
    capture groups of the match that ends it ([undefined] is [None]).  The
    empty subject splits into [[""]] when the pattern does not match it. *)
Definition split (r : t) (subject : string) : list (option string) :=
  pieces subject 0 (execAll r subject) groups.

(** [subject.split(r)] when the whole of [r] is one capturing group: the
    text of each match stands between the pieces. *)
Definition splitKeeping (r : t) (subject : string) : list string :=
  omap id
    (pieces subject 0 (execAll r subject)
            (fun m => [Some (Js.slice subject (index m) (index m + size m))])).

Definition quot : ascii := "034"%char.
Definition q : string := String quot EmptyString.

Definition isNot (c : ascii) : ascii -> bool := fun x => negb (Ascii.eqb x c).
Definition any : ascii -> bool := fun _ => true.
(** [\w] *)
Definition word (c : ascii) : bool :=
  let n := nat_of_ascii c in
  ((48 <=? n)%nat && (n <=? 57)%nat) || ((65 <=? n)%nat && (n <=? 90)%nat)
  || ((97 <=? n)%nat && (n <=? 122)%nat) || (n =? 95)%nat.

Definition star (cls : ascii -> bool) : atom := Rep NoCapture true 0 cls.
(** [\s*] *)
Definition whiteSpaces : atom := Units true 0 Js.whiteSpace.
Definition plusGroup (cls : ascii -> bool) : atom := Rep Capture true 1 cls.

End Regex.

(** ** Content parser ([MessageParser.tsx])

    The parser returns React elements.  A [Node] keeps what determines the
    element: [Prose text] is the [<div className='prose ...'>] whose children
    are [parseTextContent(text)], the other constructors carry the
    attributes that the source fills in. *)

Module Parser.
Import Regex.

Inductive Node :=
| Prose (text : string)
| Base64Image (src : string)
| Chart (href download : string) (title : option string) (src alt : string)
| CodeBlock (code language : string).

Definition newline : string := String "010"%char EmptyString.

Definition WRAPPER_SIGNATURE : string := "<div style=" +:+ q +:+ "position: relative".
Definition PNG_SIGNATURE : string := "data:image/png;base64".

(** [/```(\w+)?\n([\s\S]*?)```/g] *)
Definition codeBlockRegex : Regex.t :=
  [ Lit "```"; Rep OptionalCapture true 0 word; Lit newline;
    Rep Capture false 0 any; Lit "```" ].

(** [/(data:image\/png;base64,[^\x22'\s]+)/g]; the group is the whole match.
    Here and below [\x22] stands for the double quote of the source pattern. *)
Definition payloadUnit (s : string) : nat :=
  match s with
  | EmptyString => 0
  | String c _ =>
      if Ascii.eqb c quot || Ascii.eqb c "'" then 0
      else match Js.whiteSpace s with
           | O => 1
           | S _ => 0
           end
  end.

Definition base64Regex : Regex.t :=
  [ Lit "data:image/png;base64,"; Units true 1 payloadUnit ].

(** [/<div[^>]*style=\x22[^\x22]*position:\s*relative[^\x22]*\x22[^>]*>([\s\S]*?)<\/div>/g],
    written as the part that matches the opening tag followed by the part
    that matches the content and the closing tag. *)
Definition openTagRegex : Regex.t :=
  [ Lit "<div"; star (isNot ">"); Lit ("style=" +:+ q); star (isNot quot);
    Lit "position:"; whiteSpaces; Lit "relative"; star (isNot quot);
    Lit q; star (isNot ">"); Lit ">" ].

Definition CLOSE_DIV : string := "</div>".

Definition divBodyRegex : Regex.t := [ Rep Capture false 0 any; Lit CLOSE_DIV ].

Definition htmlDivRegex : Regex.t := openTagRegex ++ divBodyRegex.

(** [/<a href=\x22([^\x22]+)\x22[^>]*download=\x22([^\x22]+)\x22[^>]*>([^<]+)<\/a>/] *)
Definition downloadLinkRegex : Regex.t :=
  [ Lit ("<a href=" +:+ q); plusGroup (isNot quot); Lit q; star (isNot ">");
    Lit ("download=" +:+ q); plusGroup (isNot quot); Lit q; star (isNot ">");
    Lit ">"; plusGroup (isNot "<"); Lit "</a>" ].

(** [/<img src=\x22([^\x22]+)\x22[^>]*alt=\x22([^\x22]+)\x22[^>]*\/>/] *)
Definition imageRegex : Regex.t :=
  [ Lit ("<img src=" +:+ q); plusGroup (isNot quot); Lit q; star (isNot ">");
    Lit ("alt=" +:+ q); plusGroup (isNot quot); Lit q; star (isNot ">"); Lit "/>" ].

(** [/<h3[^>]*>([^<]+)<\/h3>/] *)
Definition titleRegex : Regex.t :=
  [ Lit "<h3"; star (isNot ">"); Lit ">"; plusGroup (isNot "<"); Lit "</h3>" ].

Definition text (g : option string) : string := default EmptyString g.

(** A text run is rendered only when [part.trim()] is not empty. *)
Definition prose (part : string) : list Node :=
  if Js.truthy (Js.trim part) then [Prose part] else [].

Record codeBlock := { fullMatch : string; language : string; code : string }.

(** [parseMessageWithCode]: the fenced blocks and [content.split(codeBlockRegex)]. *)
Definition parseMessageWithCode (content : string)
  : list (option string) * list codeBlock :=
  let codeBlocks :=
    map (fun m => {| fullMatch := Js.slice content (index m) (index m + size m);
                     language := text (group m 1);
                     code := Js.trim (text (group m 2)) |})
        (execAll codeBlockRegex content) in
  (Regex.split codeBlockRegex content, codeBlocks).

(** [MessageWithCodeBlocks]: the [forEach] over [message.parts], [index]
    counting the parts and [codeBlocks] being what [codeBlockIndex] has not
    reached yet. *)
Fixpoint MessageWithCodeBlocks (parts : list (option string)) (index : nat)
         (codeBlocks : list codeBlock) : list Node :=
  match parts with
  | [] => []
  | part :: parts' =>
      if (index mod 3 =? 0)%nat then
        prose (text part) ++ MessageWithCodeBlocks parts' (S index) codeBlocks
      else if (index mod 3 =? 2)%nat then
        match codeBlocks with
        | cb :: rest =>
            CodeBlock (code cb) (language cb) :: MessageWithCodeBlocks parts' (S index) rest
        | [] => MessageWithCodeBlocks parts' (S index) []
        end
      else MessageWithCodeBlocks parts' (S index) codeBlocks
  end.

(** The first branch of [parseHTMLContent]: Base64 images outside the
    wrapper markup. *)
Definition base64Parts (content : string) : list Node :=
  flat_map
    (fun part =>
       if Js.startsWith part "data:image/png;base64," then [Base64Image part]
       else prose part)
    (splitKeeping base64Regex content).

(** What one iteration of the wrapper loop pushes for the wrapper itself. *)
Definition chartOf (divContent : string) : list Node :=
  let downloadLinkMatch := matchFirst downloadLinkRegex divContent in
  let imageMatch := matchFirst imageRegex divContent in
  let titleMatch := matchFirst titleRegex divContent in
  match imageMatch, downloadLinkMatch with
  | Some img, Some dl =>
      [ Chart (text (group dl 1)) (text (group dl 2))
              (match titleMatch with Some h => Some (text (group h 1)) | None => None end)
              (text (group img 1)) (text (group img 2)) ]
  | _, _ => []
  end.

(** The [while] loop of [parseHTMLContent] over the wrapper matches and the
    remainder after the last one. *)
Fixpoint wrapperParts (content : string) (lastIndex : nat) (ms : list result)
  : list Node :=
  match ms with
  | [] =>
      if (lastIndex <? String.length content)%nat
      then prose (Js.drop lastIndex content)
      else []
  | m :: ms' =>
      (if (lastIndex <? index m)%nat
       then prose (Js.slice content lastIndex (index m))
       else [])
      ++ chartOf (text (group m 1))
      ++ wrapperParts content (index m + size m) ms'
  end.

Definition parseHTMLContent (content : string) : list Node :=
  if Js.includes content PNG_SIGNATURE && negb (Js.includes content WRAPPER_SIGNATURE)
  then base64Parts content
  else
    match wrapperParts content 0 (execAll htmlDivRegex content) with
    | [] => [Prose content]
    | parts => parts
    end.

(** [AIMessage]: the children of the [<div>] it returns. *)
Definition AIMessage (content : string) : list Node :=
  if Js.includes content WRAPPER_SIGNATURE || Js.includes content PNG_SIGNATURE
  then parseHTMLContent content
  else
    let parsedMessage := parseMessageWithCode content in
    match snd parsedMessage with
    | _ :: _ => MessageWithCodeBlocks (fst parsedMessage) 0 (snd parsedMessage)
    | [] => [Prose content]
    end.

(** Double quotes of markup written with [|] in the examples. *)
Definition markup (s : string) : string :=
  Js.mapChars (fun c => if Ascii.eqb c "|" then quot else c) s.

End Parser.

(** ** Durable storage ([localStorage]) and the records kept in it *)

Module Message.
(** [interface Message] of [ClaudeChatArea].  [type] is ['user'] or
    ['assistant'] for the messages the chat area creates; it is a string
    here because the sidebar compares it with other literals. *)
Record t := mk { id : Z; type : string; content : string; timestamp : string }.
End Message.

Module Session.
(** An entry of the sidebar's [chatHistory]: [{id, title, messages}]. *)
Record t := mk { id : string; title : string; messages : list Message.t }.
End Session.

Module Storage.

(** What [JSON.parse] makes of a stored text, for the three shapes the
    application writes; [Text] is a string stored as it is. *)
Inductive Stored :=
| Messages (l : list Message.t)
| Sessions (l : list Session.t)
| Text (s : string).

(** [items] is the content of [localStorage].  [attempts] lists the
    [setItem] calls made so far, oldest first, each with the answer of the
    storage layer; the browser keeps no such list, it is there to count
    writes. *)
Record t := mk {
  items : gmap string Stored;
  attempts : list (string * Stored * bool) }.

Definition CHAT_HISTORY : string := "datasoph-chat-history".
Definition CHAT_SESSIONS : string := "datasoph-chat-sessions".
Definition CURRENT_SESSION_ID : string := "current-session-id".

Section Quota.
(** The capacity check of the storage layer: whether the content that a
    write would produce still fits. *)
Variable fits : gmap string Stored -> bool.

Definition getItem (key : string) (st : t) : option Stored := items st !! key.

(** [localStorage.setItem(key, JSON.stringify(value))]: the flag is [false]
    when the call throws [QuotaExceededError], and nothing is stored then. *)
Definition setItem (key : string) (value : Stored) (st : t) : bool * t :=
  let wanted := <[key := value]> (items st) in
  if fits wanted
  then (true, mk wanted (attempts st ++ [(key, value, true)]))
  else (false, mk (items st) (attempts st ++ [(key, value, false)])).

Definition removeItem (key : string) (st : t) : t :=
  mk (delete key (items st)) (attempts st).
End Quota.

End Storage.

(** ** Conversation store of the chat area: the save effect *)

Module ChatStore.
Import Regex.

(** [a.slice(-n)] *)
Definition lastN {A} (n : nat) (a : list A) : list A := skipn (length a - n) a.

(** [/data:image\/png;base64,[^\x22]+/g] *)
Definition pngPayloadRegex : Regex.t :=
  [ Lit "data:image/png;base64,"; Rep NoCapture true 1 (isNot quot) ].

Definition PLACEHOLDER : string := "[IMAGE_REMOVED_FOR_STORAGE]".

Definition sanitizeContent (content : string) : string :=
  if Js.includes content "data:image/png;base64"
  then replaceAll pngPayloadRegex content PLACEHOLDER
  else content.

Definition sanitize (msg : Message.t) : Message.t :=
  Message.mk (Message.id msg) (Message.type msg)
             (sanitizeContent (Message.content msg)) (Message.timestamp msg).

(** What the save effect hands to [setItem]. *)
Definition persistedForm (messages : list Message.t) : Storage.Stored :=
  let filteredMessages := map sanitize messages in
  Storage.Messages (lastN 10 filteredMessages).

(** The effect [useEffect(() => { try { ... } catch { ... } }, [messages])]. *)
Definition saveMessages (fits : gmap string Storage.Stored -> bool)
           (messages : list Message.t) (st : Storage.t) : Storage.t :=
  match Storage.setItem fits Storage.CHAT_HISTORY (persistedForm messages) st with
  | (true, st') => st'
  | (false, st') => Storage.removeItem Storage.CHAT_HISTORY st'
  end.

End ChatStore.

(** ** Request lifecycle of the chat area ([ClaudeChatArea]) *)

Module Lifecycle.
Import ChatStore.

Inductive TypingStage := thinking | analyzing | processing | generating.

(** The argument of [chatService.sendMessage]. *)
Record Request := mkRequest {
  message : string; user_id : string; file_id : option string }.

(** How the network exchange settles: the promise resolves with
    [response.response], or it rejects. *)
Inductive Settlement := Resolved (response : string) | Rejected.

(** A pending [setTimeout] callback. *)
Inductive Timer := StageTimer (stage : TypingStage) | FallbackTimer.

(** The React state of the component, the [AbortController]s created so far
    (numbered in creation order, [aborted] holding those whose signal is
    aborted), the exchanges awaiting settlement, the pending timers, and
    [localStorage]. *)
Record World := mkWorld {
  messages : list Message.t;
  inputValue : string;
  isTyping : bool;
  typingStage : TypingStage;
  currentAbortController : option nat;
  controllers : nat;
  aborted : gset nat;
  inflight : list (nat * Request);
  timers : list Timer;
  storage : Storage.t }.

Definition FALLBACK : string :=
  "I apologize, but I'm having trouble processing your request right now. Please try again or upload your file again.".

Section Runtime.
Variable fits : gmap string Storage.Stored -> bool.

(** [setMessages(next)] followed by the save effect that the change of
    [messages] triggers. *)
Definition setMessages (next : list Message.t) (w : World) : World :=
  mkWorld next (inputValue w) (isTyping w) (typingStage w)
          (currentAbortController w) (controllers w) (aborted w) (inflight w)
          (timers w) (saveMessages fits next (storage w)).

Definition addMessage (m : Message.t) (w : World) : World :=
  setMessages (messages w ++ [m]) w.

(** [handleSendMessage(message, fileId)]; [now] is [Date.now()] and
    [clock] the [toLocaleTimeString] text at the call. *)
Definition handleSendMessage (msg : string) (fileId : option string)
           (now : Z) (clock : string) (w : World) : World :=
  match isTyping w, currentAbortController w with
  | true, Some c =>
      mkWorld (messages w) (inputValue w) false (typingStage w) None
              (controllers w) ({[c]} ∪ aborted w) (inflight w) (timers w) (storage w)
  | _, _ =>
      if negb (Js.truthy (Js.trim msg)) || isTyping w then w
      else
        let userMessage := Message.mk now "user" (Js.trim msg) clock in
        let w1 := setMessages (messages w ++ [userMessage]) w in
        let abortController := controllers w in
        mkWorld (messages w1) EmptyString true thinking (Some abortController)
                (S (controllers w)) (aborted w)
                (inflight w ++ [(abortController, mkRequest (Js.trim msg) "web_user" fileId)])
                (timers w ++ [StageTimer analyzing; StageTimer processing; StageTimer generating])
                (storage w1)
  end.

(** The [finally] block of [handleSendMessage]. *)
Definition finish (c : nat) (w : World) : World :=
  if bool_decide (c ∈ aborted w) then w
  else mkWorld (messages w) (inputValue w) false (typingStage w) None
               (controllers w) (aborted w) (inflight w) (timers w) (storage w).

Definition assistantMessage (now : Z) (clock text : string) : Message.t :=
  Message.mk (now + 1) "assistant" text clock.

(** The rest of [handleSendMessage] after [await]: it runs when the
    exchange started with controller [c] settles. *)
Definition settle (c : nat) (how : Settlement) (now : Z) (clock : string)
           (w : World) : World :=
  if existsb (fun r => Nat.eqb (fst r) c) (inflight w) then
    let w0 := mkWorld (messages w) (inputValue w) (isTyping w) (typingStage w)
                      (currentAbortController w) (controllers w) (aborted w)
                      (List.filter (fun r => negb (Nat.eqb (fst r) c)) (inflight w))
                      (timers w) (storage w) in
    let w1 :=
      match how with
      | Resolved response =>
          if bool_decide (c ∈ aborted w0) then w0
          else addMessage (assistantMessage now clock response) w0
      | Rejected =>
          if bool_decide (c ∈ aborted w0) then w0
          else mkWorld (messages w0) (inputValue w0) (isTyping w0) (typingStage w0)
                       (currentAbortController w0) (controllers w0) (aborted w0)
                       (inflight w0) (timers w0 ++ [FallbackTimer]) (storage w0)
      end in
    finish c w1
  else w.

(** The [i]-th pending timer fires. *)
Definition fire (i : nat) (now : Z) (clock : string) (w : World) : World :=
  match nth_error (timers w) i with
  | None => w
  | Some tm =>
      let w0 := mkWorld (messages w) (inputValue w) (isTyping w) (typingStage w)
                        (currentAbortController w) (controllers w) (aborted w)
                        (inflight w) (firstn i (timers w) ++ skipn (S i) (timers w))
                        (storage w) in
      match tm with
      | StageTimer stage =>
          mkWorld (messages w0) (inputValue w0) (isTyping w0) stage
                  (currentAbortController w0) (controllers w0) (aborted w0)
                  (inflight w0) (timers w0) (storage w0)
      | FallbackTimer => addMessage (assistantMessage now clock FALLBACK) w0
      end
  end.

(** [handleNewChat], reached through [window.triggerNewChat]. *)
Definition handleNewChat (w : World) : World :=
  let w1 := setMessages [] w in
  mkWorld (messages w1) EmptyString false (typingStage w1) None (controllers w1)
          (match currentAbortController w with
           | Some c => {[c]} ∪ aborted w
           | None => aborted w
           end)
          (inflight w1) (timers w1) (storage w1).

(** [loadChatHistory], run on a [storage] or [chatSwitch] event.  An empty
    text under the key is falsy and empties the list; on a text that is no
    JSON, as a session id is, [JSON.parse] throws and the [catch] absorbs
    it.  The application writes message lists only under this key: a value
    of another shape that [JSON.parse] accepts (a session list, the text of
    a number), which the source would take for the messages, is outside
    the model, where it leaves the state as it is. *)
Definition loadChatHistory (w : World) : World :=
  match Storage.getItem Storage.CHAT_HISTORY (storage w) with
  | Some (Storage.Messages parsedMessages) => setMessages parsedMessages w
  | Some (Storage.Text savedMessages) =>
      if Js.truthy savedMessages then w else setMessages [] w
  | Some (Storage.Sessions _) => w
  | None => setMessages [] w
  end.

Inductive Event :=
| Send (msg : string) (fileId : option string) (now : Z) (clock : string)
| Settle (c : nat) (how : Settlement) (now : Z) (clock : string)
| Fire (i : nat) (now : Z) (clock : string)
| Add (m : Message.t)
| NewChat
| Reload.

Definition step (w : World) (e : Event) : World :=
  match e with
  | Send msg fileId now clock => handleSendMessage msg fileId now clock w
  | Settle c how now clock => settle c how now clock w
  | Fire i now clock => fire i now clock w
  | Add m => addMessage m w
  | NewChat => handleNewChat w
  | Reload => loadChatHistory w
  end.

Definition run (w : World) (es : list Event) : World := fold_left step es w.
End Runtime.

(** The events that cancel a request while it is awaited: the send button,
    which stops when the assistant is typing, and a new chat. *)
Definition cancels (e : Event) : bool :=
  match e with
  | Send _ _ _ _ | NewChat => true
  | _ => false
  end.

End Lifecycle.

(** ** Session index of the sidebar ([ClaudeSidebar]) *)

Module Sidebar.
Import Regex.

Record State := mkState {
  chatHistory : list Session.t;
  openMenuId : option string;
  renamingChatId : option string;
  renameValue : string }.

(** How a handler ends: normally, with the new state and storage, or with
    the [QuotaExceededError] of a [setItem] that nothing catches. *)
Inductive Outcome :=
| Done (s : State) (st : Storage.t)
| Uncaught (st : Storage.t).

(** [/data:image\/[^;]+;base64,[^\x22]+/g] *)
Definition imagePayloadRegex : Regex.t :=
  [ Lit "data:image/"; Rep NoCapture true 1 (isNot ";"); Lit ";base64,";
    Rep NoCapture true 1 (isNot quot) ].

Definition cleanMessage (msg : Message.t) : Message.t :=
  if String.eqb (Message.type msg) "ai" && Js.truthy (Message.content msg) then
    let cleanContent := replaceAll imagePayloadRegex (Message.content msg) "[IMAGE_REMOVED]" in
    Message.mk (Message.id msg) (Message.type msg) cleanContent (Message.timestamp msg)
  else msg.

(** [content.substring(0, 30) + (content.length > 30 ? '...' : '')] *)
Definition titleOf (content : string) : string :=
  Js.substringTo 30 content +:+ (if (30 <? Js.units content)%nat then "..." else "").

Fixpoint findIndex {A} (p : A -> bool) (a : list A) : option nat :=
  match a with
  | [] => None
  | x :: a' => if p x then Some 0 else option_map S (findIndex p a')
  end.

(** The entry of the current session built by [checkForNewMessages]. *)
Definition currentSession (sessionId title : string) (messages : list Message.t)
  : Session.t :=
  let cleanMessages := map cleanMessage messages in
  Session.mk sessionId title cleanMessages.

(** The index that the updater tries to store first: the current session
    in the place of its old entry, or in front of the four latest others. *)
Definition nextHistory (sessionId title : string) (messages : list Message.t)
           (prev : list Session.t) : list Session.t :=
  let existingIndex := findIndex (fun chat => String.eqb (Session.id chat) sessionId) prev in
  match existingIndex with
  | Some i => <[i := currentSession sessionId title messages]> prev
  | None => currentSession sessionId title messages :: firstn 4 prev
  end.

Definition historyOf (o : Outcome) : option (list Session.t) :=
  match o with Done s _ => Some (chatHistory s) | Uncaught _ => None end.

Definition storageOf (o : Outcome) : Storage.t :=
  match o with Done _ st => st | Uncaught st => st end.

Section Quota.
Variable fits : gmap string Storage.Stored -> bool.

(** The updater that [checkForNewMessages] passes to [setChatHistory]:
    [Some newHistory] is its return value, [None] the exception of the
    second [setItem], outside any [try]. *)
Definition updateHistory (sessionId title : string) (messages : list Message.t)
           (prev : list Session.t) (st : Storage.t)
  : option (list Session.t) * Storage.t :=
  let newHistory := nextHistory sessionId title messages prev in
  match Storage.setItem fits Storage.CHAT_SESSIONS (Storage.Sessions newHistory) st with
  | (true, st1) => (Some newHistory, st1)
  | (false, st1) =>
      let currentOnly := [currentSession sessionId title messages] in
      match Storage.setItem fits Storage.CHAT_SESSIONS (Storage.Sessions currentOnly) st1 with
      | (true, st2) => (Some currentOnly, st2)
      | (false, st2) => (None, st2)
      end
  end.

(** [checkForNewMessages], run on mount and every two seconds; [now] is
    [Date.now()]. *)
Definition checkForNewMessages (now : Z) (s : State) (st : Storage.t) : Outcome :=
  match Storage.getItem Storage.CHAT_HISTORY st with
  | Some (Storage.Messages messages) =>
      match messages with
      | [] => Done s st
      | _ :: _ =>
          let sessionId :=
            match Storage.getItem Storage.CURRENT_SESSION_ID st with
            | Some (Storage.Text id) =>
                if Js.truthy id then id else "session-" +:+ Js.digits (Z.to_N now)
            | _ => "session-" +:+ Js.digits (Z.to_N now)
            end in
          match find (fun msg => String.eqb (Message.type msg) "user") messages with
          | Some firstUserMessage =>
              let title := titleOf (Message.content firstUserMessage) in
              match updateHistory sessionId title messages (chatHistory s) st with
              | (Some newHistory, st') =>
                  Done (mkState newHistory (openMenuId s) (renamingChatId s) (renameValue s)) st'
              | (None, st') => Uncaught st'
              end
          | None => Done s st
          end
      end
  | _ => Done s st
  end.

Definition handleRenameStart (chat : Session.t) (s : State) : State :=
  mkState (chatHistory s) None (Some (Session.id chat)) (Session.title chat).

Definition setRenameValue (value : string) (s : State) : State :=
  mkState (chatHistory s) (openMenuId s) (renamingChatId s) value.

Definition handleRenameSubmit (chatId : string) (s : State) (st : Storage.t) : Outcome :=
  if Js.truthy (Js.trim (renameValue s)) then
    let updated :=
      map (fun chat =>
             if String.eqb (Session.id chat) chatId
             then Session.mk (Session.id chat) (Js.trim (renameValue s)) (Session.messages chat)
             else chat)
          (chatHistory s) in
    match Storage.setItem fits Storage.CHAT_SESSIONS (Storage.Sessions updated) st with
    | (true, st') => Done (mkState updated (openMenuId s) None EmptyString) st'
    | (false, st') => Uncaught st'
    end
  else Done (mkState (chatHistory s) (openMenuId s) None EmptyString) st.
End Quota.

End Sidebar.

(** ** The chat list of the hook ([useChatHistory]) *)

Module Hook.

(** [Message] and [ChatHistory] of [types/chat.ts]; a [Date] is its time
    value.  The optional fields [isTyping] and [fileAttachment] of a
    message, which the hook never reads, are left out. *)
Record Message := mkMessage {
  id : string; content : string; isUser : bool; timestamp : Z }.

Record ChatHistory := mkChat {
  chatId : string; title : string; messages : list Message;
  createdAt : Z; lastUpdated : Z }.

Definition NEW_CHAT : string := "New Chat".

(** [content.length > 50 ? content.substring(0, 50) + '...' : content] *)
Definition titleOf (content : string) : string :=
  if (50 <? Js.units content)%nat then Js.substringTo 50 content +:+ "..." else content.

(** The updaters that [renameChat] and [addMessageToChat] pass to [setChats];
    [now] is the value of [new Date()]. *)
Definition renameChat (id newTitle : string) (now : Z) (chats : list ChatHistory)
  : list ChatHistory :=
  if negb (Js.truthy (Js.trim newTitle)) then chats
  else map (fun chat =>
              if String.eqb (chatId chat) id
              then mkChat (chatId chat) (Js.trim newTitle) (messages chat) (createdAt chat) now
              else chat) chats.

Definition addMessageToChat (id : string) (message : Message) (now : Z)
           (chats : list ChatHistory) : list ChatHistory :=
  map (fun chat =>
         if String.eqb (chatId chat) id then
           let updatedMessages := messages chat ++ [message] in
           let title' :=
             if String.eqb (title chat) NEW_CHAT && isUser message
             then titleOf (content message)
             else title chat in
           mkChat (chatId chat) title' updatedMessages (createdAt chat) now
         else chat) chats.

End Hook.

(** ** Sample data for the scenarios *)

Module Sample.
Import Regex.

(** A storage layer that takes every write, and one of capacity zero, which
    refuses every write (a browser in private mode). *)
Definition roomy (_ : gmap string Storage.Stored) : bool := true.
Definition full (_ : gmap string Storage.Stored) : bool := false.

(** A storage layer with room for one message and one session. *)
Definition tight (m : gmap string Storage.Stored) : bool :=
  match m !! Storage.CHAT_HISTORY with
  | Some (Storage.Messages l) => (length l <=? 1)%nat
  | _ => true
  end
  && match m !! Storage.CHAT_SESSIONS with
     | Some (Storage.Sessions l) => (length l <=? 1)%nat
     | _ => true
     end.

Definition emptyStorage : Storage.t := Storage.mk ∅ [].

Definition question : Message.t :=
  Message.mk 1000 "user" "Plot the sales" "9:00 AM".

Definition followUp : Message.t :=
  Message.mk 3000 "user" "Now by region" "9:02 AM".

(** A reply that inlines a JPEG as a data URL. *)
Definition jpegReply : Message.t :=
  Message.mk 1001 "assistant"
    ("<img src=" +:+ q +:+ "data:image/jpeg;base64,/9j/4AAQSkZJRg==" +:+ q +:+ " />")
    "9:01 AM".

Definition pngReply : Message.t :=
  Message.mk 2001 "assistant"
    ("<img src=" +:+ q +:+ "data:image/png;base64,iVBORw0KGgo=" +:+ q +:+ " />")
    "9:01 AM".

(** The chat area at rest, before any message. *)
Definition idle : Lifecycle.World :=
  Lifecycle.mkWorld [] EmptyString false Lifecycle.thinking None 0 ∅ [] [] emptyStorage.

(** The world while the answer to a first question is awaited. *)
Definition awaiting : Lifecycle.World :=
  Lifecycle.handleSendMessage roomy "What is the average salary?" None 1000 "9:00 AM" idle.

(** The sidebar with the session of [question], and the storage behind it. *)
Definition salesSession : Session.t := Session.mk "session-1" "Plot the sales" [question].

Definition sidebar : Sidebar.State := Sidebar.mkState [salesSession] None None EmptyString.

Definition salesStorage : Storage.t :=
  Storage.mk
    (<[Storage.CURRENT_SESSION_ID := Storage.Text "session-1"]>
       (<[Storage.CHAT_SESSIONS := Storage.Sessions [salesSession]]>
          (<[Storage.CHAT_HISTORY := Storage.Messages [question]]> ∅)))
    [].

Definition reply (id : Z) : Message.t := Message.mk id "assistant" "Done." "9:03 AM".
Definition ask (id : Z) : Message.t := Message.mk id "user" "And then?" "9:03 AM".

(** White space outside ASCII, in UTF-8: U+00A0, U+2028, U+3000, U+FEFF. *)
Definition NBSP : string := String "194" (String "160" EmptyString).
Definition LINE_SEPARATOR : string :=
  String "226" (String "128" (String "168" EmptyString)).
Definition IDEOGRAPHIC_SPACE : string :=
  String "227" (String "128" (String "128" EmptyString)).
Definition BOM : string := String "239" (String "187" (String "191" EmptyString)).

(** A message of white space only. *)
Definition blanks : string :=
  String " " (String "009" (String "010" EmptyString))
  +:+ NBSP +:+ LINE_SEPARATOR +:+ IDEOGRAPHIC_SPACE +:+ BOM.

(** A question of more than thirty characters, with accents. *)
Definition accented : Message.t :=
  Message.mk 8000 "user" "Résumé des ventes par région et par trimestre" "9:05 AM".

(** An index of five sessions, a sixth session being the current one. *)
Definition session (n : string) : Session.t :=
  Session.mk ("session-" +:+ n) ("Chat " +:+ n) [question].

Definition fiveSessions : list Session.t :=
  [ session "1"; session "2"; session "3"; session "4"; session "5" ].

Definition crowded : Sidebar.State :=
  Sidebar.mkState fiveSessions None None EmptyString.

Definition crowdedStorage : Storage.t :=
  Storage.mk
    (<[Storage.CURRENT_SESSION_ID := Storage.Text "session-9"]>
       (<[Storage.CHAT_SESSIONS := Storage.Sessions fiveSessions]>
          (<[Storage.CHAT_HISTORY := Storage.Messages [accented; followUp]]> ∅)))
    [].

(** Eleven messages: the first question and five more exchanges. *)
Definition longSession : list Message.t :=
  [ question; reply 1001; followUp; reply 3001; ask 4000; reply 4001;
    ask 5000; reply 5001; ask 6000; reply 6001; ask 7000 ].

(** A wrapper with a link, a title and an image, and a wrapper that has the
    image only. *)
Definition opening : string :=
  Parser.markup "<div style=|position: relative; margin: 20px 0;|>".




End Sample.

(** * The rest of the runtime

    The sections below embed what the sections above leave out of the same
    components: the other handlers of the sidebar ([handleChatSelect],
    [handleChatDelete], [handleNewChat]) and their meeting with the chat
    area through the [chatSwitch] event, inline code
    ([processInlineCode]) and the renderer [MessageContent] of the chat
    area, with the invariants that the properties of the second half of
    the file are stated with. *)

(** ** Replacement told by recursion on the rest of the subject *)

Module Rewrite.
Import Regex.

(** [subject.replace(r, by)] again: the text before the leftmost match, the
    replacement, and the same for what follows the match.  [RewriteFacts]
    proves it equal to [replaceAll]. *)
Fixpoint replaceLoop (fuel : nat) (r : Regex.t) (s by_ : string) : string :=
  match fuel with
  | O => s
  | S fuel' =>
      match exec r s 0 with
      | None => s
      | Some m => Js.take (index m) s +:+ by_ +:+ replaceLoop fuel' r (after m) by_
      end
  end.

(** The match object found at [pos] places further on. *)
Definition reindex (pos : nat) (m : result) : result :=
  mkResult (pos + index m) (groups m) (size m) (after m).

(** [join] of the pieces of [replaceAll] and [splitKeeping]. *)
Definition join (ps : list (option string)) : string :=
  fold_right (fun p acc => match p with Some x => x +:+ acc | None => acc end)
             EmptyString ps.

Definition PNG_PREFIX : string := "data:image/png;base64,".

(** An inline PNG payload stands at the head of [s]: the data-URL prefix
    followed by at least one character that is not a double quote. *)
Definition pngPayloadAt (s : string) : bool :=
  Js.startsWith s PNG_PREFIX
  && match Js.drop (String.length PNG_PREFIX) s with
     | EmptyString => false
     | String c _ => negb (Ascii.eqb c quot)
     end.

(** No inline PNG payload stands anywhere in [t]. *)
Definition payloadFree (t : string) : Prop :=
  forall j, pngPayloadAt (Js.drop j t) = false.

End Rewrite.

(** ** Predicates on the state of the chat area *)

Module Invariant.
Import Lifecycle.

(** The stored message list, when there is one, is what the save effect
    makes of the list in memory. *)
Definition coherent (w : World) : Prop :=
  Storage.getItem Storage.CHAT_HISTORY (storage w) = None
  \/ Storage.getItem Storage.CHAT_HISTORY (storage w)
     = Some (ChatStore.persistedForm (messages w)).

(** The exchanges that are awaited and not canceled. *)
Definition live (w : World) : list (nat * Request) :=
  List.filter (fun r => negb (bool_decide (fst r ∈ aborted w))) (inflight w).

(** The bookkeeping of the controllers: the current controller belongs to an
    awaited exchange and is not aborted, typing goes with a current
    controller, every controller in use has been created, no two exchanges
    share a controller, and an awaited exchange that is not canceled is the
    current one. *)
Record wellFormed (w : World) : Prop := {
  current_live : forall c, currentAbortController w = Some c ->
                           isTyping w = true /\ (c ∉ aborted w) /\ In c (map fst (inflight w));
  idle_quiet : currentAbortController w = None -> isTyping w = false;
  inflight_created : forall c, In c (map fst (inflight w)) -> c < controllers w;
  aborted_created : forall c, c ∈ aborted w -> c < controllers w;
  inflight_distinct : NoDup (map fst (inflight w));
  live_current : forall c, In c (map fst (inflight w)) -> c ∉ aborted w ->
                           currentAbortController w = Some c }.

End Invariant.

(** ** The other handlers of the sidebar *)

Module Index.
Import Sidebar.

Section Quota.
Variable fits : gmap string Storage.Stored -> bool.

(** [handleChatSelect]: the flag tells whether the [chatSwitch] event was
    dispatched; it is not when a [setItem] throws. *)
Definition handleChatSelect (chat : Session.t) (st : Storage.t) : bool * Storage.t :=
  match Storage.setItem fits Storage.CHAT_HISTORY
                        (Storage.Messages (Session.messages chat)) st with
  | (true, st1) =>
      Storage.setItem fits Storage.CURRENT_SESSION_ID (Storage.Text (Session.id chat)) st1
  | (false, st1) => (false, st1)
  end.

(** The updater that [handleChatDelete] passes to [setChatHistory]; [None]
    is the exception of its [setItem]. *)
Definition deleteUpdater (chatId : string) (prev : list Session.t) (st : Storage.t)
  : option (list Session.t) * Storage.t :=
  let updated :=
    List.filter (fun chat => negb (String.eqb (Session.id chat) chatId)) prev in
  match Storage.setItem fits Storage.CHAT_SESSIONS (Storage.Sessions updated) st with
  | (true, st') => (Some updated, st')
  | (false, st') => (None, st')
  end.

(** [handleNewChat] of the sidebar up to the [chatSwitch] event: the flag
    tells whether it was dispatched. *)
Definition handleNewChat (now : Z) (st : Storage.t) : bool * Storage.t :=
  let newSessionId := "session-" +:+ Js.digits (Z.to_N now) in
  match Storage.setItem fits Storage.CURRENT_SESSION_ID (Storage.Text newSessionId) st with
  | (true, st1) => (true, Storage.removeItem Storage.CHAT_HISTORY st1)
  | (false, st1) => (false, st1)
  end.
End Quota.

(** The rest of [handleChatDelete]: when the deleted chat is the current
    one, the stored messages and the session id are removed and
    [chatSwitch] is dispatched (the flag). *)
Definition forgetCurrent (chatId : string) (st : Storage.t) : bool * Storage.t :=
  match Storage.getItem Storage.CURRENT_SESSION_ID st with
  | Some (Storage.Text currentSessionId) =>
      if String.eqb currentSessionId chatId
      then (true, Storage.removeItem Storage.CURRENT_SESSION_ID
                    (Storage.removeItem Storage.CHAT_HISTORY st))
      else (false, st)
  | _ => (false, st)
  end.

Definition handleRenameCancel (s : State) : State :=
  mkState (chatHistory s) (openMenuId s) None EmptyString.

(** The index lists each session once and holds five sessions at most. *)
Definition tidy (history : list Session.t) : Prop :=
  NoDup (map Session.id history) /\ length history <= 5.

(** The stored index is the index in memory. *)
Definition synced (s : State) (st : Storage.t) : Prop :=
  Storage.getItem Storage.CHAT_SESSIONS st = Some (Storage.Sessions (chatHistory s)).

End Index.

(** ** Sidebar and chat area together *)

Module App.
Import Lifecycle.

Definition withStorage (st : Storage.t) (w : World) : World :=
  mkWorld (messages w) (inputValue w) (isTyping w) (typingStage w)
          (currentAbortController w) (controllers w) (aborted w) (inflight w)
          (timers w) st.

Section Quota.
Variable fits : gmap string Storage.Stored -> bool.

(** A handler of the sidebar acts on the storage; when it dispatches
    [chatSwitch], the listener of the chat area runs [loadChatHistory]. *)
Definition chatSwitch (result : bool * Storage.t) (w : World) : World :=
  match result with
  | (true, st) => loadChatHistory fits (withStorage st w)
  | (false, st) => withStorage st w
  end.

Definition selectChat (chat : Session.t) (w : World) : World :=
  chatSwitch (Index.handleChatSelect fits chat (storage w)) w.

Definition deleteCurrent (chatId : string) (w : World) : World :=
  chatSwitch (Index.forgetCurrent chatId (storage w)) w.

(** [handleNewChat] of the sidebar to its end: after the event it calls
    [onNewChat], which runs the [triggerNewChat] of the chat area. *)
Definition newChat (now : Z) (w : World) : World :=
  match Index.handleNewChat fits now (storage w) with
  | (true, st) => handleNewChat fits (loadChatHistory fits (withStorage st w))
  | (false, st) => withStorage st w
  end.
End Quota.

End App.

(** ** The other updaters of the hook ([useChatHistory]) *)

Module Chats.
Import Hook.

(** The updater that [updateChatMessages] passes to [setChats]. *)
Definition updateChatMessages (id : string) (msgs : list Message) (now : Z)
           (chats : list ChatHistory) : list ChatHistory :=
  map (fun chat =>
         if String.eqb (chatId chat) id then
           let title' :=
             if String.eqb (title chat) NEW_CHAT && (0 <? length msgs)%nat then
               match find isUser msgs with
               | Some firstUserMessage => titleOf (content firstUserMessage)
               | None => title chat
               end
             else title chat in
           mkChat (chatId chat) title' msgs (createdAt chat) now
         else chat) chats.

(** [getCurrentChat]: [chats.find(chat => chat.id === currentChatId) || null]. *)
Definition getCurrentChat (chats : list ChatHistory) (currentChatId : option string)
  : option ChatHistory :=
  match currentChatId with
  | Some id => find (fun chat => String.eqb (chatId chat) id) chats
  | None => None
  end.

(** The calls [addMessageToChat(id, m)] for the messages of [arrivals] in
    turn, each with the time of its call; the current chat stays the same,
    so the effect that loads the list does not run in between. *)
Definition addMessages (id : string) (arrivals : list (Message * Z))
           (chats : list ChatHistory) : list ChatHistory :=
  fold_left (fun cs a => addMessageToChat id (fst a) (snd a) cs) arrivals chats.

(** A first question of more than fifty characters, an answer, and a
    second question. *)
Definition arrivals : list (Message * Z) :=
  [ (mkMessage "m1" "Résumé des ventes par région et par trimestre pour l'année 2024"
               true 10, 10%Z);
    (mkMessage "m2" "Here it is." false 11, 11%Z);
    (mkMessage "m3" "Now by region" true 12, 12%Z) ].

End Chats.

(** ** Inline code ([processInlineCode] of [MessageParser.tsx]) *)

Module Inline.
Import Regex.

(** The elements pushed: [<span>] with a text, [<code>] with the text of
    the group. *)
Inductive Piece :=
| Span (text : string)
| Code (text : string).

Definition BACKTICK : string := "`".

(** The fence of a code block. *)
Definition FENCE : string := "```".

Definition codeChar (c : ascii) : bool :=
  negb (Ascii.eqb c "`" || Ascii.eqb c "010").

(** [/`([^`\n]+)`/g] *)
Definition inlineCodeRegex : Regex.t :=
  [ Lit BACKTICK; Rep Capture true 1 codeChar; Lit BACKTICK ].

(** [if (t) parts.push(<span>{t}</span>)] *)
Definition spanOf (t : string) : list Piece :=
  if Js.truthy t then [Span t] else [].

(** The [while] loop over the matches and the remainder after the last. *)
Fixpoint inlineParts (text : string) (lastIndex : nat) (ms : list result)
  : list Piece :=
  match ms with
  | [] =>
      if (lastIndex <? String.length text)%nat
      then spanOf (Js.drop lastIndex text)
      else []
  | m :: ms' =>
      (if (lastIndex <? index m)%nat
       then spanOf (Js.slice text lastIndex (index m))
       else [])
      ++ Code (Parser.text (group m 1))
      :: inlineParts text (index m + size m) ms'
  end.

Definition processInlineCode (text : string) : list Piece :=
  match inlineParts text 0 (execAll inlineCodeRegex text) with
  | [] => [Span text]
  | parts => parts
  end.

(** The markdown that a piece stands for. *)
Definition source (p : Piece) : string :=
  match p with
  | Span t => t
  | Code t => BACKTICK +:+ t +:+ BACKTICK
  end.

Definition unparse (ps : list Piece) : string :=
  fold_right (fun p acc => source p +:+ acc) EmptyString ps.

End Inline.

(** ** The message renderer of the chat area ([MessageContent])

    An [Element] keeps what determines the React element; the [key]
    attributes, which the index arguments of the source only serve, are left
    out. *)

Module Content.
Import Regex.

#[warnings="-register-all"]
Inductive Element :=
| Badge
| Spacer
| Paragraph (isExpert : bool) (children : list (bool * string))
| Line (text : string)
| Block (code language : string)
| BulletList (items : list Element)
| RawHtml (html : string).

Definition BOLD : string := "**".

(** [s.split(sep)] for a separator that is not empty; [skip] counts the
    characters of a separator still to step over. *)
Fixpoint splitFrom (sep : string) (skip : nat) (s : string) : list string :=
  match s with
  | EmptyString => [EmptyString]
  | String c s' =>
      match skip with
      | S k => splitFrom sep k s'
      | O =>
          if Js.startsWith s sep
          then EmptyString :: splitFrom sep (String.length sep - 1) s'
          else match splitFrom sep 0 s' with
               | [] => [String c EmptyString]
               | h :: t => String c h :: t
               end
      end
  end.

Definition splitOn (sep s : string) : list string := splitFrom sep 0 s.

(** The children of a paragraph with bold text: the parts of odd index are
    [<strong>]. *)
Fixpoint lineElements (parts : list string) (partIndex : nat) : list (bool * string) :=
  match parts with
  | [] => []
  | part :: parts' => ((partIndex mod 2 =? 1)%nat, part) :: lineElements parts' (S partIndex)
  end.

(** The variables of [parseNonCodeContent] that its [forEach] updates. *)
Record Lines := mkLines {
  elements : list Element;
  listItems : list Element;
  inList : bool }.

Definition eachLine (isExpert : bool) (acc : Lines) (line : string) : Lines :=
  if negb (Js.truthy (Js.trim line)) then
    let acc1 :=
      if inList acc
      then mkLines (elements acc ++ [BulletList (listItems acc)]) [] false
      else acc in
    mkLines (elements acc1 ++ [Spacer]) (listItems acc1) (inList acc1)
  else if Js.includes line BOLD then
    mkLines (elements acc ++ [Paragraph isExpert (lineElements (splitOn BOLD line) 0)])
            (listItems acc) (inList acc)
  else
    mkLines (elements acc ++ [Line line]) (listItems acc) (inList acc).

Definition parseNonCodeContent (text : string) (isExpert : bool) : list Element :=
  let lines := Js.split "010" text in
  elements (fold_left (eachLine isExpert) lines (mkLines [] [] false)).

(** [match[1] || 'text'] *)
Definition languageOf (g : option string) : string :=
  if Js.truthy (Parser.text g) then Parser.text g else "text".

(** The [while] loop of [renderContent] and the remainder after it. *)
Fixpoint renderParts (text : string) (isExpert : bool) (lastIndex : nat)
         (ms : list result) : list Element :=
  match ms with
  | [] =>
      if (lastIndex <? String.length text)%nat
      then parseNonCodeContent (Js.drop lastIndex text) isExpert
      else []
  | m :: ms' =>
      (if (lastIndex <? index m)%nat
       then parseNonCodeContent (Js.slice text lastIndex (index m)) isExpert
       else [])
      ++ Block (Js.trim (Parser.text (group m 2))) (languageOf (group m 1))
      :: renderParts text isExpert (index m + size m) ms'
  end.

Definition isExpertMessage (content : string) : bool :=
  Js.includes content "🔬 **EXPERT DATA SCIENTIST"
  || Js.includes content "EXPERT DATA SCIENTIST AI"
  || Js.includes content "📊 **ANALYSIS RESULTS:**".

Definition renderContent (text : string) (isExpert : bool) : list Element :=
  (if isExpert then [Badge] else [])
  ++ renderParts text isExpert 0 (execAll Parser.codeBlockRegex text).

(** [MessageContent]: the children of the element it returns; [RawHtml] is
    the [dangerouslySetInnerHTML] of the content. *)
Definition MessageContent (content : string) : list Element :=
  if Js.includes content Parser.PNG_SIGNATURE
     || Js.includes content Parser.WRAPPER_SIGNATURE
  then [RawHtml content]
  else renderContent content (isExpertMessage content).

End Content.

(** ** Events of the chat area that add to the conversation *)

Module Growth.
Import Lifecycle.

(** Every event but the new chat and the reload of the stored messages. *)
Definition appends (e : Event) : bool :=
  match e with
  | NewChat | Reload => false
  | _ => true
  end.

End Growth.

(** ** Facts about strings *)

Module StringFacts.
Import Js.

Lemma append_cons (x : ascii) (a b : string) : String x a +:+ b = String x (a +:+ b).
Proof. reflexivity. Qed.

Lemma append_nil_l (b : string) : "" +:+ b = b.
Proof. reflexivity. Qed.

Lemma append_assoc (a b c : string) : (a +:+ b) +:+ c = a +:+ (b +:+ c).
Proof. induction a as [|x a IH]; [reflexivity|]. rewrite !append_cons. now f_equal. Qed.

Lemma length_append (a b : string) :
  String.length (a +:+ b) = String.length a + String.length b.
Proof.
  induction a as [|x a IH]; [reflexivity|]. rewrite append_cons. simpl. now f_equal.
Qed.

Lemma startsWith_nil (s : string) : startsWith s "" = true.
Proof. destruct s; reflexivity. Qed.

Lemma startsWith_cons (a b : ascii) (p s : string) :
  startsWith (String b s) (String a p) = Ascii.eqb a b && startsWith s p.
Proof. reflexivity. Qed.

Lemma startsWith_append (p s : string) : startsWith (p +:+ s) p = true.
Proof.
  induction p as [|x p IH]; [apply startsWith_nil|].
  rewrite append_cons. simpl. now rewrite Ascii.eqb_refl, IH.
Qed.

Lemma startsWith_append_l (s t p : string) :
  startsWith s p = true -> startsWith (s +:+ t) p = true.
Proof.
  revert s. induction p as [|x p IH]; intros s H; [apply startsWith_nil|].
  destruct s as [|y s]; [discriminate|]. rewrite append_cons. simpl in *.
  apply andb_true_iff in H as [H1 H2]. now rewrite H1, (IH _ H2).
Qed.

Lemma drop_append (p s : string) : drop (String.length p) (p +:+ s) = s.
Proof. induction p as [|x p IH]; [reflexivity|]. rewrite append_cons. exact IH. Qed.

Lemma drop_append_lt (n : nat) (a b : string) :
  n <= String.length a -> drop n (a +:+ b) = drop n a +:+ b.
Proof.
  revert a. induction n as [|n IH]; intros a Hn; [reflexivity|].
  destruct a as [|x a]; simpl in Hn; [lia|]. rewrite append_cons. simpl. apply IH. lia.
Qed.

Lemma take_append (p s : string) : take (String.length p) (p +:+ s) = p.
Proof.
  induction p as [|x p IH]; [reflexivity|]. rewrite append_cons. simpl. now f_equal.
Qed.

Lemma includes_startsWith (s p : string) : startsWith s p = true -> includes s p = true.
Proof. intros H. destruct s; simpl in *; now rewrite H. Qed.

Lemma includes_drop (n : nat) (s p : string) :
  startsWith (drop n s) p = true -> includes s p = true.
Proof.
  revert s. induction n as [|n IH]; intros s H; [now apply includes_startsWith|].
  destruct s as [|x s]; [now apply includes_startsWith|].
  simpl in *. rewrite (IH _ H). apply orb_true_r.
Qed.

Lemma includes_append_r (a b p : string) :
  includes b p = true -> includes (a +:+ b) p = true.
Proof.
  intros H. induction a as [|x a IH]; [exact H|].
  rewrite append_cons. simpl. rewrite IH. apply orb_true_r.
Qed.

(** A pattern in which [c] does not occur cannot run over a [c]. *)
Lemma startsWith_before (c : ascii) (p u v : string) :
  occurs c p = false ->
  startsWith (u +:+ String c v) p = true -> startsWith u p = true.
Proof.
  revert u. induction p as [|y p IH]; intros u Hc H; [apply startsWith_nil|].
  simpl in Hc. apply orb_false_iff in Hc as [Hy Hp].
  destruct u as [|z u].
  - rewrite append_nil_l in H. simpl in H. rewrite Hy in H. discriminate.
  - rewrite append_cons in H. simpl in *.
    apply andb_true_iff in H as [H1 H2]. rewrite H1. simpl. now apply IH.
Qed.




(** [trim] takes white space outside ASCII at both ends and keeps it
    inside; U+0085 and U+200B are no white space. *)
Lemma trim_white_space :
  trim Sample.blanks = ""
  /\ trim (Sample.NBSP +:+ "a" +:+ Sample.IDEOGRAPHIC_SPACE +:+ "b"
           +:+ Sample.LINE_SEPARATOR +:+ Sample.BOM)
     = "a" +:+ Sample.IDEOGRAPHIC_SPACE +:+ "b"
  /\ trim (String "194" (String "133" " a")) = String "194" (String "133" " a")
  /\ trim (String "226" (String "128" (String "139" EmptyString)))
     = String "226" (String "128" (String "139" EmptyString)).
Proof. vm_compute. repeat split. Qed.

(** An accented letter is one code unit, a pictograph outside the basic
    plane two; [substring] cuts it at its high surrogate, here U+D83D. *)
Lemma code_units :
  units "Résumé" = 6
  /\ units "📊" = 2
  /\ substringTo 3 "Résumé" = "Rés"
  /\ substringTo 1 "📊" = String "237" (String "160" (String "189" EmptyString))
  /\ substringTo 2 "📊" = "📊".
Proof. vm_compute. repeat split. Qed.
End StringFacts.

(** ** Facts about the regular-expression engine *)

Module RegexFacts.
Import Js Regex StringFacts.

Lemma flat_map_nil {A B} (f : A -> list B) (l : list A) :
  (forall x, In x l -> f x = []) -> flat_map f l = [].
Proof.
  induction l as [|x l IH]; intros H; [reflexivity|]. simpl.
  rewrite (H x) by now left. apply IH. intros y Hy. apply H. now right.
Qed.

Lemma span_any (s : string) : span any s = String.length s.
Proof. induction s as [|x s IH]; simpl; [reflexivity|now rewrite IH]. Qed.

Lemma matches_lit_fail (l : string) (r : Regex.t) (s : string) :
  startsWith s l = false -> matchHere (Lit l :: r) s = None.
Proof. intros H. unfold matchHere. simpl. now rewrite H. Qed.

Lemma matches_rep cap greedy min cls (r : Regex.t) (s : string) :
  matches (Rep cap greedy min cls :: r) s
  = flat_map
      (fun n => map (fun m => (captured cap n s (fst m), snd m)) (matches r (drop n s)))
      (counts greedy min (span cls s)).
Proof. reflexivity. Qed.

Lemma matches_lit (l : string) (r : Regex.t) (s : string) :
  matches (Lit l :: r) s
  = if startsWith s l then matches r (drop (String.length l) s) else [].
Proof. reflexivity. Qed.

(** Matching a concatenation: every match of the first part, in order,
    continued by every match of the second. *)
Lemma matches_app (r1 r2 : Regex.t) (s : string) :
  matches (r1 ++ r2) s
  = flat_map (fun m1 => map (fun m2 => (fst m1 ++ fst m2, snd m2)) (matches r2 (snd m1)))
             (matches r1 s).
Proof.
  revert s. induction r1 as [|a r1 IH]; intros s; simpl.
  - rewrite app_nil_r. induction (matches r2 s) as [|[g t] l IHl]; simpl; [reflexivity|].
    now rewrite <- IHl.
  - destruct a as [l|cap greedy min cls|greedy min unit].
    + destruct (startsWith s l); [apply IH|reflexivity].
    + induction (counts greedy min (span cls s)) as [|n ns IHn]; simpl; [reflexivity|].
      rewrite flat_map_app, <- IHn. f_equal.
      rewrite IH. clear.
      induction (matches r1 (drop n s)) as [|[g t] l IHl]; simpl; [reflexivity|].
      rewrite map_app, <- IHl. f_equal.
      rewrite map_map. apply map_ext. intros [g2 t2]. simpl.
      destruct cap; reflexivity.
    + induction (ends greedy min unit s) as [|n ns IHn]; simpl; [reflexivity|].
      rewrite flat_map_app, <- IHn. f_equal. apply IH.
Qed.

Lemma matchHere_app (r1 r2 : Regex.t) (s tail : string) (g1 g2 : list (option string))
      (rest : string) :
  matchHere r1 s = Some (g1, tail) -> matchHere r2 tail = Some (g2, rest) ->
  matchHere (r1 ++ r2) s = Some (g1 ++ g2, rest).
Proof.
  unfold matchHere. rewrite matches_app.
  destruct (matches r1 s) as [|[g t] l1]; simpl; [discriminate|].
  intros [= -> ->].
  destruct (matches r2 tail) as [|[g t] l2]; simpl; [discriminate|].
  now intros [= -> ->].
Qed.

(** The lazy group followed by a literal stops at the first occurrence of
    the literal. *)
Lemma lazy_until (close inner rest : string) :
  (forall n, n < String.length inner ->
             startsWith (drop n (inner +:+ close +:+ rest)) close = false) ->
  matchHere [Rep Capture false 0 any; Lit close] (inner +:+ close +:+ rest)
  = Some ([Some inner], rest).
Proof.
  intros Hfirst. unfold matchHere. rewrite matches_rep, span_any.
  unfold counts. rewrite Nat.sub_0_r.
  set (s := inner +:+ close +:+ rest) in *.
  set (k := String.length inner) in *.
  assert (Hk : S (String.length s) = k + S (String.length s - k)).
  { subst s k. rewrite length_append. lia. }
  rewrite Hk, seq_app, flat_map_app.
  rewrite flat_map_nil.
  - cbn [seq flat_map app Nat.add]. rewrite matches_lit.
    subst s k. rewrite drop_append, startsWith_append, drop_append. simpl.
    now rewrite take_append.
  - intros n Hn. apply in_seq in Hn. rewrite matches_lit, Hfirst by lia. reflexivity.
Qed.

Lemma exec_here (r : Regex.t) (s : string) (pos : nat) gs (rest : string) :
  matchHere r s = Some (gs, rest) ->
  exec r s pos = Some (mkResult pos gs (String.length s - String.length rest) rest).
Proof. intros H. destruct s; cbn [exec]; now rewrite H. Qed.

(** [exec] steps over a prefix in which the pattern matches nowhere. *)
Lemma exec_skip (r : Regex.t) (a s : string) (pos : nat) :
  (forall n, n < String.length a -> matchHere r (drop n (a +:+ s)) = None) ->
  exec r (a +:+ s) pos = exec r s (pos + String.length a).
Proof.
  revert pos. induction a as [|x a IH]; intros pos H.
  - rewrite append_nil_l. simpl. now rewrite Nat.add_0_r.
  - rewrite append_cons. simpl.
    pose proof (H 0 ltac:(simpl; lia)) as H0. rewrite append_cons in H0. simpl in H0.
    rewrite H0, IH.
    + f_equal. lia.
    + intros n Hn. apply (H (S n)). simpl. lia.
Qed.

Lemma exec_none (l : string) (r : Regex.t) (s : string) (pos : nat) :
  includes s l = false -> exec (Lit l :: r) s pos = None.
Proof.
  revert pos. induction s as [|x s IH]; intros pos H; simpl in *.
  - apply orb_false_iff in H as [H _]. unfold matchHere. simpl. now rewrite H.
  - apply orb_false_iff in H as [H1 H2].
    rewrite (matches_lit_fail l r (String x s) H1). apply IH, H2.
Qed.

Lemma drop_length (n : nat) (s : string) : String.length (drop n s) = String.length s - n.
Proof.
  revert s. induction n as [|n IH]; intros s; [simpl; lia|].
  destruct s as [|x s]; simpl; [reflexivity|apply IH].
Qed.

Lemma startsWith_length (s p : string) :
  startsWith s p = true -> String.length p <= String.length s.
Proof.
  revert s. induction p as [|x p IH]; intros s H; [simpl; lia|].
  destruct s as [|y s]; [discriminate|]. rewrite startsWith_cons in H.
  apply andb_true_iff in H as [_ H]. apply IH in H. simpl. lia.
Qed.

Lemma matches_shorter (r : Regex.t) (s : string) (m : list (option string) * string) :
  In m (matches r s) -> String.length (snd m) <= String.length s.
Proof.
  revert s m. induction r as [|a r IH]; intros s m H.
  - destruct H as [<-|[]]. simpl. lia.
  - destruct a as [l|cap greedy min cls|greedy min unit].
    + rewrite matches_lit in H. destruct (startsWith s l); [|destruct H].
      apply IH in H. rewrite drop_length in H. lia.
    + rewrite matches_rep in H. apply in_flat_map in H as (n & _ & H).
      apply in_map_iff in H as (m' & <- & H). apply IH in H.
      rewrite drop_length in H. simpl. lia.
    + cbn [matches] in H. apply in_flat_map in H as (n & _ & H).
      apply IH in H. rewrite drop_length in H. lia.
Qed.

(** A pattern that opens with a literal never matches the empty string. *)
Lemma literal_consumed (x : ascii) (l : string) (r : Regex.t) (s : string) gs rest :
  matchHere (Lit (String x l) :: r) s = Some (gs, rest) ->
  String.length rest < String.length s.
Proof.
  unfold matchHere. rewrite matches_lit.
  destruct (startsWith s (String x l)) eqn:E; [|discriminate].
  intros H. apply startsWith_length in E.
  assert (Hin : In (gs, rest) (matches r (drop (String.length (String x l)) s))).
  { destruct (matches r _) as [|m ms]; [discriminate|]. injection H as ->. now left. }
  apply matches_shorter in Hin. rewrite drop_length in Hin. simpl in *. lia.
Qed.

Lemma exec_consumed (x : ascii) (l : string) (r : Regex.t) (s : string) (pos : nat) m :
  exec (Lit (String x l) :: r) s pos = Some m ->
  String.length (after m) < String.length s.
Proof.
  revert pos. induction s as [|y s IH]; intros pos H; cbn [exec] in H.
  - destruct (matchHere _ "") as [[gs rest]|] eqn:E; [|discriminate].
    apply literal_consumed in E. simpl in E. lia.
  - destruct (matchHere _ (String y s)) as [[gs rest]|] eqn:E.
    + injection H as <-. cbn [after]. now apply literal_consumed in E.
    + apply IH in H. simpl. lia.
Qed.

(** The loop over the matches of such a pattern never runs out of fuel:
    any fuel beyond the length of the subject gives the same matches. *)
Lemma execLoop_fuel (x : ascii) (l : string) (r : Regex.t) (f1 f2 : nat)
      (s : string) (pos : nat) :
  String.length s < f1 -> String.length s < f2 ->
  execLoop f1 (Lit (String x l) :: r) s pos = execLoop f2 (Lit (String x l) :: r) s pos.
Proof.
  revert f2 s pos. induction f1 as [|f1 IH]; intros f2 s pos H1 H2; [lia|].
  destruct f2 as [|f2]; [lia|]. cbn [execLoop].
  destruct (exec _ s pos) as [m|] eqn:E; [|reflexivity].
  f_equal. apply exec_consumed in E. apply IH; lia.
Qed.
End RegexFacts.

(** ** Properties of the content parser *)

Module ParserFacts.
Import Js Regex Parser StringFacts RegexFacts.


Section Wrapper.
(** An opening tag that the first part of the wrapper pattern matches
    as a whole, whatever follows it. *)
Variable opening : string.
Hypothesis opening_signature : startsWith opening WRAPPER_SIGNATURE = true.
Hypothesis opening_matched :
  forall tail, matchHere openTagRegex (opening +:+ tail) = Some ([], tail).

Variables before inner rest : string.
Hypothesis before_plain : includes before "<div" = false.
Hypothesis inner_flat : includes inner CLOSE_DIV = false.
Hypothesis rest_plain : includes rest "<div" = false.

Let wrapper : string := opening +:+ inner +:+ CLOSE_DIV +:+ rest.
Let content : string := before +:+ wrapper.








End Wrapper.



End ParserFacts.

(** ** Properties of the upload classifier *)

Module UploadFacts.
Import Upload.

Lemma assoc_In {A} (k : string) (o : list (string * A)) (v : A) :
  Js.assoc k o = Some v -> In (k, v) o.
Proof.
  induction o as [|[k' v'] o IH]; simpl; [discriminate|].
  destruct (String.eqb_spec k k') as [->|_].
  - intros [= ->]. now left.
  - intros H. right. now apply IH.
Qed.

Lemma arrayIncludes_keys {A} (k : string) (o : list (string * A)) :
  Js.arrayIncludes (Js.keys o) k = bool_decide (is_Some (Js.assoc k o)).
Proof.
  induction o as [|[k' v'] o IH]; simpl.
  - reflexivity.
  - destruct (String.eqb_spec k k') as [->|_]; simpl.
    + reflexivity.
    + exact IH.
Qed.

Lemma arrayIncludes_app (a b : list string) (x : string) :
  Js.arrayIncludes (a ++ b) x = Js.arrayIncludes a x || Js.arrayIncludes b x.
Proof. unfold Js.arrayIncludes. apply existsb_app. Qed.

Lemma get_own {A} (k : string) (o : list (string * A)) :
  is_Some (Js.assoc k o) -> is_Some (Js.get k o).
Proof. intros [v H]. unfold Js.get. rewrite H. now eexists. Qed.

Lemma get_None {A} (k : string) (o : list (string * A)) :
  Js.get k o = None <->
  Js.assoc k o = None /\ existsb (String.eqb k) Js.OBJECT_PROTOTYPE = false.
Proof.
  unfold Js.get. destruct (Js.assoc k o); [split; [discriminate|now intros [H _]]|].
  destruct (existsb _ _); split; try discriminate; auto. now intros [_ H].
Qed.

(** A key that opens with a dot is no member of [Object.prototype]. *)
Lemma dotted_own (rest : string) :
  existsb (String.eqb ("." +:+ rest)) Js.OBJECT_PROTOTYPE = false.
Proof. reflexivity. Qed.

(** What the array of MIME types holds, [getFileInfo] finds, whatever the
    categories are. *)
Lemma allowed_mime (type : string) cats :
  Js.arrayIncludes (fst (getAllSupportedTypes cats)) type = true ->
  is_Some (findByMime type cats).
Proof.
  induction cats as [|[category formats] cats IH]; simpl; [discriminate|].
  destruct (getAllSupportedTypes cats) as [ms es] eqn:E. simpl in IH.
  destruct (String.eqb category "by_extension"); simpl; [exact IH|].
  rewrite arrayIncludes_app, arrayIncludes_keys. intros H.
  unfold Js.get. destruct (Js.assoc type formats) as [info|]; [now eexists|].
  destruct (existsb _ _); [now eexists|]. apply IH. exact H.
Qed.

Lemma allowed_extensions (extension : string) :
  Js.arrayIncludes ALLOWED_EXTENSIONS extension
  = bool_decide (is_Some (Js.assoc extension by_extension)).
Proof.
  change ALLOWED_EXTENSIONS with (Js.keys by_extension ++ []).
  rewrite app_nil_r. apply arrayIncludes_keys.
Qed.

Lemma findByMime_own (type : string) (info : FormatInfo) :
  findByMime type SUPPORTED_FORMATS = Some (Js.Own info) ->
  In (type, info) (structured_data ++ documents ++ images).
Proof.
  unfold SUPPORTED_FORMATS. cbn [findByMime String.eqb Ascii.eqb Bool.eqb].
  unfold Js.get.
  destruct (Js.assoc type structured_data) as [i1|] eqn:E1.
  { intros H. injection H as <-. apply in_or_app. left. now apply assoc_In. }
  destruct (existsb _ _); [discriminate|].
  destruct (Js.assoc type documents) as [i2|] eqn:E2.
  { intros H. injection H as <-. apply in_or_app. right. apply in_or_app. left.
    now apply assoc_In. }
  destruct (Js.assoc type images) as [i3|] eqn:E3; [|discriminate].
  intros H. injection H as <-. apply in_or_app. right. apply in_or_app. right.
  now apply assoc_In.
Qed.

Lemma findByMime_None (type : string) :
  findByMime type SUPPORTED_FORMATS = None ->
  Js.assoc type (structured_data ++ documents ++ images) = None
  /\ existsb (String.eqb type) Js.OBJECT_PROTOTYPE = false.
Proof.
  unfold SUPPORTED_FORMATS. cbn [findByMime String.eqb Ascii.eqb Bool.eqb].
  unfold Js.get.
  destruct (Js.assoc type structured_data) as [i1|] eqn:E1; [discriminate|].
  destruct (existsb _ _); [discriminate|].
  destruct (Js.assoc type documents) as [i2|] eqn:E2; [discriminate|].
  destruct (Js.assoc type images) as [i3|] eqn:E3; [discriminate|].
  intros _. split; [|reflexivity].
  assert (Happ : forall (a b : list (string * FormatInfo)),
             Js.assoc type a = None -> Js.assoc type (a ++ b) = Js.assoc type b).
  { intros a b. induction a as [|[k v] a IH]; [reflexivity|]. simpl.
    destruct (String.eqb type k); [discriminate|exact IH]. }
  now rewrite (Happ _ _ E1), (Happ _ _ E2).
Qed.

Lemma findByMime_inherited (type : string) :
  existsb (String.eqb type) Js.OBJECT_PROTOTYPE = true ->
  findByMime type SUPPORTED_FORMATS = Some (Js.Inherited type)
  /\ sizeLimitFor type = NotANumber.
Proof.
  intros H. apply existsb_exists in H as (k & Hk & E). apply String.eqb_eq in E.
  subst k. simpl in Hk.
  repeat (destruct Hk as [<-|Hk]; [split; reflexivity|]). destruct Hk.
Qed.

Lemma limit_without_mime_entry (type : string) :
  findByMime type SUPPORTED_FORMATS = None -> sizeLimitFor type = Bytes defaultLimit.
Proof.
  intros H. pose proof (findByMime_None type H) as [Hown Hproto].
  unfold sizeLimitFor, Js.get. rewrite Hproto.
  destruct (Js.assoc type FILE_SIZE_LIMITS) as [l|] eqn:E; [|reflexivity].
  apply assoc_In in E. simpl in E.
  repeat (destruct E as [E|E]; [inversion E; subst; first [discriminate Hown | reflexivity]|]).
  destruct E.
Qed.

Lemma limit_of_mime_entry (type : string) (info : FormatInfo) :
  findByMime type SUPPORTED_FORMATS = Some (Js.Own info) ->
  sizeLimitFor type = Bytes (ceilingOf type).
Proof.
  intros H. apply findByMime_own in H. simpl in H.
  repeat (destruct H as [H|H]; [inversion H; reflexivity|]).
  destruct H.
Qed.

Lemma registry_named (key : string) (info : FormatInfo) :
  In (key, info) registry -> Js.truthy (name info) = true.
Proof.
  intros H. simpl in H.
  repeat (destruct H as [H|H]; [inversion H; reflexivity|]).
  destruct H.
Qed.

Lemma startsWith_append_both (a x p : string) :
  Js.startsWith (a +:+ x) (a +:+ p) = Js.startsWith x p.
Proof.
  induction a as [|c a IH]; [reflexivity|].
  rewrite !StringFacts.append_cons, StringFacts.startsWith_cons, Ascii.eqb_refl.
  exact IH.
Qed.

(** The text of the refusal: it names the label, the size and the limit. *)
Lemma tooLargeMessage_reports (label sizeMB limitMB : string) :
  Js.includes (tooLargeMessage label sizeMB limitMB) (label +:+ " files.") = true
  /\ Js.includes (tooLargeMessage label sizeMB limitMB)
                 ("**Current size:** " +:+ sizeMB +:+ "MB") = true
  /\ Js.includes (tooLargeMessage label sizeMB limitMB)
                 ("**Maximum allowed:** " +:+ limitMB +:+ "MB") = true.
Proof.
  unfold tooLargeMessage. split; [|split].
  - apply StringFacts.includes_append_r, StringFacts.includes_startsWith.
    rewrite startsWith_append_both. apply StringFacts.startsWith_append.
  - do 4 apply StringFacts.includes_append_r. apply StringFacts.includes_startsWith.
    rewrite !startsWith_append_both. apply StringFacts.startsWith_append.
  - do 8 apply StringFacts.includes_append_r. apply StringFacts.includes_startsWith.
    rewrite !startsWith_append_both. apply StringFacts.startsWith_append.
Qed.

(** One byte over a ceiling of the table is printed as the ceiling. *)
Lemma ceiling_printed (key : string) :
  toFixedMB 0 (ceilingOf key) = Js.digits (ceilingOf key / MB)
  /\ toFixedMB 2 (ceilingOf key + 1) = Js.digits (ceilingOf key / MB) +:+ ".00"
  /\ (ceilingOf key mod MB = 0)%N.
Proof.
  unfold ceilingOf.
  destruct (Js.assoc key FILE_SIZE_LIMITS) as [l|] eqn:E.
  - apply assoc_In in E. simpl in E.
    repeat (destruct E as [E|E]; [inversion E; subst; vm_compute; repeat split|]).
    destruct E.
  - vm_compute. repeat split.
Qed.

Section Locale.
Variable toLowerCase toUpperCase : string -> string.

(** The test that opens [validateFile] fails exactly when [getFileInfo]
    finds nothing: the two [includes] add nothing to it. *)
Lemma unsupported_test (file : File.t) :
  negb (bool_decide (is_Some (getFileInfo toLowerCase file)))
  && negb (Js.arrayIncludes ALLOWED_MIME_TYPES (File.type file))
  && negb (Js.arrayIncludes ALLOWED_EXTENSIONS (extensionOf toLowerCase (File.name file)))
  = negb (bool_decide (is_Some (getFileInfo toLowerCase file))).
Proof using Type.
  destruct (getFileInfo toLowerCase file) as [found|] eqn:E; [reflexivity|].
  unfold getFileInfo in E.
  destruct (findByMime (File.type file) SUPPORTED_FORMATS) as [found|] eqn:Em;
    [discriminate|].
  destruct (Js.arrayIncludes ALLOWED_MIME_TYPES (File.type file)) eqn:Ea.
  { apply allowed_mime in Ea. rewrite Em in Ea. now destruct Ea. }
  rewrite allowed_extensions.
  apply get_None in E as [E _]. now rewrite E.
Qed.

Lemma validateFile_unresolved (file : File.t) :
  getFileInfo toLowerCase file = None ->
  validateFile toLowerCase toUpperCase file = Some unsupportedMessage.
Proof using Type.
  intros H. unfold validateFile. cbv zeta. rewrite unsupported_test, H.
  reflexivity.
Qed.

Lemma validateFile_resolved (file : File.t) (found : Js.Member FormatInfo) :
  getFileInfo toLowerCase file = Some found ->
  validateFile toLowerCase toUpperCase file =
    match sizeLimitFor (File.type file) with
    | Bytes sizeLimit =>
        if (sizeLimit <? File.size file)%N
        then Some (tooLargeMessage
                     (labelOf toUpperCase (Some found)
                              (extensionOf toLowerCase (File.name file)))
                     (toFixedMB 2 (File.size file)) (toFixedMB 0 sizeLimit))
        else None
    | NotANumber => None
    end.
Proof using Type.
  intros H. unfold validateFile. cbv zeta. rewrite unsupported_test, H.
  reflexivity.
Qed.

Lemma ceiling_of_resolved (file : File.t) (key : string) (info : FormatInfo) :
  resolvesTo toLowerCase file key info ->
  sizeLimitFor (File.type file) = Bytes (ceilingOf key).
Proof using Type.
  intros [[Hm ->]|(Hm & -> & He)].
  - exact (limit_of_mime_entry _ _ Hm).
  - rewrite (limit_without_mime_entry _ Hm). unfold ceilingOf.
    unfold Js.get in He.
    destruct (Js.assoc (extensionOf toLowerCase (File.name file)) by_extension)
      as [i|] eqn:E; [|destruct (existsb _ _); discriminate].
    apply assoc_In in E. simpl in E.
    repeat (destruct E as [E|E];
            [apply pair_equal_spec in E as [Hk _]; rewrite <- Hk; reflexivity|]).
    destruct E.
Qed.

Lemma getFileInfo_resolved (file : File.t) (key : string) (info : FormatInfo) :
  resolvesTo toLowerCase file key info ->
  getFileInfo toLowerCase file = Some (Js.Own info).
Proof using Type.
  unfold getFileInfo. intros [[-> _]|(-> & -> & He)]; [reflexivity|exact He].
Qed.

Lemma resolved_in_registry (file : File.t) (key : string) (info : FormatInfo) :
  resolvesTo toLowerCase file key info -> In (key, info) registry.
Proof using Type.
  intros [[Hm ->]|(_ & _ & He)].
  - apply findByMime_own in Hm. unfold registry, SUPPORTED_FORMATS.
    cbn [flat_map snd]. rewrite app_nil_r, !app_assoc. apply in_or_app. left.
    now rewrite <- app_assoc.
  - unfold Js.get in He. destruct (Js.assoc key by_extension) as [i|] eqn:E;
      [|destruct (existsb _ _); discriminate].
    injection He as ->. apply assoc_In in E. unfold registry, SUPPORTED_FORMATS.
    cbn [flat_map snd]. rewrite app_nil_r, !app_assoc. apply in_or_app. now right.
Qed.

(** On a string of ASCII characters the conversion to lower case is the
    mapping of the letters [A] to [Z]. *)
Hypothesis toLowerCase_ascii :
  forall s, Js.isAscii s = true -> toLowerCase s = Js.asciiLowerCase s.

Lemma registry_reachable (key : string) (info : FormatInfo) :
  In (key, info) registry -> exists file, resolvesTo toLowerCase file key info.
Proof using toLowerCase_ascii.
  intros H. simpl in H.
  repeat (destruct H as [H|H];
          [inversion H; subst;
           match goal with
           | |- exists file, resolvesTo _ file ?k _ =>
               first [ exists (File.mk "upload" k 0); left; split; reflexivity
                     | exists (File.mk ("upload" +:+ k) "" 0); right;
                       split; [reflexivity|];
                       unfold extensionOf; cbn [File.name];
                       match goal with
                       | |- context [Js.pop (Js.split ?c ?n)] =>
                           let seg := eval vm_compute in (Js.pop (Js.split c n)) in
                           change (Js.pop (Js.split c n)) with seg
                       end;
                       cbv iota beta;
                       rewrite toLowerCase_ascii by reflexivity;
                       split; reflexivity ]
           end
          |]).
  destruct H.
Qed.

(** C6.  For every entry of the registry and every file that resolves to it:
    one byte under the entry's ceiling (its override in [FILE_SIZE_LIMITS],
    or the default) [validateFile] accepts the file, one byte over it
    returns the file-too-large message, whose text holds the name of the
    entry, the size of the file and the ceiling, both in MB: the size is
    printed as the ceiling with two decimals; every entry is resolved by
    some file.  A 150MB [data.csv] of type [text/csv] is refused with a
    limit of 100MB. *)
Theorem size_ceiling_table :
  (forall (key : string) (info : FormatInfo),
      In (key, info) registry ->
      (exists file, resolvesTo toLowerCase file key info) /\
      forall file : File.t,
        resolvesTo toLowerCase file key info ->
        ((File.size file + 1 = ceilingOf key)%N ->
         validateFile toLowerCase toUpperCase file = None) /\
        ((File.size file = ceilingOf key + 1)%N ->
         exists text,
           validateFile toLowerCase toUpperCase file = Some text /\
           text <> unsupportedMessage /\
           text = tooLargeMessage (name info) (toFixedMB 2 (File.size file))
                                  (toFixedMB 0 (ceilingOf key)) /\
           Js.includes text (name info +:+ " files.") = true /\
           Js.includes text ("**Current size:** " +:+ Js.digits (ceilingOf key / MB)
                             +:+ ".00" +:+ "MB") = true /\
           Js.includes text ("**Maximum allowed:** " +:+ Js.digits (ceilingOf key / MB)
                             +:+ "MB") = true))
  /\ validateFile toLowerCase toUpperCase (File.mk "data.csv" "text/csv" (150 * 1024 * 1024))
     = Some (tooLargeMessage "CSV Files" "150.00" "100")
  /\ Js.includes (tooLargeMessage "CSV Files" "150.00" "100")
                 "**Maximum allowed:** 100MB" = true.
Proof using toLowerCase_ascii.
  split; [|split].
  - intros key info Hin. split; [exact (registry_reachable key info Hin)|].
    intros file Hres.
    rewrite (validateFile_resolved file _ (getFileInfo_resolved file key info Hres)).
    rewrite (ceiling_of_resolved file key info Hres).
    unfold labelOf. rewrite (registry_named key info Hin).
    split; intros Hsize.
    + destruct (N.ltb_spec (ceilingOf key) (File.size file)); [lia|reflexivity].
    + destruct (N.ltb_spec (ceilingOf key) (File.size file)); [|lia].
      eexists. split; [reflexivity|]. split.
      * unfold tooLargeMessage, unsupportedMessage. simpl. discriminate.
      * split; [reflexivity|].
        destruct (tooLargeMessage_reports (name info) (toFixedMB 2 (File.size file))
                    (toFixedMB 0 (ceilingOf key))) as (H1 & H2 & H3).
        destruct (ceiling_printed key) as (P0 & P2 & _).
        rewrite Hsize, P2, P0 in *.
        rewrite StringFacts.append_assoc in H2. now split; [|split].
  - rewrite (validateFile_resolved (File.mk "data.csv" "text/csv" (150 * 1024 * 1024))
               (Js.Own (byMime ".csv" "CSV Files" 1)) eq_refl).
    reflexivity.
  - reflexivity.
Qed.
End Locale.

Lemma size_ceiling_table_witness :
  In (".parquet", byExt "Parquet Files" 1) registry /\
  resolvesTo Js.asciiLowerCase (File.mk "Sales.PARQUET" "" 52428801) ".parquet"
             (byExt "Parquet Files" 1) /\
  validateFile Js.asciiLowerCase Js.asciiUpperCase (File.mk "Sales.PARQUET" "" 52428801)
  = Some (tooLargeMessage "Parquet Files" "50.00" "50").
Proof.
  assert (Hin : In (".parquet", byExt "Parquet Files" 1) registry)
    by (vm_compute; tauto).
  assert (Hres : resolvesTo Js.asciiLowerCase (File.mk "Sales.PARQUET" "" 52428801)
                            ".parquet" (byExt "Parquet Files" 1))
    by (right; repeat split; reflexivity).
  split; [exact Hin|]. split; [exact Hres|].
  destruct (proj2 (proj2 (proj1 (size_ceiling_table Js.asciiLowerCase Js.asciiUpperCase
                                   (fun s _ => eq_refl)) _ _ Hin) _ Hres) eq_refl)
    as (text & Hv & _ & Ht & _).
  rewrite Hv, Ht. reflexivity.
Defined.

(** C9 at a MIME type that names a member of [Object.prototype].  The
    registry has no entry for the type [constructor] and none for the
    extension [.bin], and the array of allowed MIME types, made of the
    registry's own keys, does not hold the type; yet [file.type in
    formats] is true, [getFileInfo] returns the inherited member, and
    [validateFile] accepts the file, at 300MB: an inherited limit is not a
    number.  The same file under the type [application/octet-stream] is
    refused as unsupported. *)
Theorem inherited_type_accepted :
  let file := File.mk "notes.bin" "constructor" (300 * 1024 * 1024) in
  let sibling := File.mk "notes.bin" "application/octet-stream" (300 * 1024 * 1024) in
  extensionOf Js.asciiLowerCase (File.name file) = ".bin"
  /\ Js.assoc (File.type file) registry = None
  /\ Js.assoc (extensionOf Js.asciiLowerCase (File.name file)) registry = None
  /\ Js.arrayIncludes ALLOWED_MIME_TYPES (File.type file) = false
  /\ getFileInfo Js.asciiLowerCase file = Some (Js.Inherited "constructor")
  /\ validateFile Js.asciiLowerCase Js.asciiUpperCase file = None
  /\ isFileSupported Js.asciiLowerCase file = true
  /\ validateFile Js.asciiLowerCase Js.asciiUpperCase sibling = Some unsupportedMessage.
Proof. vm_compute. repeat split. Qed.
End UploadFacts.

(** ** Properties of the conversation store *)

Module StoreFacts.
Import ChatStore Lifecycle.

Lemma lastN_map {A B} (f : A -> B) (n : nat) (a : list A) :
  lastN n (map f a) = map f (lastN n a).
Proof. unfold lastN. now rewrite length_map, skipn_map. Qed.

Lemma lastN_length {A} (n : nat) (a : list A) :
  length (lastN n a) = Nat.min n (length a).
Proof. unfold lastN. rewrite length_skipn. lia. Qed.




Section Quota.
Variable fits : gmap string Storage.Stored -> bool.

Lemma saveMessages_accepted (msgs : list Message.t) (st : Storage.t) :
  fits (<[Storage.CHAT_HISTORY := persistedForm msgs]> (Storage.items st)) = true ->
  saveMessages fits msgs st
  = Storage.mk (<[Storage.CHAT_HISTORY := persistedForm msgs]> (Storage.items st))
               (Storage.attempts st ++ [(Storage.CHAT_HISTORY, persistedForm msgs, true)]).
Proof. intros H. unfold saveMessages, Storage.setItem. now rewrite H. Qed.

Lemma saveMessages_rejected (msgs : list Message.t) (st : Storage.t) :
  fits (<[Storage.CHAT_HISTORY := persistedForm msgs]> (Storage.items st)) = false ->
  saveMessages fits msgs st
  = Storage.mk (delete Storage.CHAT_HISTORY (Storage.items st))
               (Storage.attempts st ++ [(Storage.CHAT_HISTORY, persistedForm msgs, false)]).
Proof. intros H. unfold saveMessages, Storage.setItem. now rewrite H. Qed.


End Quota.



(** C3 at a full storage.  The sidebar polls while the storage refuses
    every write: after the write of the index it tries the current
    session alone, and the exception of that second [setItem], which
    nothing catches, leaves the updater; the stored index and the stored
    messages stay as they were.  A rename, which writes the index with no
    [try] at all, ends the same way.  The chat area, on a storage with
    room for one message, is refused the write of two: it does not try a
    smaller list, which would fit, it removes the stored list, and the
    session index stays. *)
Theorem quota_failure_unhandled :
  let poll := Sidebar.checkForNewMessages Sample.full 5000 Sample.sidebar
                Sample.salesStorage in
  let editing := Sidebar.setRenameValue "Q3 report"
                   (Sidebar.handleRenameStart Sample.salesSession Sample.sidebar) in
  let rename := Sidebar.handleRenameSubmit Sample.full "session-1" editing
                  Sample.salesStorage in
  let saved := saveMessages Sample.tight [Sample.question; Sample.followUp]
                 Sample.salesStorage in
  Sidebar.historyOf poll = None
  /\ Storage.getItem Storage.CHAT_SESSIONS (Sidebar.storageOf poll)
     = Some (Storage.Sessions [Sample.salesSession])
  /\ Storage.getItem Storage.CHAT_HISTORY (Sidebar.storageOf poll)
     = Some (Storage.Messages [Sample.question])
  /\ Sidebar.historyOf rename = None
  /\ Storage.getItem Storage.CHAT_HISTORY saved = None
  /\ Sample.tight (<[Storage.CHAT_HISTORY := Storage.Messages [Sample.followUp]]>
                     (Storage.items Sample.salesStorage)) = true
  /\ Storage.getItem Storage.CHAT_SESSIONS saved
     = Some (Storage.Sessions [Sample.salesSession]).
Proof. vm_compute. repeat split. Qed.

(** C2 at a JPEG payload.  The reply inlines a JPEG as a Base64 data URL.
    The save effect stores its content as it is, payload included, and the
    sidebar copies it into the session index unchanged; the PNG payload of
    the sibling reply is replaced by the placeholder.  The pattern of the
    sidebar does remove the JPEG payload, from a message whose type is the
    one its guard asks for, which no message of the chat area has. *)
Theorem jpeg_payload_reaches_storage :
  let st := saveMessages Sample.roomy [Sample.question; Sample.jpegReply; Sample.pngReply]
                         Sample.emptyStorage in
  let poll := Sidebar.checkForNewMessages Sample.roomy 2000
                (Sidebar.mkState [] None None EmptyString) st in
  Js.includes (Message.content Sample.jpegReply) "data:image/jpeg;base64,/9j/4AAQSkZJRg==" = true
  /\ Storage.getItem Storage.CHAT_HISTORY st
     = Some (Storage.Messages
               [Sample.question; Sample.jpegReply;
                Message.mk 2001 "assistant"
                  ("<img src=" +:+ Regex.q +:+ PLACEHOLDER +:+ Regex.q +:+ " />") "9:01 AM"])
  /\ option_map (map (fun chat => map Message.content (Session.messages chat)))
                (Sidebar.historyOf poll)
     = Some [[ "Plot the sales"; Message.content Sample.jpegReply;
               "<img src=" +:+ Regex.q +:+ PLACEHOLDER +:+ Regex.q +:+ " />" ]]
  /\ Message.content
       (Sidebar.cleanMessage
          (Message.mk 1001 "ai" (Message.content Sample.jpegReply) "9:01 AM"))
     = "<img src=" +:+ Regex.q +:+ "[IMAGE_REMOVED]" +:+ Regex.q +:+ " />".
Proof. vm_compute. repeat split. Qed.

(** C8 at a renamed session.  The user renames the session of the sidebar;
    the next poll of [checkForNewMessages], with no message added, puts the
    title derived from the first user message back.  And when the session
    grows past ten messages, the first user message leaves the stored
    window and the poll derives the title from another message. *)
Theorem poll_overwrites_title :
  let editing := Sidebar.setRenameValue "Q3 report"
                   (Sidebar.handleRenameStart Sample.salesSession Sample.sidebar) in
  let renamed := Sidebar.handleRenameSubmit Sample.roomy "session-1" editing
                   Sample.salesStorage in
  let polled :=
    match renamed with
    | Sidebar.Done s st => Sidebar.checkForNewMessages Sample.roomy 5000 s st
    | Sidebar.Uncaught st => Sidebar.Uncaught st
    end in
  let grown :=
    Sidebar.checkForNewMessages Sample.roomy 9000 Sample.sidebar
      (saveMessages Sample.roomy Sample.longSession Sample.salesStorage) in
  option_map (map Session.title) (Sidebar.historyOf renamed) = Some ["Q3 report"]
  /\ option_map (map Session.title) (Sidebar.historyOf polled) = Some ["Plot the sales"]
  /\ option_map (map Session.title) (Sidebar.historyOf grown) = Some ["Now by region"].
Proof. vm_compute. repeat split. Qed.

(** The hook does what the sidebar misses: once the title of every chat
    differs from the placeholder, [addMessageToChat] leaves the titles
    alone. *)
Lemma hook_title_kept (id : string) (message : Hook.Message) (now : Z)
      (chats : list Hook.ChatHistory) :
  Forall (fun chat => Hook.title chat <> Hook.NEW_CHAT) chats ->
  map Hook.title (Hook.addMessageToChat id message now chats) = map Hook.title chats.
Proof.
  intros H. unfold Hook.addMessageToChat. rewrite map_map.
  apply map_ext_in. intros chat Hin. rewrite Forall_forall in H.
  destruct (String.eqb (Hook.chatId chat) id); [|reflexivity]. simpl.
  destruct (String.eqb_spec (Hook.title chat) Hook.NEW_CHAT) as [E|_]; [|reflexivity].
  apply list_elem_of_In in Hin. now apply H in Hin.
Qed.
End StoreFacts.

(** ** Properties of the request lifecycle *)

Module LifecycleFacts.
Import Lifecycle.

Section Runtime.
Variable fits : gmap string Storage.Stored -> bool.

Lemma step_aborted (w : World) (e : Event) (c : nat) :
  c ∈ aborted w -> c ∈ aborted (step fits w e).
Proof.
  intros Hc. destruct e as [msg fileId now clock|c' how now clock|i now clock|m| |]; simpl.
  - unfold handleSendMessage.
    destruct (isTyping w), (currentAbortController w); simpl;
      try (destruct (negb (Js.truthy (Js.trim msg))); simpl); set_solver.
  - unfold settle. destruct (existsb _ _); [|exact Hc].
    unfold finish. destruct how; simpl;
      repeat (case_bool_decide; simpl); try exact Hc; set_solver.
  - unfold fire. destruct (nth_error _ _) as [[stage|]|]; simpl; exact Hc.
  - exact Hc.
  - destruct (currentAbortController w); simpl; set_solver.
  - unfold loadChatHistory.
    destruct (Storage.getItem _ _) as [[| |]|]; try destruct (Js.truthy _); simpl; exact Hc.
Qed.

Lemma run_aborted (es : list Event) (w : World) (c : nat) :
  c ∈ aborted w -> c ∈ aborted (run fits w es).
Proof.
  revert w. induction es as [|e es IH]; intros w Hc; simpl; [exact Hc|].
  apply IH, step_aborted, Hc.
Qed.

(** What is left of [settle] when the signal of [c] is aborted: the
    exchange leaves [inflight], and nothing else changes. *)
Lemma settle_aborted (c : nat) (how : Settlement) (now : Z) (clock : string) (w : World) :
  c ∈ aborted w ->
  settle fits c how now clock w
  = mkWorld (messages w) (inputValue w) (isTyping w) (typingStage w)
            (currentAbortController w) (controllers w) (aborted w)
            (List.filter (fun r => negb (Nat.eqb (fst r) c)) (inflight w))
            (timers w) (storage w).
Proof.
  intros Hc. unfold settle.
  destruct (existsb _ _) eqn:E.
  - unfold finish.
    destruct how; simpl; rewrite !(bool_decide_eq_true_2 (c ∈ aborted w) Hc);
      simpl; rewrite ?(bool_decide_eq_true_2 (c ∈ aborted w) Hc); reflexivity.
  - destruct w as [ms iv ty stg cur n ab infl tms sto]; simpl in *. f_equal.
    induction infl as [|r infl IH]; [reflexivity|].
    simpl in E. apply orb_false_elim in E as [E1 E2].
    simpl. rewrite E1. simpl. f_equal. apply IH, E2.
Qed.

Lemma cancel_marks (w : World) (e : Event) (c : nat) :
  isTyping w = true -> currentAbortController w = Some c -> cancels e = true ->
  c ∈ aborted (step fits w e).
Proof.
  intros Ht Hcur He. destruct e; try discriminate He; simpl.
  - unfold handleSendMessage. rewrite Ht, Hcur. simpl. set_solver.
  - rewrite Hcur. set_solver.
Qed.

(** C1.  A request is awaited under controller [c]; it is canceled (by the
    send button or by a new chat); whatever happens next, when the
    exchange settles, by a response or by a failure, the message list and
    the storage stay as they are at that moment, no fallback message is
    scheduled and the typing state is not touched.  When the exchange
    settles right after the cancellation, the message list is the one the
    cancellation left. *)
Theorem canceled_settlement_discarded
        (w : World) (c : nat) (cancel : Event) (es : list Event)
        (how : Settlement) (now : Z) (clock : string) :
  isTyping w = true -> currentAbortController w = Some c -> cancels cancel = true ->
  let w1 := step fits w cancel in
  let w2 := run fits w1 es in
  let w3 := step fits w2 (Settle c how now clock) in
  c ∈ aborted w1
  /\ messages w3 = messages w2
  /\ storage w3 = storage w2
  /\ timers w3 = timers w2
  /\ isTyping w3 = isTyping w2
  /\ currentAbortController w3 = currentAbortController w2
  /\ (es = [] -> messages w3 = messages w1 /\ storage w3 = storage w1).
Proof.
  intros Ht Hcur He w1 w2 w3.
  assert (H1 : c ∈ aborted w1) by (apply cancel_marks; assumption).
  assert (H2 : c ∈ aborted w2) by (apply run_aborted, H1).
  subst w3. simpl. rewrite (settle_aborted c how now clock w2 H2). simpl.
  split; [exact H1|].
  do 5 (split; [reflexivity|]).
  intros ->. split; reflexivity.
Qed.

(** C5.  When a request is awaited, [handleSendMessage] aborts its
    controller and stops: the message list, the exchanges in flight, the
    timers, the number of controllers and the storage are unchanged, and
    the typing state and the current controller are cleared. *)
Theorem send_while_active_cancels
        (w : World) (c : nat) (msg : string) (fileId : option string)
        (now : Z) (clock : string) :
  isTyping w = true -> currentAbortController w = Some c ->
  let w' := handleSendMessage fits msg fileId now clock w in
  c ∈ aborted w'
  /\ messages w' = messages w
  /\ inflight w' = inflight w
  /\ controllers w' = controllers w
  /\ timers w' = timers w
  /\ storage w' = storage w
  /\ isTyping w' = false
  /\ currentAbortController w' = None.
Proof.
  intros Ht Hcur. unfold handleSendMessage. rewrite Ht, Hcur. simpl.
  repeat split. set_solver.
Qed.

(** C10.  With no request awaited, [handleSendMessage] on a message whose
    [trim()] is empty returns at once: the whole state, storage included,
    is the one before the call. *)
Theorem blank_send_is_noop
        (w : World) (msg : string) (fileId : option string) (now : Z) (clock : string) :
  isTyping w = false -> Js.trim msg = EmptyString ->
  handleSendMessage fits msg fileId now clock w = w.
Proof.
  intros Ht Hm. unfold handleSendMessage. rewrite Ht, Hm. reflexivity.
Qed.
End Runtime.

(** The exchange that is not canceled, for comparison: the answer is appended
    after the question and the typing state is cleared; a failure schedules
    the fallback message, which the timer appends. *)
Lemma round_trip :
  let answered := step Sample.roomy Sample.awaiting
                       (Settle 0 (Resolved "52,000 on average.") 2000 "9:01 AM") in
  let failed := run Sample.roomy Sample.awaiting
                    [Settle 0 Rejected 2000 "9:01 AM"; Fire 3 3000 "9:01 AM"] in
  map Message.content (messages answered)
  = ["What is the average salary?"; "52,000 on average."]
  /\ isTyping answered = false
  /\ Storage.getItem Storage.CHAT_HISTORY (storage answered)
     = Some (Storage.Messages (messages answered))
  /\ map Message.content (messages failed) = ["What is the average salary?"; FALLBACK].
Proof. vm_compute. repeat split. Qed.

Lemma canceled_settlement_discarded_witness :
  let stop := Send "" None 2000 "9:01 AM" in
  let later := [Send "Plot it" None 3000 "9:02 AM"] in
  let late := Settle 0 (Resolved "The average salary is 52,000.") 4000 "9:03 AM" in
  isTyping Sample.awaiting = true
  /\ messages (step Sample.roomy (run Sample.roomy (step Sample.roomy Sample.awaiting stop) later) late)
     = messages (run Sample.roomy (step Sample.roomy Sample.awaiting stop) later).
Proof.
  split; [reflexivity|].
  exact (proj1 (proj2 (canceled_settlement_discarded
                         Sample.roomy Sample.awaiting 0 (Send "" None 2000 "9:01 AM")
                         [Send "Plot it" None 3000 "9:02 AM"]
                         (Resolved "The average salary is 52,000.") 4000 "9:03 AM"
                         eq_refl eq_refl eq_refl))).
Defined.

Lemma send_while_active_cancels_witness :
  currentAbortController Sample.awaiting = Some 0
  /\ inflight (handleSendMessage Sample.roomy "Plot it" None 2000 "9:01 AM" Sample.awaiting)
     = inflight Sample.awaiting.
Proof.
  split; [reflexivity|].
  exact (proj1 (proj2 (proj2 (send_while_active_cancels
                                Sample.roomy Sample.awaiting 0 "Plot it" None 2000 "9:01 AM"
                                eq_refl eq_refl)))).
Defined.

Lemma blank_send_is_noop_witness :
  handleSendMessage Sample.roomy Sample.blanks None 1000 "9:00 AM" Sample.idle
  = Sample.idle.
Proof.
  exact (blank_send_is_noop Sample.roomy Sample.idle Sample.blanks None 1000 "9:00 AM"
                            eq_refl eq_refl).
Defined.
End LifecycleFacts.

(** ** Facts about the loops over the matches of a pattern *)

Module RewriteFacts.
Import Js Regex Rewrite StringFacts RegexFacts.

Lemma take_drop (n : nat) (s : string) : take n s +:+ drop n s = s.
Proof.
  revert s. induction n as [|n IH]; intros s; [reflexivity|].
  destruct s as [|x s]; [reflexivity|]. simpl. rewrite append_cons. now f_equal.
Qed.

Lemma take_length (n : nat) (s : string) :
  n <= String.length s -> String.length (take n s) = n.
Proof.
  revert s. induction n as [|n IH]; intros s H; [reflexivity|].
  destruct s as [|x s]; simpl in *; [lia|]. f_equal. apply IH. lia.
Qed.

Lemma drop_drop (n m : nat) (s : string) : drop n (drop m s) = drop (m + n) s.
Proof.
  revert s. induction m as [|m IH]; intros s; [reflexivity|].
  destruct s as [|x s]; simpl; [now destruct n|apply IH].
Qed.

Lemma drop_all (n : nat) (s : string) : String.length s <= n -> drop n s = EmptyString.
Proof.
  revert s. induction n as [|n IH]; intros s H.
  - destruct s; [reflexivity|simpl in H; lia].
  - destruct s as [|x s]; [reflexivity|]. simpl in *. apply IH. lia.
Qed.

Lemma append_nil_r (a : string) : a +:+ "" = a.
Proof. induction a as [|x a IH]; [reflexivity|]. rewrite append_cons. now f_equal. Qed.

Lemma append_inv_head (a b c : string) : a +:+ b = a +:+ c -> b = c.
Proof.
  induction a as [|x a IH]; [trivial|]. rewrite !append_cons. intros [= H]. auto.
Qed.

(** What is left after a match is a suffix of the subject. *)
Lemma matches_suffix (r : Regex.t) (s : string) (m : list (option string) * string) :
  In m (matches r s) -> exists mid, s = mid +:+ snd m.
Proof.
  revert s m. induction r as [|a r IH]; intros s m H.
  - destruct H as [<-|[]]. now exists EmptyString.
  - destruct a as [l|cap greedy min cls|greedy min unit].
    + rewrite matches_lit in H. destruct (startsWith s l); [|destruct H].
      apply IH in H as [mid H]. exists (take (String.length l) s +:+ mid).
      rewrite append_assoc, <- H. symmetry. apply take_drop.
    + rewrite matches_rep in H. apply in_flat_map in H as (n & _ & H).
      apply in_map_iff in H as (m' & <- & H). apply IH in H as [mid H].
      exists (take n s +:+ mid). cbn [snd].
      rewrite append_assoc, <- H. symmetry. apply take_drop.
    + cbn [matches] in H. apply in_flat_map in H as (n & _ & H).
      apply IH in H as [mid H]. exists (take n s +:+ mid).
      rewrite append_assoc, <- H. symmetry. apply take_drop.
Qed.

Lemma matchHere_suffix (r : Regex.t) (s : string) gs rest :
  matchHere r s = Some (gs, rest) ->
  exists mid, s = mid +:+ rest /\ String.length mid = String.length s - String.length rest.
Proof.
  unfold matchHere. intros H.
  assert (Hin : In (gs, rest) (matches r s)).
  { destruct (matches r s) as [|m ms]; [discriminate|]. injection H as ->. now left. }
  apply matches_suffix in Hin as [mid Hmid]. exists mid. split; [exact Hmid|].
  cbn [snd] in Hmid. rewrite Hmid, length_append. lia.
Qed.

(** [exec] returns the leftmost match: nothing matches before its index. *)
Lemma exec_spec (r : Regex.t) (s : string) (pos : nat) (m : result) :
  exec r s pos = Some m ->
  exists k,
    index m = pos + k /\ k <= String.length s
    /\ matchHere r (drop k s) = Some (groups m, after m)
    /\ size m = String.length (drop k s) - String.length (after m)
    /\ forall j, j < k -> matchHere r (drop j s) = None.
Proof.
  revert pos. induction s as [|x s IH]; intros pos H; cbn [exec] in H.
  - destruct (matchHere r "") as [[gs rest]|] eqn:E; [|discriminate].
    injection H as <-. exists 0. cbn. rewrite Nat.add_0_r. repeat split; trivial. lia.
  - destruct (matchHere r (String x s)) as [[gs rest]|] eqn:E.
    + injection H as <-. exists 0. cbn [index groups after size drop].
      rewrite Nat.add_0_r. repeat split; trivial; [simpl|]; lia.
    + apply IH in H as (k & Hi & Hk & Hm & Hs & Hnone). exists (S k).
      cbn [drop]. repeat split; trivial; [lia|simpl; lia|].
      intros [|j] Hj; [exact E|]. cbn [drop]. apply Hnone. lia.
Qed.

Lemma exec_none_spec (r : Regex.t) (s : string) (pos : nat) :
  exec r s pos = None -> forall j, matchHere r (drop j s) = None.
Proof.
  revert pos. induction s as [|x s IH]; intros pos H j; cbn [exec] in H.
  - destruct (matchHere r "") as [[gs rest]|] eqn:E; [discriminate|]. now destruct j.
  - destruct (matchHere r (String x s)) as [[gs rest]|] eqn:E; [discriminate|].
    destruct j as [|j]; [exact E|]. cbn [drop]. now apply (IH (S pos)).
Qed.

Lemma exec_none_intro (r : Regex.t) (s : string) (pos : nat) :
  (forall j, matchHere r (drop j s) = None) -> exec r s pos = None.
Proof.
  revert pos. induction s as [|x s IH]; intros pos H; cbn [exec].
  - pose proof (H 0) as H0. cbn [drop] in H0. now rewrite H0.
  - pose proof (H 0) as H0. cbn [drop] in H0. rewrite H0.
    apply IH. intros j. apply (H (S j)).
Qed.

Lemma exec_pos (r : Regex.t) (s : string) (pos : nat) :
  exec r s pos = option_map (reindex pos) (exec r s 0).
Proof.
  revert pos. induction s as [|x s IH]; intros pos; cbn [exec].
  - destruct (matchHere r "") as [[gs rest]|]; [|reflexivity].
    cbn. unfold reindex. cbn. now rewrite Nat.add_0_r.
  - destruct (matchHere r (String x s)) as [[gs rest]|].
    + cbn. unfold reindex. cbn. now rewrite Nat.add_0_r.
    + rewrite (IH (S pos)), (IH 1). destruct (exec r s 0) as [m|]; [|reflexivity].
      cbn. unfold reindex. cbn. f_equal. f_equal. lia.
Qed.

(** What the match object says about the subject [s] searched from 0. *)
Lemma exec_parts (r : Regex.t) (s : string) (m : result) :
  exec r s 0 = Some m ->
  index m + size m <= String.length s
  /\ after m = drop (index m + size m) s
  /\ s = take (index m) s +:+ take (size m) (drop (index m) s) +:+ after m.
Proof.
  intros H. apply exec_spec in H as (k & Hi & Hk & Hm & Hs & _). cbn in Hi. subst k.
  apply matchHere_suffix in Hm as (mid & Hmid & Hlen). rewrite <- Hs in Hlen.
  assert (Hafter : after m = drop (size m) (drop (index m) s)).
  { rewrite Hmid, <- Hlen. symmetry. apply drop_append. }
  split; [|split].
  - rewrite drop_length in Hs. lia.
  - now rewrite <- drop_drop.
  - rewrite Hafter. now rewrite !take_drop.
Qed.

Lemma join_single (x : string) : join [Some x] = x.
Proof. cbn. apply append_nil_r. Qed.

Lemma join_cons (x : string) (ps : list (option string)) :
  join (Some x :: ps) = x +:+ join ps.
Proof. reflexivity. Qed.

(** The pieces of [replaceAll], joined, are [replaceLoop] on the rest of the
    subject. *)
Lemma pieces_replace (r : Regex.t) (subject by_ : string) (fuel last : nat) :
  last <= String.length subject ->
  join (pieces subject last (execLoop fuel r (drop last subject) last)
               (fun _ => [Some by_]))
  = replaceLoop fuel r (drop last subject) by_.
Proof.
  revert last. induction fuel as [|fuel IH]; intros last Hlast.
  - cbn [execLoop pieces replaceLoop]. apply join_single.
  - cbn [execLoop replaceLoop]. rewrite exec_pos.
    destruct (exec r (drop last subject) 0) as [m|] eqn:E; cbn [option_map].
    + apply exec_parts in E as (Hle & Hafter & _). rewrite drop_length in Hle.
      cbn [reindex index size after pieces app]. rewrite !join_cons.
      unfold slice. replace (last + index m - last) with (index m) by lia.
      f_equal. f_equal.
      rewrite Hafter at 1 2. rewrite drop_drop.
      replace (last + index m + size m) with (last + (index m + size m)) by lia.
      apply IH. lia.
    + cbn [pieces]. apply join_single.
Qed.

Lemma replaceAll_loop (r : Regex.t) (subject by_ : string) :
  replaceAll r subject by_ = replaceLoop (S (String.length subject)) r subject by_.
Proof.
  unfold replaceAll, execAll.
  exact (pieces_replace r subject by_ (S (String.length subject)) 0 (Nat.le_0_l _)).
Qed.

(** The pieces of [splitKeeping], joined, are the subject again. *)
Lemma pieces_keep (r : Regex.t) (subject : string) (fuel last : nat) :
  last <= String.length subject ->
  join (pieces subject last (execLoop fuel r (drop last subject) last)
               (fun m => [Some (slice subject (index m) (index m + size m))]))
  = drop last subject.
Proof.
  revert last. induction fuel as [|fuel IH]; intros last Hlast.
  - cbn [execLoop pieces]. apply join_single.
  - cbn [execLoop]. rewrite exec_pos.
    destruct (exec r (drop last subject) 0) as [m|] eqn:E; cbn [option_map].
    + apply exec_parts in E as (Hle & Hafter & Hs). rewrite drop_length in Hle.
      cbn [reindex index size after pieces app]. rewrite !join_cons.
      unfold slice. replace (last + index m - last) with (index m) by lia.
      replace (last + index m + size m - (last + index m)) with (size m) by lia.
      etransitivity; [|symmetry; exact Hs]. f_equal.
      rewrite <- (drop_drop (index m) last). f_equal.
      rewrite Hafter at 1. rewrite drop_drop.
      replace (last + index m + size m) with (last + (index m + size m)) by lia.
      rewrite IH by lia. rewrite Hafter. now rewrite drop_drop.
    + cbn [pieces]. apply join_single.
Qed.

Lemma join_omap (ps : list (option string)) :
  join ps = fold_right String.append EmptyString (omap id ps).
Proof.
  induction ps as [|[x|] ps IH]; [reflexivity| |exact IH].
  cbn. now rewrite <- IH.
Qed.

(** Splitting on a pattern wholly inside a capturing group loses nothing:
    the parts, put together, are the subject. *)
Lemma splitKeeping_concat (r : Regex.t) (subject : string) :
  fold_right String.append EmptyString (splitKeeping r subject) = subject.
Proof.
  unfold splitKeeping, execAll. rewrite <- join_omap.
  exact (pieces_keep r subject (S (String.length subject)) 0 (Nat.le_0_l _)).
Qed.
End RewriteFacts.
(** ** Properties of the sanitization pass *)

Module SanitizerFacts.
Import Js Regex Rewrite ChatStore StringFacts RegexFacts RewriteFacts.

Lemma counts_greedy_plus (k : nat) :
  counts true 1 (S k) = S k :: counts true 1 k.
Proof.
  unfold counts. replace (S (S k) - 1) with (S k) by lia.
  replace (S k - 1) with k by lia.
  rewrite seq_S, rev_app_distr. reflexivity.
Qed.

(** The match of the PNG pattern at the head of [s]: the prefix and the
    longest run of characters other than the double quote, if not empty. *)
Lemma png_matchHere (s : string) :
  matchHere pngPayloadRegex s
  = if startsWith s PNG_PREFIX then
      match span (isNot quot) (drop (String.length PNG_PREFIX) s) with
      | O => None
      | S k => Some ([], drop (S k) (drop (String.length PNG_PREFIX) s))
      end
    else None.
Proof.
  unfold matchHere, pngPayloadRegex. rewrite matches_lit.
  change (startsWith s "data:image/png;base64,") with (startsWith s PNG_PREFIX).
  destruct (startsWith s PNG_PREFIX); [|reflexivity].
  change (String.length "data:image/png;base64,") with (String.length PNG_PREFIX).
  rewrite matches_rep.
  destruct (span (isNot quot) (drop (String.length PNG_PREFIX) s)) as [|k]; [reflexivity|].
  rewrite counts_greedy_plus. reflexivity.
Qed.

Lemma span_positive (cls : ascii -> bool) (s : string) :
  (0 <? span cls s) = match s with EmptyString => false | String c _ => cls c end.
Proof. destruct s as [|c s]; [reflexivity|]. simpl. now destruct (cls c). Qed.

Lemma png_match_iff (s : string) :
  matchHere pngPayloadRegex s = None <-> pngPayloadAt s = false.
Proof.
  rewrite png_matchHere. unfold pngPayloadAt.
  destruct (startsWith s PNG_PREFIX); [|easy]. cbn [andb].
  pose proof (span_positive (isNot quot) (drop (String.length PNG_PREFIX) s)) as H.
  destruct (span _ _); destruct (drop _ s); cbn in H |- *; unfold isNot in *;
    split; intros; congruence.
Qed.

(** The run stops at the end of the string or at a character outside the
    class. *)
Lemma span_stop (cls : ascii -> bool) (s : string) :
  drop (span cls s) s = EmptyString
  \/ exists c t, drop (span cls s) s = String c t /\ cls c = false.
Proof.
  induction s as [|c s IH]; [now left|]. simpl.
  destruct (cls c) eqn:E; [exact IH|]. right. now exists c, s.
Qed.

(** After a match of the PNG pattern comes the end of the text or a double
    quote, and the match opens with the prefix. *)
Lemma png_match_rest (s : string) gs rest :
  matchHere pngPayloadRegex s = Some (gs, rest) ->
  startsWith s PNG_PREFIX = true
  /\ (rest = EmptyString \/ exists t, rest = String quot t).
Proof.
  rewrite png_matchHere. destruct (startsWith s PNG_PREFIX); [|discriminate].
  remember (drop (String.length PNG_PREFIX) s) as s' eqn:Es'. clear Es'.
  pose proof (span_stop (isNot quot) s') as Hstop.
  destruct (span (isNot quot) s') as [|k]; [discriminate|].
  intros [= <- <-]. split; [reflexivity|].
  destruct Hstop as [H|(c & t & H & Hc)]; [left; exact H|].
  right. exists t. transitivity (String c t); [exact H|]. f_equal. unfold isNot in Hc.
  apply negb_false_iff, Ascii.eqb_eq in Hc. exact Hc.
Qed.


Lemma startsWith_take (s p : string) :
  startsWith s p = true -> s = p +:+ drop (String.length p) s.
Proof.
  revert s. induction p as [|x p IH]; intros s H; [reflexivity|].
  destruct s as [|y s]; [discriminate|]. rewrite startsWith_cons in H.
  apply andb_true_iff in H as [H1 H2]. apply Ascii.eqb_eq in H1. subst y.
  rewrite append_cons. cbn [String.length drop]. f_equal. now apply IH.
Qed.

Lemma startsWith_shorter (s p q : string) :
  startsWith s (p +:+ q) = true -> startsWith s p = true.
Proof.
  revert s. induction p as [|x p IH]; intros s H; [apply startsWith_nil|].
  destruct s as [|y s]; [discriminate|]. rewrite append_cons, startsWith_cons in H.
  rewrite startsWith_cons. apply andb_true_iff in H as [H1 H2].
  rewrite H1. cbn [andb]. now apply IH.
Qed.

(** A text without the signature of the save effect holds no payload. *)
Lemma unsigned_payloadFree (content : string) :
  includes content "data:image/png;base64" = false -> payloadFree content.
Proof.
  intros H j. unfold pngPayloadAt.
  destruct (startsWith (drop j content) PNG_PREFIX) eqn:E; [|reflexivity].
  exfalso. change PNG_PREFIX with ("data:image/png;base64" +:+ ",") in E.
  apply startsWith_shorter, includes_drop in E. congruence.
Qed.

Lemma png_exec_nil (pos : nat) : exec pngPayloadRegex "" pos = None.
Proof. reflexivity. Qed.

Lemma replaceLoop_nil (fuel : nat) :
  replaceLoop fuel pngPayloadRegex "" PLACEHOLDER = "".
Proof. now destruct fuel. Qed.

(** The replacement keeps a double quote at the head of the text. *)
Lemma replaceLoop_quote (fuel : nat) (t : string) :
  exists t', replaceLoop fuel pngPayloadRegex (String quot t) PLACEHOLDER = String quot t'.
Proof.
  destruct fuel as [|fuel]; [now exists t|]. cbn [replaceLoop].
  destruct (exec pngPayloadRegex (String quot t) 0) as [m|] eqn:E; [|now exists t].
  apply exec_spec in E as (k & Hi & _ & Hm & _). cbn in Hi. subst k.
  destruct (index m) as [|i].
  - cbn [drop] in Hm. rewrite png_matchHere in Hm. discriminate.
  - cbn [take]. rewrite append_cons. eauto.
Qed.

Lemma placeholder_blocks (i : nat) (Q : string) :
  i < String.length PLACEHOLDER ->
  startsWith (drop i PLACEHOLDER +:+ Q) PNG_PREFIX = false.
Proof.
  intros H. do 27 (destruct i as [|i]; [reflexivity|]). simpl in H. lia.
Qed.

(** The heart of the pass: text with no payload before a match, the
    placeholder, and a payload-free rest that opens with a double quote or is
    empty, make a payload-free text. *)
Lemma payloadFree_step (s : string) (k : nat) (Q : string) :
  k <= String.length s ->
  (forall j, j < k -> pngPayloadAt (drop j s) = false) ->
  startsWith (drop k s) PNG_PREFIX = true ->
  payloadFree Q ->
  payloadFree (take k s +:+ PLACEHOLDER +:+ Q).
Proof.
  intros Hk Hbefore Hmatch HQ j.
  pose proof (take_length k s Hk) as Hlen.
  destruct (Nat.lt_ge_cases j k) as [Hj|Hj].
  - (* inside the text before the match *)
    rewrite drop_append_lt by lia.
    destruct (pngPayloadAt (drop j (take k s) +:+ PLACEHOLDER +:+ Q)) eqn:E; [|reflexivity].
    exfalso. unfold pngPayloadAt in E. apply andb_true_iff in E as [E1 E2].
    set (u := drop j (take k s)) in *.
    assert (Hu : startsWith u PNG_PREFIX = true).
    { apply (startsWith_before "[" PNG_PREFIX u
               ("IMAGE_REMOVED_FOR_STORAGE]" +:+ Q)); [reflexivity|exact E1]. }
    assert (Hs : drop j s = u +:+ drop k s).
    { rewrite <- (take_drop k s) at 1. unfold u. apply drop_append_lt. lia. }
    specialize (Hbefore j Hj). rewrite Hs in Hbefore.
    unfold pngPayloadAt in Hbefore.
    rewrite (startsWith_append_l _ _ _ Hu) in Hbefore. cbn [andb] in Hbefore.
    pose proof (startsWith_length _ _ Hu) as Hul.
    rewrite drop_append_lt in Hbefore by exact Hul.
    rewrite drop_append_lt in E2 by exact Hul.
    destruct (drop (String.length PNG_PREFIX) u) as [|c u2].
    + rewrite append_nil_l in Hbefore.
      rewrite (startsWith_take _ _ Hmatch) in Hbefore. discriminate.
    + rewrite append_cons in Hbefore, E2. congruence.
  - destruct (Nat.lt_ge_cases j (k + String.length PLACEHOLDER)) as [Hp|Hp].
    + (* inside the placeholder *)
      replace j with (String.length (take k s) + (j - k)) by lia.
      rewrite <- drop_drop, drop_append.
      rewrite drop_append_lt by lia.
      unfold pngPayloadAt. rewrite placeholder_blocks by lia. reflexivity.
    + (* inside the rest *)
      replace j with (String.length (take k s +:+ PLACEHOLDER) + (j - k - String.length PLACEHOLDER))
        by (rewrite length_append; lia).
      rewrite <- append_assoc, <- drop_drop, drop_append. apply HQ.
Qed.

Lemma replaceLoop_payloadFree (fuel : nat) (s : string) :
  String.length s < fuel ->
  payloadFree (replaceLoop fuel pngPayloadRegex s PLACEHOLDER).
Proof.
  revert s. induction fuel as [|fuel IH]; intros s Hfuel; [lia|]. cbn [replaceLoop].
  destruct (exec pngPayloadRegex s 0) as [m|] eqn:E.
  - pose proof (exec_consumed _ _ _ _ _ _ E) as Hshort.
    apply exec_spec in E as (k & Hi & Hk & Hm & _ & Hnone). cbn in Hi. subst k.
    apply png_match_rest in Hm as [Hstart Hrest].
    apply payloadFree_step; trivial.
    + intros j Hj. apply png_match_iff, Hnone, Hj.
    + apply IH. lia.
  - intros j. apply png_match_iff. exact (exec_none_spec _ _ _ E j).
Qed.

Lemma sanitizeContent_clean (content : string) :
  payloadFree (sanitizeContent content).
Proof.
  unfold sanitizeContent.
  destruct (includes content "data:image/png;base64") eqn:E.
  - rewrite replaceAll_loop. apply replaceLoop_payloadFree. lia.
  - now apply unsigned_payloadFree.
Qed.

Lemma payloadFree_fixed (t : string) (fuel : nat) :
  payloadFree t -> replaceLoop fuel pngPayloadRegex t PLACEHOLDER = t.
Proof.
  intros H. destruct fuel as [|fuel]; [reflexivity|]. cbn [replaceLoop].
  rewrite exec_none_intro; [reflexivity|]. intros j. apply png_match_iff, H.
Qed.

Lemma sanitizeContent_twice (content : string) :
  sanitizeContent (sanitizeContent content) = sanitizeContent content.
Proof.
  unfold sanitizeContent at 1.
  destruct (includes (sanitizeContent content) "data:image/png;base64"); [|reflexivity].
  rewrite replaceAll_loop. apply payloadFree_fixed, sanitizeContent_clean.
Qed.

Lemma sanitize_twice (msg : Message.t) : sanitize (sanitize msg) = sanitize msg.
Proof. unfold sanitize. cbn. now rewrite sanitizeContent_twice. Qed.

(** X1.  Whatever the content of a message, its sanitized form holds no
    inline PNG payload: nowhere in it does the data-URL prefix of a PNG stand
    before a character other than a double quote. *)
Theorem sanitized_payloadFree (content : string) :
  payloadFree (sanitizeContent content).
Proof. apply sanitizeContent_clean. Qed.

(** X2.  Sanitizing twice is sanitizing once, for a content and for a
    message. *)
Theorem sanitize_idempotent (msg : Message.t) :
  sanitizeContent (sanitizeContent (Message.content msg))
  = sanitizeContent (Message.content msg)
  /\ sanitize (sanitize msg) = sanitize msg.
Proof. split; [apply sanitizeContent_twice|apply sanitize_twice]. Qed.
End SanitizerFacts.
(** ** Invariants of the chat area *)

Module InvariantFacts.
Import Js Lifecycle ChatStore Invariant StoreFacts SanitizerFacts.

Lemma In_skipn {A} (n : nat) (l : list A) (x : A) : In x (skipn n l) -> In x l.
Proof.
  revert l. induction n as [|n IH]; intros l H; [exact H|].
  destruct l as [|y l]; [exact H|]. right. now apply IH.
Qed.

Section Runtime.
Variable fits : gmap string Storage.Stored -> bool.

Lemma saveMessages_stored (msgs : list Message.t) (st : Storage.t) :
  Storage.getItem Storage.CHAT_HISTORY (saveMessages fits msgs st) = None
  \/ Storage.getItem Storage.CHAT_HISTORY (saveMessages fits msgs st)
     = Some (persistedForm msgs).
Proof.
  destruct (fits (<[Storage.CHAT_HISTORY := persistedForm msgs]> (Storage.items st))) eqn:E.
  - right. rewrite (saveMessages_accepted fits msgs st E).
    unfold Storage.getItem. cbn. apply lookup_insert_eq.
  - left. rewrite (saveMessages_rejected fits msgs st E).
    unfold Storage.getItem. cbn. apply lookup_delete_eq.
Qed.

Lemma setMessages_coherent (next : list Message.t) (w : World) :
  coherent (setMessages fits next w).
Proof. unfold coherent, setMessages. cbn. apply saveMessages_stored. Qed.

Lemma step_coherent (w : World) (e : Event) :
  coherent w -> coherent (step fits w e).
Proof.
  intros Hw. destruct e as [msg fileId now clock|c how now clock|i now clock|m| |]; cbn [step].
  - unfold handleSendMessage.
    destruct (isTyping w) eqn:Et, (currentAbortController w) eqn:Ec; cbn;
      try exact Hw;
      try (destruct (negb (truthy (trim msg))); cbn; [exact Hw|]);
      try exact Hw;
      exact (setMessages_coherent _ w).
  - unfold settle. destruct (existsb _ _); [|exact Hw].
    unfold finish, addMessage.
    destruct how; cbn; repeat (case_bool_decide; cbn); try exact Hw;
      exact (setMessages_coherent _ _).
  - unfold fire. destruct (nth_error _ _) as [[stage|]|]; cbn; try exact Hw.
    exact (setMessages_coherent _ _).
  - apply setMessages_coherent.
  - exact (setMessages_coherent _ w).
  - unfold loadChatHistory.
    destruct (Storage.getItem _ _) as [[| |]|]; try destruct (Js.truthy _); try exact Hw;
      apply setMessages_coherent.
Qed.

Lemma run_coherent (es : list Event) (w : World) :
  coherent w -> coherent (run fits w es).
Proof.
  revert w. induction es as [|e es IH]; intros w Hw; [exact Hw|].
  cbn. apply IH, step_coherent, Hw.
Qed.

(** X3.  Start from a state whose stored message list, if any, is the one
    the save effect made.  After any events of the chat area, a stored list
    is the sanitized window of the list in memory: it has at most ten
    messages and none of them holds an inline PNG payload. *)
Theorem stored_history_bounded (w : World) (es : list Event) (stored : list Message.t) :
  coherent w ->
  Storage.getItem Storage.CHAT_HISTORY (storage (run fits w es))
  = Some (Storage.Messages stored) ->
  stored = lastN 10 (map sanitize (messages (run fits w es)))
  /\ length stored <= 10
  /\ Forall (fun m => Rewrite.payloadFree (Message.content m)) stored.
Proof.
  intros Hw Hs. apply (run_coherent es) in Hw as [Hw|Hw]; [congruence|].
  rewrite Hw in Hs. injection Hs as <-. split; [reflexivity|]. split.
  - rewrite lastN_length. lia.
  - apply List.Forall_forall. intros m Hm. unfold lastN in Hm.
    apply In_skipn in Hm.
    apply in_map_iff in Hm as (m0 & <- & _). apply sanitizeContent_clean.
Qed.

Lemma lastN_lastN {A} (n : nat) (l : list A) : lastN n (lastN n l) = lastN n l.
Proof.
  unfold lastN at 1. rewrite lastN_length.
  replace (Nat.min n (length l) - n) with 0 by lia. reflexivity.
Qed.

(** The stored form is a fixed point of the save effect. *)
Lemma persistedForm_stable (msgs : list Message.t) :
  persistedForm (lastN 10 (map sanitize msgs)) = persistedForm msgs.
Proof.
  unfold persistedForm. f_equal.
  rewrite <- lastN_map, map_map, lastN_lastN. f_equal.
  apply map_ext. intros m. apply sanitize_twice.
Qed.

(** X4.  The messages are saved and the storage layer takes the write; the
    chat area then reloads (a storage event or a chat switch).  It shows the
    sanitized window of what was saved, the storage keeps its content, and a
    second reload changes neither. *)
Theorem reload_round_trip (next : list Message.t) (w : World) :
  fits (<[Storage.CHAT_HISTORY := persistedForm next]> (Storage.items (storage w))) = true ->
  let saved := setMessages fits next w in
  let loaded := loadChatHistory fits saved in
  messages loaded = lastN 10 (map sanitize next)
  /\ Storage.items (storage loaded) = Storage.items (storage saved)
  /\ messages (loadChatHistory fits loaded) = messages loaded
  /\ Storage.items (storage (loadChatHistory fits loaded)) = Storage.items (storage loaded).
Proof.
  intros Hfits saved loaded.
  assert (Hsaved : Storage.items (storage saved)
                   = <[Storage.CHAT_HISTORY := persistedForm next]> (Storage.items (storage w))).
  { subst saved. unfold setMessages. cbn. now rewrite (saveMessages_accepted fits _ _ Hfits). }
  assert (Hload : forall v : World,
             Storage.items (storage v)
             = <[Storage.CHAT_HISTORY := persistedForm next]> (Storage.items (storage w)) ->
             messages (loadChatHistory fits v) = lastN 10 (map sanitize next)
             /\ Storage.items (storage (loadChatHistory fits v)) = Storage.items (storage v)).
  { intros v Hv.
    assert (Hget : Storage.getItem Storage.CHAT_HISTORY (storage v)
                   = Some (Storage.Messages (lastN 10 (map sanitize next)))).
    { unfold Storage.getItem. rewrite Hv. apply lookup_insert_eq. }
    assert (Hsame : <[Storage.CHAT_HISTORY := persistedForm (lastN 10 (map sanitize next))]>
                      (Storage.items (storage v))
                    = Storage.items (storage v)).
    { rewrite persistedForm_stable, Hv. apply insert_insert_eq. }
    unfold loadChatHistory. rewrite Hget. unfold setMessages. cbn [messages storage].
    split; [reflexivity|].
    rewrite saveMessages_accepted; [exact Hsame|]. rewrite Hsame, Hv. exact Hfits. }
  destruct (Hload saved Hsaved) as [H1 H2].
  destruct (Hload loaded) as [H3 H4]; [subst loaded; now rewrite H2|].
  subst loaded. rewrite H1, H2, H3, H4. repeat split; trivial.
Qed.
End Runtime.

Lemma reload_round_trip_witness :
  messages (loadChatHistory Sample.roomy
              (setMessages Sample.roomy Sample.longSession Sample.idle))
  = lastN 10 (map sanitize Sample.longSession).
Proof.
  exact (proj1 (reload_round_trip Sample.roomy Sample.longSession Sample.idle eq_refl)).
Defined.

Lemma stored_history_bounded_witness :
  length (lastN 10 (map sanitize Sample.longSession)) <= 10.
Proof.
  exact (proj1 (proj2 (stored_history_bounded Sample.roomy Sample.idle
                         (map Add Sample.longSession)
                         (lastN 10 (map sanitize Sample.longSession))
                         (or_introl eq_refl) eq_refl))).
Defined.
End InvariantFacts.
(** ** One request at a time *)

Module HandleFacts.
Import Js Lifecycle ChatStore Invariant.

Lemma wellFormed_frame (w w' : World) :
  isTyping w' = isTyping w ->
  currentAbortController w' = currentAbortController w ->
  controllers w' = controllers w ->
  aborted w' = aborted w ->
  inflight w' = inflight w ->
  wellFormed w -> wellFormed w'.
Proof.
  intros H1 H2 H3 H4 H5 [A B C D E F].
  constructor; rewrite ?H1, ?H2, ?H3, ?H4, ?H5; assumption.
Qed.

Lemma wellFormed_idle : wellFormed Sample.idle.
Proof.
  constructor; cbn.
  - discriminate.
  - reflexivity.
  - contradiction.
  - intros c Hc. set_solver.
  - constructor.
  - contradiction.
Qed.

(** Aborting the current controller and clearing it, as the send button and
    a new chat do. *)
Lemma wellFormed_abort (w w' : World) (c : nat) :
  currentAbortController w = Some c ->
  isTyping w' = false ->
  currentAbortController w' = None ->
  controllers w' = controllers w ->
  aborted w' = {[c]} ∪ aborted w ->
  inflight w' = inflight w ->
  wellFormed w -> wellFormed w'.
Proof.
  intros Hc H1 H2 H3 H4 H5 [A B C D E F].
  constructor; rewrite ?H1, ?H2, ?H3, ?H4, ?H5; try assumption; try discriminate.
  - reflexivity.
  - intros c' Hc'. apply elem_of_union in Hc' as [Hc'|Hc']; [|now apply D].
    apply elem_of_singleton in Hc'. subst c'. apply C. now apply (A c Hc).
  - intros c' Hin Hna. exfalso.
    assert (Hold : c' ∉ aborted w).
    { intros Hab. apply Hna, elem_of_union. now right. }
    pose proof (F c' Hin Hold) as Hcur. rewrite Hc in Hcur. injection Hcur as ->.
    apply Hna, elem_of_union. left. now apply elem_of_singleton.
Qed.

Lemma wellFormed_quiet (w w' : World) :
  currentAbortController w = None ->
  isTyping w' = false ->
  currentAbortController w' = None ->
  controllers w' = controllers w ->
  aborted w' = aborted w ->
  inflight w' = inflight w ->
  wellFormed w -> wellFormed w'.
Proof.
  intros Hc H1 H2 H3 H4 H5 [A B C D E F].
  constructor; rewrite ?H1, ?H2, ?H3, ?H4, ?H5; try assumption; try discriminate.
  - reflexivity.
  - intros c' Hin Hna. rewrite <- Hc. now apply F.
Qed.

Section Runtime.
Variable fits : gmap string Storage.Stored -> bool.

Lemma wellFormed_send msg fileId now clock (w : World) :
  wellFormed w -> wellFormed (handleSendMessage fits msg fileId now clock w).
Proof.
  intros Hw. unfold handleSendMessage.
  destruct (isTyping w) eqn:Et, (currentAbortController w) as [c|] eqn:Ec.
  - now apply (wellFormed_abort w _ c).
  - rewrite orb_true_r. exact Hw.
  - destruct Hw as [A _ _ _ _ _]. destruct (A c Ec) as [Ht _]. congruence.
  - rewrite orb_false_r. destruct (negb (truthy (trim msg))); [exact Hw|].
    destruct Hw as [A B C D E F]. constructor; cbn.
    + intros c [= <-]. split; [reflexivity|]. split.
      * intros Hab. apply D in Hab. lia.
      * rewrite map_app. apply in_or_app. right. now left.
    + discriminate.
    + intros c Hin. rewrite map_app in Hin. apply in_app_or in Hin as [Hin|[<-|[]]].
      * apply C in Hin. lia.
      * cbn. lia.
    + intros c Hc. apply D in Hc. lia.
    + rewrite map_app. apply NoDup_app. split; [exact E|]. split.
      * intros c Hin [<-|[]]%list_elem_of_In. apply list_elem_of_In, C in Hin.
        cbn in Hin. lia.
      * apply NoDup_singleton.
    + intros c Hin Hna. rewrite map_app in Hin. apply in_app_or in Hin as [Hin|[<-|[]]].
      * pose proof (F c Hin Hna). congruence.
      * reflexivity.
Qed.

Lemma filter_keeps (c c' : nat) (l : list (nat * Request)) :
  c' <> c -> In c' (map fst l) ->
  In c' (map fst (List.filter (fun r => negb (Nat.eqb (fst r) c)) l)).
Proof.
  intros Hne Hin. apply in_map_iff in Hin as (r & <- & Hr).
  apply in_map, filter_In. split; [exact Hr|].
  apply negb_true_iff, Nat.eqb_neq, Hne.
Qed.

Lemma filter_drops (c c' : nat) (l : list (nat * Request)) :
  In c' (map fst (List.filter (fun r => negb (Nat.eqb (fst r) c)) l)) ->
  c' <> c /\ In c' (map fst l).
Proof.
  intros Hin. apply in_map_iff in Hin as (r & <- & Hr).
  apply filter_In in Hr as [Hr Hne]. apply negb_true_iff, Nat.eqb_neq in Hne.
  split; [exact Hne|]. now apply in_map.
Qed.

Lemma filter_distinct (c : nat) (l : list (nat * Request)) :
  NoDup (map fst l) ->
  NoDup (map fst (List.filter (fun r => negb (Nat.eqb (fst r) c)) l)).
Proof.
  induction l as [|r l IH]; intros H; [constructor|]. cbn in *.
  apply NoDup_cons in H as [Hr Hl].
  destruct (negb (fst r =? c)); [|now apply IH]. cbn. apply NoDup_cons. split; [|now apply IH].
  intros Hin%list_elem_of_In. apply filter_drops in Hin as [_ Hin].
  apply Hr, list_elem_of_In, Hin.
Qed.

(** The exchange of [c] leaves the awaited ones. *)
Lemma wellFormed_answered (w w' : World) (c : nat) :
  isTyping w' = isTyping w ->
  currentAbortController w' = currentAbortController w ->
  controllers w' = controllers w ->
  aborted w' = aborted w ->
  inflight w' = List.filter (fun r => negb (Nat.eqb (fst r) c)) (inflight w) ->
  c ∈ aborted w ->
  wellFormed w -> wellFormed w'.
Proof.
  intros H1 H2 H3 H4 H5 Hab [A B C D E F].
  constructor; rewrite ?H1, ?H2, ?H3, ?H4, ?H5; try assumption.
  - intros c' Hc'. destruct (A c' Hc') as (Ht & Hna & Hin). repeat split; trivial.
    apply filter_keeps; [|exact Hin]. intros ->. contradiction.
  - intros c' Hin. apply filter_drops in Hin as [_ Hin]. now apply C.
  - now apply filter_distinct.
  - intros c' Hin Hna. apply filter_drops in Hin as [_ Hin]. now apply F.
Qed.

Lemma wellFormed_finished (w w' : World) (c : nat) :
  isTyping w' = false ->
  currentAbortController w' = None ->
  controllers w' = controllers w ->
  aborted w' = aborted w ->
  inflight w' = List.filter (fun r => negb (Nat.eqb (fst r) c)) (inflight w) ->
  In c (map fst (inflight w)) -> c ∉ aborted w ->
  wellFormed w -> wellFormed w'.
Proof.
  intros H1 H2 H3 H4 H5 Hin Hna [A B C D E F].
  constructor; rewrite ?H1, ?H2, ?H3, ?H4, ?H5; try assumption; try discriminate.
  - reflexivity.
  - intros c' Hc'. apply filter_drops in Hc' as [_ Hc']. now apply C.
  - now apply filter_distinct.
  - intros c' Hc' Hna'. exfalso. apply filter_drops in Hc' as [Hne Hc'].
    pose proof (F c' Hc' Hna') as H. pose proof (F c Hin Hna) as H'. congruence.
Qed.

Lemma existsb_inflight (c : nat) (l : list (nat * Request)) :
  existsb (fun r => Nat.eqb (fst r) c) l = true -> In c (map fst l).
Proof.
  intros H. apply existsb_exists in H as (r & Hr & Hc). apply Nat.eqb_eq in Hc.
  subst c. now apply in_map.
Qed.

Lemma wellFormed_settle c how now clock (w : World) :
  wellFormed w -> wellFormed (settle fits c how now clock w).
Proof.
  intros Hw. unfold settle.
  destruct (existsb _ _) eqn:Ein; [|exact Hw]. apply existsb_inflight in Ein.
  unfold finish, addMessage, setMessages.
  destruct (decide (c ∈ aborted w)) as [Hab|Hna].
  - destruct how; cbn; rewrite !(bool_decide_eq_true_2 _ Hab); cbn;
      rewrite ?(bool_decide_eq_true_2 _ Hab);
      now apply (wellFormed_answered w _ c).
  - destruct how; cbn; rewrite !(bool_decide_eq_false_2 _ Hna); cbn;
      rewrite ?(bool_decide_eq_false_2 _ Hna);
      now apply (wellFormed_finished w _ c).
Qed.

Lemma wellFormed_step (w : World) (e : Event) :
  wellFormed w -> wellFormed (step fits w e).
Proof.
  intros Hw. destruct e as [msg fileId now clock|c how now clock|i now clock|m| |]; cbn [step].
  - now apply wellFormed_send.
  - now apply wellFormed_settle.
  - unfold fire. destruct (nth_error _ _) as [[stage|]|]; [| |exact Hw];
      now apply (wellFormed_frame w).
  - now apply (wellFormed_frame w).
  - unfold handleNewChat. destruct (currentAbortController w) as [c|] eqn:Ec.
    + now apply (wellFormed_abort w _ c).
    + now apply (wellFormed_quiet w).
  - unfold loadChatHistory.
    destruct (Storage.getItem _ _) as [[| |]|]; try destruct (Js.truthy _); try exact Hw;
      now apply (wellFormed_frame w).
Qed.

Lemma wellFormed_run (es : list Event) (w : World) :
  wellFormed w -> wellFormed (run fits w es).
Proof.
  revert w. induction es as [|e es IH]; intros w Hw; [exact Hw|].
  cbn. apply IH, wellFormed_step, Hw.
Qed.

Lemma live_In (w : World) (r : nat * Request) :
  In r (live w) <-> In r (inflight w) /\ fst r ∉ aborted w.
Proof.
  unfold live. rewrite filter_In. split; intros [H1 H2]; (split; [exact H1|]).
  - apply negb_true_iff, bool_decide_eq_false in H2. exact H2.
  - apply negb_true_iff, bool_decide_eq_false. exact H2.
Qed.

Lemma NoDup_fst_inj (l : list (nat * Request)) (r1 r2 : nat * Request) :
  NoDup (map fst l) -> In r1 l -> In r2 l -> fst r1 = fst r2 -> r1 = r2.
Proof.
  induction l as [|r l IH]; intros Hnd H1 H2 Heq; [destruct H1|].
  cbn in Hnd. apply NoDup_cons in Hnd as [Hr Hl].
  destruct H1 as [->|H1], H2 as [->|H2]; trivial.
  - exfalso. apply Hr, list_elem_of_In. rewrite Heq. now apply in_map.
  - exfalso. apply Hr, list_elem_of_In. rewrite <- Heq. now apply in_map.
  - now apply IH.
Qed.

(** X5.  Whatever the events since the chat area was idle and empty, at most
    one exchange is awaited without being canceled; there is one exactly
    when the component has a current controller, which is then its
    controller, and the typing state is then on. *)
Theorem one_request_at_a_time (es : list Event) :
  let w := run fits Sample.idle es in
  (forall r1 r2, In r1 (live w) -> In r2 (live w) -> r1 = r2)
  /\ (forall r, In r (live w) ->
                currentAbortController w = Some (fst r) /\ isTyping w = true)
  /\ (forall c, currentAbortController w = Some c -> exists r, In r (live w) /\ fst r = c)
  /\ (currentAbortController w = None -> live w = [] /\ isTyping w = false).
Proof.
  intros w. pose proof (wellFormed_run es Sample.idle wellFormed_idle) as Hw.
  fold w in Hw. destruct Hw as [A B C D E F].
  assert (Hcur : forall r, In r (live w) -> currentAbortController w = Some (fst r)).
  { intros r [Hr Hna]%live_In. apply F; [now apply in_map|exact Hna]. }
  split; [|split; [|split]].
  - intros r1 r2 H1 H2. pose proof (Hcur r1 H1) as E1. pose proof (Hcur r2 H2) as E2.
    apply live_In in H1 as [H1 _]. apply live_In in H2 as [H2 _].
    apply (NoDup_fst_inj (inflight w)); trivial. congruence.
  - intros r Hr. split; [now apply Hcur|]. now apply (A (fst r)), Hcur.
  - intros c Hc. destruct (A c Hc) as (_ & Hna & Hin).
    apply in_map_iff in Hin as (r & <- & Hr). exists r. split; [|reflexivity].
    apply live_In. now split.
  - intros Hnone. split; [|now apply B].
    destruct (live w) as [|r l] eqn:El; [reflexivity|].
    assert (Hr : In r (r :: l)) by now left.
    apply Hcur in Hr. congruence.
Qed.
End Runtime.
End HandleFacts.
(** ** The session index of the sidebar under its updaters *)

Module IndexFacts.
Import Sidebar Index.

Lemma findIndex_Some {A} (p : A -> bool) (a : list A) (i : nat) :
  findIndex p a = Some i -> exists x, a !! i = Some x /\ p x = true.
Proof.
  revert i. induction a as [|y a IH]; intros i H; [discriminate|].
  cbn [findIndex] in H. destruct (p y) eqn:Ey.
  - injection H as <-. exists y. now split.
  - destruct (findIndex p a) as [j|]; [|discriminate].
    injection H as <-. destruct (IH j eq_refl) as (x & Hx & Hp).
    exists x. now split.
Qed.

Lemma findIndex_None {A} (p : A -> bool) (a : list A) :
  findIndex p a = None -> forall x, In x a -> p x = false.
Proof.
  induction a as [|y a IH]; intros H x Hin; [destruct Hin|].
  cbn [findIndex] in H. destruct (p y) eqn:Ey; [discriminate|].
  destruct (findIndex p a); [discriminate|].
  destruct Hin as [<-|Hin]; [exact Ey|now apply IH].
Qed.

Lemma ids_insert (prev : list Session.t) (i : nat) (old new : Session.t) :
  prev !! i = Some old -> Session.id new = Session.id old ->
  map Session.id (<[i := new]> prev) = map Session.id prev.
Proof.
  revert i. induction prev as [|y prev IH]; intros [|i] Hl Hid; try discriminate.
  - injection Hl as ->. cbn. now rewrite Hid.
  - cbn. f_equal. now apply IH.
Qed.

Lemma NoDup_firstn {A} (n : nat) (l : list A) : NoDup l -> NoDup (firstn n l).
Proof.
  revert n. induction l as [|x l IH]; intros [|n] H; cbn; try constructor.
  - intros Hin. apply NoDup_cons_1_1 in H. apply H.
    apply list_elem_of_In in Hin. apply list_elem_of_In.
    rewrite <- (firstn_skipn n l). apply in_or_app. now left.
  - apply IH. now apply NoDup_cons_1_2 in H.
Qed.

Lemma NoDup_filter_ids (p : Session.t -> bool) (l : list Session.t) :
  NoDup (map Session.id l) -> NoDup (map Session.id (List.filter p l)).
Proof.
  induction l as [|x l IH]; intros H; cbn; [constructor|].
  cbn in H. pose proof (NoDup_cons_1_1 _ _ H) as Hx.
  pose proof (NoDup_cons_1_2 _ _ H) as Hl.
  destruct (p x); [|now apply IH].
  cbn. constructor; [|now apply IH].
  intros Hin. apply Hx. apply list_elem_of_In in Hin. apply list_elem_of_In.
  apply in_map_iff in Hin as (y & Hy & Hin). apply filter_In in Hin as [Hin _].
  apply in_map_iff. now exists y.
Qed.

Lemma filter_length_le {A} (p : A -> bool) (l : list A) :
  length (List.filter p l) <= length l.
Proof.
  induction l as [|x l IH]; cbn; [lia|]. destruct (p x); cbn; lia.
Qed.

Lemma tidy_single (chat : Session.t) : tidy [chat].
Proof.
  split; cbn; [|lia]. constructor; [|constructor]. intros H.
  apply list_elem_of_In in H. destruct H.
Qed.

Lemma tidy_nextHistory (sessionId title : string) (messages : list Message.t)
      (prev : list Session.t) :
  tidy prev -> tidy (nextHistory sessionId title messages prev).
Proof.
  intros [Hnd Hlen]. unfold nextHistory.
  destruct (findIndex _ prev) as [i|] eqn:Ei.
  - apply findIndex_Some in Ei as (old & Hold & Hid).
    apply String.eqb_eq in Hid. split.
    + rewrite (ids_insert prev i old); [exact Hnd|exact Hold|].
      cbn. now symmetry.
    + now rewrite length_insert.
  - pose proof (findIndex_None _ _ Ei) as Hnone. split.
    + cbn [map currentSession Session.id]. rewrite <- firstn_map.
      constructor; [|now apply NoDup_firstn].
      intros Hin. apply list_elem_of_In in Hin.
      assert (Hin' : In sessionId (map Session.id prev)).
      { rewrite <- (firstn_skipn 4 (map Session.id prev)). apply in_or_app. now left. }
      apply in_map_iff in Hin' as (chat & Hid & Hchat).
      specialize (Hnone chat Hchat). cbn in Hnone.
      rewrite Hid, String.eqb_refl in Hnone. discriminate.
    + cbn [length]. pose proof (firstn_le_length 4 prev). lia.
Qed.

Lemma tidy_rename (chatId value : string) (prev : list Session.t) :
  tidy prev ->
  tidy (map (fun chat =>
               if String.eqb (Session.id chat) chatId
               then Session.mk (Session.id chat) value (Session.messages chat)
               else chat) prev).
Proof.
  intros [Hnd Hlen]. split; [|now rewrite length_map].
  rewrite map_map.
  erewrite map_ext; [exact Hnd|]. intros chat. cbn.
  now destruct (String.eqb (Session.id chat) chatId).
Qed.

Lemma tidy_filter (p : Session.t -> bool) (prev : list Session.t) :
  tidy prev -> tidy (List.filter p prev).
Proof.
  intros [Hnd Hlen]. split; [now apply NoDup_filter_ids|].
  pose proof (filter_length_le p prev). lia.
Qed.

Lemma filter_absent (chatId : string) (prev : list Session.t) :
  ~ In chatId (map Session.id prev) ->
  List.filter (fun chat => negb (String.eqb (Session.id chat) chatId)) prev = prev.
Proof.
  intros Hno. induction prev as [|x prev IH]; [reflexivity|].
  cbn [List.filter]. destruct (String.eqb (Session.id x) chatId) eqn:E.
  - apply String.eqb_eq in E. exfalso. apply Hno. left. exact E.
  - cbn [negb]. f_equal. apply IH. intros Hin. apply Hno. now right.
Qed.

Lemma filter_cut (chatId : string) (prev : list Session.t) :
  NoDup (map Session.id prev) -> In chatId (map Session.id prev) ->
  exists before chat after,
    prev = before ++ chat :: after /\ Session.id chat = chatId
    /\ List.filter (fun chat => negb (String.eqb (Session.id chat) chatId)) prev
       = before ++ after.
Proof.
  induction prev as [|x prev IH]; intros Hnd Hin; [destruct Hin|].
  cbn [map] in Hnd. pose proof (NoDup_cons_1_1 _ _ Hnd) as Hx.
  pose proof (NoDup_cons_1_2 _ _ Hnd) as Hl.
  cbn [List.filter]. destruct (String.eqb (Session.id x) chatId) eqn:E.
  - apply String.eqb_eq in E. exists [], x, prev. cbn [negb app].
    split; [reflexivity|]. split; [exact E|].
    apply filter_absent. intros Hin'. apply Hx. rewrite E. now apply list_elem_of_In.
  - destruct Hin as [Hin|Hin]; [apply String.eqb_neq in E; now destruct E|].
    destruct (IH Hl Hin) as (before & chat & after & Hp & Hid & Hf).
    exists (x :: before), chat, after. cbn [negb app].
    split; [now rewrite Hp|]. split; [exact Hid|]. now rewrite Hf.
Qed.

Lemma filter_present (chatId : string) (prev : list Session.t) :
  NoDup (map Session.id prev) -> In chatId (map Session.id prev) ->
  S (length (List.filter (fun chat => negb (String.eqb (Session.id chat) chatId)) prev))
  = length prev.
Proof.
  induction prev as [|x prev IH]; intros Hnd Hin; [destruct Hin|].
  cbn [map] in Hnd. pose proof (NoDup_cons_1_1 _ _ Hnd) as Hx.
  pose proof (NoDup_cons_1_2 _ _ Hnd) as Hl.
  cbn [List.filter]. destruct (String.eqb (Session.id x) chatId) eqn:E.
  - apply String.eqb_eq in E. cbn [negb length]. f_equal.
    rewrite filter_absent; [reflexivity|].
    intros Hin'. apply Hx. rewrite E. now apply list_elem_of_In.
  - cbn [negb length]. f_equal. apply IH; [exact Hl|].
    destruct Hin as [Hin|Hin]; [|exact Hin].
    apply String.eqb_neq in E. now destruct E.
Qed.

Section Quota.
Variable fits : gmap string Storage.Stored -> bool.

Lemma setItem_stored (key : string) (value : Storage.Stored) (st st' : Storage.t) :
  Storage.setItem fits key value st = (true, st') ->
  Storage.getItem key st' = Some value.
Proof.
  unfold Storage.setItem, Storage.getItem. destruct (fits _); [|discriminate].
  intros H. injection H as <-. cbn. apply lookup_insert_eq.
Qed.

Lemma setItem_other (key key' : string) (value : Storage.Stored) (b : bool)
      (st st' : Storage.t) :
  key <> key' ->
  Storage.setItem fits key value st = (b, st') ->
  Storage.getItem key' st' = Storage.getItem key' st.
Proof.
  unfold Storage.setItem, Storage.getItem. intros Hk.
  destruct (fits _); intros H; injection H as <- <-; cbn; [|reflexivity].
  now apply lookup_insert_ne.
Qed.

Lemma setItem_refused (key : string) (value : Storage.Stored) (st st' : Storage.t) :
  Storage.setItem fits key value st = (false, st') ->
  Storage.items st' = Storage.items st.
Proof.
  unfold Storage.setItem. destruct (fits _); [discriminate|].
  intros H. now injection H as <-.
Qed.

Lemma updateHistory_cases (sessionId title : string) (messages : list Message.t)
      (prev h : list Session.t) (st st' : Storage.t) :
  updateHistory fits sessionId title messages prev st = (Some h, st') ->
  (h = nextHistory sessionId title messages prev \/
   h = [currentSession sessionId title messages]) /\
  Storage.getItem Storage.CHAT_SESSIONS st' = Some (Storage.Sessions h).
Proof.
  unfold updateHistory.
  destruct (Storage.setItem fits _ (Storage.Sessions (nextHistory _ _ _ _)) st)
    as [[|] st1] eqn:E1.
  - intros H. injection H as <- <-. split; [now left|].
    exact (setItem_stored _ _ _ _ E1).
  - destruct (Storage.setItem fits _ _ st1) as [[|] st2] eqn:E2; [|discriminate].
    intros H. injection H as <- <-. split; [now right|].
    exact (setItem_stored _ _ _ _ E2).
Qed.

Lemma poll_cases (now : Z) (s s' : State) (st st' : Storage.t) :
  checkForNewMessages fits now s st = Done s' st' ->
  (s' = s /\ st' = st) \/
  exists sessionId title messages h,
    updateHistory fits sessionId title messages (chatHistory s) st = (Some h, st') /\
    s' = mkState h (openMenuId s) (renamingChatId s) (renameValue s).
Proof.
  unfold checkForNewMessages.
  destruct (Storage.getItem Storage.CHAT_HISTORY st) as [[messages| |]|];
    try (intros H; injection H as <- <-; now left).
  destruct messages as [|m messages]; [intros H; injection H as <- <-; now left|].
  destruct (find _ (m :: messages)) as [first|];
    [|intros H; injection H as <- <-; now left].
  match goal with
  | |- context [updateHistory fits ?i ?t ?ms ?p st] =>
      destruct (updateHistory fits i t ms p st) as [[h|] st1] eqn:E;
      [|discriminate];
      intros H; injection H as <- <-; right; exists i, t, ms, h; now split
  end.
Qed.

(** X6.  The updaters of the sidebar keep the session index in order: when
    the index lists no session id twice and holds at most five sessions, it
    still does after a poll, a rename and a deletion that end normally,
    whatever the storage holds. *)
Theorem index_stays_tidy (s : State) (st : Storage.t) :
  tidy (chatHistory s) ->
  (forall now s' st',
      checkForNewMessages fits now s st = Done s' st' -> tidy (chatHistory s')) /\
  (forall chatId s' st',
      handleRenameSubmit fits chatId s st = Done s' st' -> tidy (chatHistory s')) /\
  (forall chatId h st',
      deleteUpdater fits chatId (chatHistory s) st = (Some h, st') -> tidy h).
Proof using Type.
  intros Ht. split; [|split].
  - intros now s' st' H. apply poll_cases in H as [[-> _]|(i & t & ms & h & Hu & ->)];
      [exact Ht|].
    apply updateHistory_cases in Hu as [[->| ->] _]; cbn [chatHistory].
    + now apply tidy_nextHistory.
    + apply tidy_single.
  - intros chatId s' st'. unfold handleRenameSubmit.
    destruct (Js.truthy _).
    + destruct (Storage.setItem fits _ _ st) as [[|] st1]; [|discriminate].
      intros H. injection H as <- <-. cbn [chatHistory]. now apply tidy_rename.
    + intros H. injection H as <- <-. exact Ht.
  - intros chatId h st'. unfold deleteUpdater.
    destruct (Storage.setItem fits _ _ st) as [[|] st1]; [|discriminate].
    intros H. injection H as <- <-. now apply tidy_filter.
Qed.

(** X7.  Memory and storage agree on the index: when the stored index is
    the one in memory, it still is after a poll or a rename that ends
    normally, and a deletion stores the list it returns. *)
Theorem index_stays_synced (s : State) (st : Storage.t) :
  synced s st ->
  (forall now s' st',
      checkForNewMessages fits now s st = Done s' st' -> synced s' st') /\
  (forall chatId s' st',
      handleRenameSubmit fits chatId s st = Done s' st' -> synced s' st') /\
  (forall chatId h st',
      deleteUpdater fits chatId (chatHistory s) st = (Some h, st') ->
      Storage.getItem Storage.CHAT_SESSIONS st' = Some (Storage.Sessions h)).
Proof using Type.
  intros Hs. split; [|split].
  - intros now s' st' H. apply poll_cases in H as [[-> ->]|(i & t & ms & h & Hu & ->)];
      [exact Hs|].
    apply updateHistory_cases in Hu as [_ Hg]. exact Hg.
  - intros chatId s' st'. unfold handleRenameSubmit.
    destruct (Js.truthy _).
    + destruct (Storage.setItem fits _ _ st) as [[|] st1] eqn:E; [|discriminate].
      intros H. injection H as <- <-. exact (setItem_stored _ _ _ _ E).
    + intros H. injection H as <- <-. exact Hs.
  - intros chatId h st'. unfold deleteUpdater.
    destruct (Storage.setItem fits _ _ st) as [[|] st1] eqn:E; [|discriminate].
    intros H. injection H as <- <-. exact (setItem_stored _ _ _ _ E).
Qed.

(** X8.  A deletion removes the session with the given id and nothing
    else: in an index without duplicates that holds the id, the index is
    cut at the session of that id and what stands before and after it is
    kept in place; an index that does not hold the id stays as it was; and
    the list that the updater returns is the list it stored. *)
Theorem delete_removes_only_that (chatId : string) (prev h : list Session.t)
        (st st' : Storage.t) :
  deleteUpdater fits chatId prev st = (Some h, st') ->
  (NoDup (map Session.id prev) -> In chatId (map Session.id prev) ->
   exists before chat after,
     prev = before ++ chat :: after /\ Session.id chat = chatId /\ h = before ++ after) /\
  (~ In chatId (map Session.id prev) -> h = prev) /\
  Storage.getItem Storage.CHAT_SESSIONS st' = Some (Storage.Sessions h).
Proof using Type.
  unfold deleteUpdater.
  destruct (Storage.setItem fits _ _ st) as [[|] st1] eqn:E; [|discriminate].
  intros H. injection H as <- <-. split; [|split].
  - apply filter_cut.
  - apply filter_absent.
  - exact (setItem_stored _ _ _ _ E).
Qed.
End Quota.

Lemma crowded_tidy : tidy Sample.fiveSessions.
Proof.
  split; [|cbn; lia]. apply (bool_decide_unpack _). vm_compute. exact I.
Qed.

Lemma index_stays_tidy_witness :
  tidy (chatHistory Sample.crowded) /\
  tidy (Sidebar.currentSession "session-9" "Résumé des ventes par région e..."
          [Sample.accented; Sample.followUp]
        :: [Sample.session "1"; Sample.session "2"; Sample.session "3";
            Sample.session "4"]).
Proof.
  split; [exact crowded_tidy|].
  destruct (index_stays_tidy Sample.roomy Sample.crowded Sample.crowdedStorage
              crowded_tidy) as (Hpoll & _ & _).
  apply (Hpoll 5000%Z
           (mkState
              (Sidebar.currentSession "session-9" "Résumé des ventes par région e..."
                 [Sample.accented; Sample.followUp]
               :: [Sample.session "1"; Sample.session "2"; Sample.session "3";
                   Sample.session "4"]) None None EmptyString)
           (storageOf (checkForNewMessages Sample.roomy 5000 Sample.crowded
                                           Sample.crowdedStorage))).
  reflexivity.
Defined.

Lemma index_stays_synced_witness :
  synced Sample.sidebar Sample.salesStorage /\
  Storage.getItem Storage.CHAT_SESSIONS
    (snd (deleteUpdater Sample.roomy "session-1" [Sample.salesSession]
                        Sample.salesStorage))
  = Some (Storage.Sessions []).
Proof.
  assert (Hs : synced Sample.sidebar Sample.salesStorage) by reflexivity.
  split; [exact Hs|].
  destruct (index_stays_synced Sample.roomy Sample.sidebar Sample.salesStorage Hs)
    as (_ & _ & Hdel).
  apply (Hdel "session-1"). reflexivity.
Defined.

Lemma delete_removes_only_that_witness :
  exists before chat after,
    Sample.fiveSessions = before ++ chat :: after /\ Session.id chat = "session-2"
    /\ [Sample.session "1"; Sample.session "3"; Sample.session "4"; Sample.session "5"]
       = before ++ after.
Proof.
  apply (proj1 (delete_removes_only_that Sample.roomy "session-2" Sample.fiveSessions
                  [Sample.session "1"; Sample.session "3"; Sample.session "4";
                   Sample.session "5"]
                  Sample.crowdedStorage
                  (snd (deleteUpdater Sample.roomy "session-2" Sample.fiveSessions
                                      Sample.crowdedStorage)) eq_refl)).
  - exact (proj1 crowded_tidy).
  - cbn. tauto.
Defined.

End IndexFacts.
(** ** Sidebar and chat area together *)

Module AppFacts.
Import Js Lifecycle ChatStore Invariant Index App IndexFacts.

Section Runtime.
Variable fits : gmap string Storage.Stored -> bool.

Lemma saveMessages_other (key : string) (msgs : list Message.t) (st : Storage.t) :
  key <> Storage.CHAT_HISTORY ->
  Storage.getItem key (saveMessages fits msgs st) = Storage.getItem key st.
Proof using Type.
  intros Hk. unfold saveMessages.
  destruct (Storage.setItem fits _ _ st) as [[|] st1] eqn:E.
  - apply (setItem_other fits _ _ _ _ _ _ (not_eq_sym Hk) E).
  - unfold Storage.removeItem, Storage.getItem. cbn.
    rewrite lookup_delete_ne by (apply not_eq_sym, Hk).
    apply (setItem_other fits _ _ _ _ _ _ (not_eq_sym Hk) E).
Qed.

Lemma saveMessages_empty (st : Storage.t) :
  Storage.getItem Storage.CHAT_HISTORY (saveMessages fits [] st) = None \/
  Storage.getItem Storage.CHAT_HISTORY (saveMessages fits [] st)
  = Some (Storage.Messages []).
Proof using Type. apply (InvariantFacts.saveMessages_stored fits [] st). Qed.

Lemma step_other (key : string) (w : World) (e : Event) :
  key <> Storage.CHAT_HISTORY ->
  Storage.getItem key (storage (step fits w e)) = Storage.getItem key (storage w).
Proof using Type.
  intros Hk.
  destruct e as [msg fileId now clock|c how now clock|i now clock|m| |]; cbn [step].
  - unfold handleSendMessage.
    destruct (isTyping w), (currentAbortController w); cbn; try reflexivity;
      destruct (negb (truthy (trim msg))); cbn; try reflexivity;
      now apply saveMessages_other.
  - unfold settle. destruct (existsb _ _); [|reflexivity].
    unfold finish, addMessage.
    destruct how; cbn; repeat (case_bool_decide; cbn); try reflexivity;
      now apply saveMessages_other.
  - unfold fire. destruct (nth_error _ _) as [[stage|]|]; cbn; try reflexivity.
    now apply saveMessages_other.
  - cbn. now apply saveMessages_other.
  - cbn. now apply saveMessages_other.
  - unfold loadChatHistory.
    destruct (Storage.getItem Storage.CHAT_HISTORY (storage w)) as [[| |]|];
      try destruct (Js.truthy _); cbn; try reflexivity; now apply saveMessages_other.
Qed.

(** X9.  The chat area writes one key only: whatever it does, the session
    index, the current session id and every other key than that of the
    message list keep the value they had. *)
Theorem chat_area_keeps_other_keys (key : string) (es : list Event) (w : World) :
  key <> Storage.CHAT_HISTORY ->
  Storage.getItem key (storage (run fits w es)) = Storage.getItem key (storage w).
Proof using Type.
  intros Hk. revert w. induction es as [|e es IH]; intros w; [reflexivity|].
  cbn [run fold_left]. fold (run fits (step fits w e) es).
  rewrite IH. now apply step_other.
Qed.

Lemma select_accepted (chat : Session.t) (st0 st : Storage.t) :
  handleChatSelect fits chat st0 = (true, st) ->
  Storage.getItem Storage.CHAT_HISTORY st
  = Some (Storage.Messages (Session.messages chat)) /\
  Storage.getItem Storage.CURRENT_SESSION_ID st
  = Some (Storage.Text (Session.id chat)).
Proof using Type.
  unfold handleChatSelect.
  destruct (Storage.setItem fits Storage.CHAT_HISTORY _ st0) as [[|] st1] eqn:E1;
    [|discriminate].
  intros E2. split.
  - assert (Hne : Storage.CURRENT_SESSION_ID <> Storage.CHAT_HISTORY) by discriminate.
    rewrite (setItem_other fits _ _ _ _ _ _ Hne E2).
    exact (setItem_stored fits _ _ _ _ E1).
  - exact (setItem_stored fits _ _ _ _ E2).
Qed.

Lemma selectChat_accepted (chat : Session.t) (w : World) (st : Storage.t) :
  handleChatSelect fits chat (storage w) = (true, st) ->
  selectChat fits chat w
  = setMessages fits (Session.messages chat) (withStorage st w).
Proof using Type.
  intros H. unfold selectChat. rewrite H. cbn [chatSwitch].
  apply select_accepted in H as [Hh _].
  unfold loadChatHistory. cbn [storage withStorage]. now rewrite Hh.
Qed.

(** X10.  Selecting a session of the index, when the storage takes the two
    writes, shows the messages of that session and makes it the current
    session; the typing state, the current controller and the awaited
    exchanges stay as they were, so a pending request is not canceled. *)
Theorem select_shows_session (chat : Session.t) (w : World) (st : Storage.t) :
  handleChatSelect fits chat (storage w) = (true, st) ->
  let w' := selectChat fits chat w in
  messages w' = Session.messages chat /\
  Storage.getItem Storage.CURRENT_SESSION_ID (storage w')
  = Some (Storage.Text (Session.id chat)) /\
  coherent w' /\
  isTyping w' = isTyping w /\
  currentAbortController w' = currentAbortController w /\
  aborted w' = aborted w /\
  inflight w' = inflight w.
Proof using Type.
  intros H. cbn zeta. rewrite (selectChat_accepted chat w st H).
  split; [reflexivity|]. split.
  - cbn [storage setMessages withStorage].
    rewrite saveMessages_other by discriminate.
    now apply select_accepted in H as [_ Hc].
  - split; [apply InvariantFacts.setMessages_coherent|]. now cbn.
Qed.

(** X11.  A reply lands in the session that is shown when it arrives: when
    a session is selected while a request is awaited, the answer of that
    request is appended to the messages of the selected session. *)
Theorem pending_reply_follows_selection (chat : Session.t) (w : World) (st : Storage.t)
        (c : nat) (response : string) (now : Z) (clock : string) :
  handleChatSelect fits chat (storage w) = (true, st) ->
  In c (map fst (inflight w)) ->
  c ∉ aborted w ->
  messages (settle fits c (Resolved response) now clock (selectChat fits chat w))
  = Session.messages chat ++ [assistantMessage now clock response].
Proof using Type.
  intros H Hin Hna. rewrite (selectChat_accepted chat w st H).
  unfold settle. cbn [inflight setMessages withStorage].
  assert (Hex : existsb (fun r => Nat.eqb (fst r) c) (inflight w) = true).
  { apply in_map_iff in Hin as (r & Hr & Hin). apply existsb_exists.
    exists r. split; [exact Hin|]. now apply Nat.eqb_eq. }
  rewrite Hex.
  cbn [aborted]. rewrite (bool_decide_eq_false_2 _ Hna).
  unfold finish, addMessage. cbn. now case_bool_decide.
Qed.

(** X12.  Deleting the current session is not undone by the poll: the chat
    area is emptied, the current session id is removed, and the next poll
    of the sidebar changes neither the index nor the storage. *)
Theorem delete_current_sticks (chatId : string) (w : World) :
  Storage.getItem Storage.CURRENT_SESSION_ID (storage w) = Some (Storage.Text chatId) ->
  let w' := deleteCurrent fits chatId w in
  messages w' = [] /\
  Storage.getItem Storage.CURRENT_SESSION_ID (storage w') = None /\
  forall now s, Sidebar.checkForNewMessages fits now s (storage w')
                = Sidebar.Done s (storage w').
Proof using Type.
  intros Hc. cbn zeta. unfold deleteCurrent, forgetCurrent.
  rewrite Hc, String.eqb_refl. cbn [chatSwitch].
  unfold loadChatHistory. cbn [storage withStorage].
  assert (Hgone : Storage.getItem Storage.CHAT_HISTORY
                    (Storage.removeItem Storage.CURRENT_SESSION_ID
                       (Storage.removeItem Storage.CHAT_HISTORY (storage w))) = None).
  { unfold Storage.getItem, Storage.removeItem. cbn.
    rewrite lookup_delete_ne by discriminate. apply lookup_delete_eq. }
  rewrite Hgone. split; [reflexivity|]. split.
  - cbn [storage setMessages]. rewrite saveMessages_other by discriminate.
    unfold Storage.getItem, Storage.removeItem. cbn. apply lookup_delete_eq.
  - intros now s. cbn [storage setMessages]. unfold Sidebar.checkForNewMessages.
    match goal with
    | |- context [saveMessages fits [] ?x] =>
        destruct (saveMessages_empty x) as [E|E]; now rewrite E
    end.
Qed.

Lemma newSession_accepted (now : Z) (st : Storage.t) :
  fits (<[Storage.CURRENT_SESSION_ID :=
            Storage.Text ("session-" +:+ Js.digits (Z.to_N now))]> (Storage.items st))
  = true ->
  exists st1,
    Index.handleNewChat fits now st = (true, Storage.removeItem Storage.CHAT_HISTORY st1) /\
    Storage.getItem Storage.CURRENT_SESSION_ID st1
    = Some (Storage.Text ("session-" +:+ Js.digits (Z.to_N now))).
Proof using Type.
  intros Hf. unfold Index.handleNewChat, Storage.setItem. rewrite Hf.
  eexists. split; [reflexivity|]. unfold Storage.getItem. cbn. apply lookup_insert_eq.
Qed.

(** X13.  The new-chat button, when the storage takes the new session id:
    the chat area is emptied, typing stops, the controller of a pending
    request is aborted, the new id is the current session, and the next
    poll of the sidebar changes nothing, so no session appears in the index
    before a message is sent. *)
Theorem new_chat_resets (now : Z) (w : World) :
  fits (<[Storage.CURRENT_SESSION_ID :=
            Storage.Text ("session-" +:+ Js.digits (Z.to_N now))]>
          (Storage.items (storage w))) = true ->
  let w' := newChat fits now w in
  messages w' = [] /\ inputValue w' = EmptyString /\ isTyping w' = false /\
  currentAbortController w' = None /\
  (forall c, currentAbortController w = Some c -> c ∈ aborted w') /\
  Storage.getItem Storage.CURRENT_SESSION_ID (storage w')
  = Some (Storage.Text ("session-" +:+ Js.digits (Z.to_N now))) /\
  forall now' s, Sidebar.checkForNewMessages fits now' s (storage w')
                 = Sidebar.Done s (storage w').
Proof using Type.
  intros Hf. cbn zeta. unfold newChat.
  destruct (newSession_accepted now (storage w) Hf) as (st1 & -> & Hid).
  unfold loadChatHistory. cbn [storage withStorage].
  assert (Hgone : Storage.getItem Storage.CHAT_HISTORY
                    (Storage.removeItem Storage.CHAT_HISTORY st1) = None).
  { unfold Storage.getItem, Storage.removeItem. cbn. apply lookup_delete_eq. }
  rewrite Hgone. unfold Lifecycle.handleNewChat.
  cbn [messages inputValue isTyping currentAbortController aborted storage
       setMessages withStorage].
  split; [reflexivity|]. split; [reflexivity|]. split; [reflexivity|].
  split; [reflexivity|]. split; [|split].
  - intros c Hc. cbn. rewrite Hc. apply elem_of_union. left. now apply elem_of_singleton.
  - rewrite !saveMessages_other by discriminate.
    unfold Storage.getItem, Storage.removeItem. cbn.
    rewrite lookup_delete_ne by discriminate. exact Hid.
  - intros now' s. unfold Sidebar.checkForNewMessages.
    match goal with
    | |- context [saveMessages fits [] ?x] =>
        destruct (saveMessages_empty x) as [E|E]; now rewrite E
    end.
Qed.

(** X14.  The new-chat button, when the storage refuses the new session
    id: the exception leaves the handler before the event and before
    [onNewChat], so the chat area keeps its messages, its typing state and
    its pending request, and the storage keeps its content. *)
Theorem new_chat_refused (now : Z) (w : World) :
  fits (<[Storage.CURRENT_SESSION_ID :=
            Storage.Text ("session-" +:+ Js.digits (Z.to_N now))]>
          (Storage.items (storage w))) = false ->
  let w' := newChat fits now w in
  messages w' = messages w /\ inputValue w' = inputValue w /\
  isTyping w' = isTyping w /\
  currentAbortController w' = currentAbortController w /\
  aborted w' = aborted w /\
  Storage.items (storage w') = Storage.items (storage w).
Proof using Type.
  intros Hf. cbn zeta. unfold newChat, Index.handleNewChat, Storage.setItem.
  rewrite Hf. now cbn.
Qed.
End Runtime.

Lemma chat_area_keeps_other_keys_witness :
  Storage.CURRENT_SESSION_ID <> Storage.CHAT_HISTORY /\
  Storage.getItem Storage.CURRENT_SESSION_ID
    (storage (run Sample.roomy
                  (App.withStorage Sample.salesStorage Sample.idle)
                  [Send "Now by region" None 3000 "9:02 AM"; NewChat]))
  = Some (Storage.Text "session-1").
Proof.
  assert (Hk : Storage.CURRENT_SESSION_ID <> Storage.CHAT_HISTORY) by discriminate.
  split; [exact Hk|].
  rewrite (chat_area_keeps_other_keys Sample.roomy _ _ _ Hk). reflexivity.
Defined.

Lemma select_shows_session_witness :
  messages (selectChat Sample.roomy Sample.salesSession Sample.awaiting)
  = [Sample.question].
Proof.
  apply (select_shows_session Sample.roomy Sample.salesSession Sample.awaiting
           (snd (handleChatSelect Sample.roomy Sample.salesSession
                                  (storage Sample.awaiting)))).
  reflexivity.
Defined.

Lemma pending_reply_follows_selection_witness :
  messages (settle Sample.roomy 0 (Resolved "52,000") 2000 "9:01 AM"
                   (selectChat Sample.roomy Sample.salesSession Sample.awaiting))
  = [Sample.question; assistantMessage 2000 "9:01 AM" "52,000"].
Proof.
  apply (pending_reply_follows_selection Sample.roomy Sample.salesSession
           Sample.awaiting
           (snd (handleChatSelect Sample.roomy Sample.salesSession
                                  (storage Sample.awaiting)))).
  - reflexivity.
  - cbn. now left.
  - cbn. apply not_elem_of_empty.
Defined.

Lemma delete_current_sticks_witness :
  messages (deleteCurrent Sample.roomy "session-1"
              (App.withStorage Sample.salesStorage Sample.awaiting)) = [].
Proof.
  apply (delete_current_sticks Sample.roomy "session-1"
           (App.withStorage Sample.salesStorage Sample.awaiting)).
  reflexivity.
Defined.

Lemma new_chat_resets_witness :
  messages (newChat Sample.roomy 5000 Sample.awaiting) = [] /\
  0 ∈ aborted (newChat Sample.roomy 5000 Sample.awaiting).
Proof.
  destruct (new_chat_resets Sample.roomy 5000 Sample.awaiting eq_refl)
    as (Hm & _ & _ & _ & Hab & _).
  split; [exact Hm|]. apply Hab. reflexivity.
Defined.

Lemma new_chat_refused_witness :
  messages (newChat Sample.full 5000 Sample.awaiting) = messages Sample.awaiting.
Proof.
  apply (new_chat_refused Sample.full 5000 Sample.awaiting). reflexivity.
Defined.

End AppFacts.
(** ** Titles *)

Module TitleFacts.
Import Js.

Lemma unitsOf_le (c : ascii) : unitsOf c <= 2.
Proof.
  unfold unitsOf. destruct (_ <? 128); [lia|].
  destruct (_ <? 192); [lia|]. destruct (_ <? 240); lia.
Qed.

Lemma units_append (a b : string) : units (a +:+ b) = units a + units b.
Proof.
  induction a as [|c a IH]; [reflexivity|].
  rewrite StringFacts.append_cons. cbn [units]. rewrite IH. lia.
Qed.

Lemma continuation_units (n : N) :
  (n < 64)%N -> unitsOf (ascii_of_N (128 + n)) = 0.
Proof.
  intros Hn. unfold unitsOf, nat_of_ascii.
  rewrite N_ascii_embedding by lia.
  destruct (Nat.ltb_spec (N.to_nat (128 + n)) 128) as [H|H]; [lia|].
  destruct (Nat.ltb_spec (N.to_nat (128 + n)) 192) as [H'|H']; [reflexivity|lia].
Qed.

Lemma highSurrogate_units (c c1 c2 : ascii) : units (highSurrogate c c1 c2) = 1.
Proof.
  unfold highSurrogate. cbn [units].
  rewrite !continuation_units by (apply N.mod_lt; discriminate).
  reflexivity.
Qed.

(** [substring(0, n)] has at most [n] code units. *)
Lemma substringTo_units (n : nat) (s : string) : units (substringTo n s) <= n.
Proof.
  revert n. induction s as [|c s IH]; intros n; [cbn; lia|].
  cbn [substringTo]. pose proof (unitsOf_le c) as Hc.
  destruct (unitsOf c) as [|[|k]] eqn:E.
  - cbn [units]. rewrite E. apply IH.
  - destruct n as [|n]; [cbn; lia|]. cbn [units]. rewrite E.
    pose proof (IH n). lia.
  - destruct n as [|[|n]]; [cbn; lia| |].
    + destruct s as [|c1 [|c2 s]]; [cbn; lia|cbn; lia|].
      rewrite highSurrogate_units. lia.
    + cbn [units]. rewrite E. pose proof (IH n). lia.
Qed.

(** A string of at most [n] code units is its own [substring(0, n)]. *)
Lemma substringTo_all (n : nat) (s : string) : units s <= n -> substringTo n s = s.
Proof.
  revert n. induction s as [|c s IH]; intros n H; [reflexivity|].
  cbn [units] in H. cbn [substringTo].
  destruct (unitsOf c) as [|[|k]] eqn:E.
  - f_equal. apply IH. lia.
  - destruct n as [|n]; [lia|]. f_equal. apply IH. lia.
  - destruct n as [|[|n]]; [lia|lia|]. f_equal. apply IH. lia.
Qed.

Lemma sidebar_title_length (content : string) :
  units (Sidebar.titleOf content) <= 33.
Proof.
  unfold Sidebar.titleOf. rewrite units_append.
  pose proof (substringTo_units 30 content).
  destruct (30 <? units content)%nat.
  - change (units "...") with 3. lia.
  - change (units "") with 0. lia.
Qed.

Lemma sidebar_title_short (content : string) :
  units content <= 30 -> Sidebar.titleOf content = content.
Proof.
  intros H. unfold Sidebar.titleOf.
  rewrite (proj2 (Nat.ltb_ge 30 (units content)) H).
  rewrite substringTo_all by exact H. apply RewriteFacts.append_nil_r.
Qed.

Lemma In_insert {A} (i : nat) (x y : A) (l : list A) :
  In y (<[i := x]> l) -> y = x \/ In y l.
Proof.
  revert i. induction l as [|z l IH]; intros [|i] H; cbn in H; try now right.
  - destruct H as [<-|H]; [now left|right; now right].
  - destruct H as [<-|H]; [right; now left|].
    destruct (IH i H) as [->|Hin]; [now left|right; now right].
Qed.

Lemma In_firstn {A} (n : nat) (y : A) (l : list A) : In y (firstn n l) -> In y l.
Proof.
  intros H. rewrite <- (firstn_skipn n l). apply in_or_app. now left.
Qed.

Section Quota.
Variable fits : gmap string Storage.Stored -> bool.

(** X15.  What a poll puts in the index: every session of the new index
    is a session of the old one or the entry of the current session, whose
    title is made of the first stored user message, has at most 33 code
    units, and is that message when it has at most 30. *)
Theorem poll_entry_shape (now : Z) (s s' : Sidebar.State) (st st' : Storage.t)
        (stored : list Message.t) (chat : Session.t) :
  Storage.getItem Storage.CHAT_HISTORY st = Some (Storage.Messages stored) ->
  Sidebar.checkForNewMessages fits now s st = Sidebar.Done s' st' ->
  In chat (Sidebar.chatHistory s') ->
  In chat (Sidebar.chatHistory s) \/
  exists first,
    find (fun msg => String.eqb (Message.type msg) "user") stored = Some first /\
    Session.title chat = Sidebar.titleOf (Message.content first) /\
    units (Session.title chat) <= 33 /\
    (units (Message.content first) <= 30 ->
     Session.title chat = Message.content first) /\
    Session.messages chat = map Sidebar.cleanMessage stored.
Proof using Type.
  intros Hst. unfold Sidebar.checkForNewMessages. rewrite Hst.
  destruct stored as [|m stored]; [intros H; injection H as <- <-; now left|].
  destruct (find _ (m :: stored)) as [first|] eqn:Ef;
    [|intros H; injection H as <- <-; now left].
  match goal with
  | |- context [Sidebar.updateHistory fits ?i ?t ?ms ?p st] =>
      destruct (Sidebar.updateHistory fits i t ms p st) as [[h|] st1] eqn:E;
      [|discriminate]
  end.
  intros H Hin. injection H as <- <-. cbn [Sidebar.chatHistory] in Hin.
  apply IndexFacts.updateHistory_cases in E as [[->| ->] _].
  - unfold Sidebar.nextHistory in Hin.
    assert (Hcase : chat = Sidebar.currentSession
                             match Storage.getItem Storage.CURRENT_SESSION_ID st with
                             | Some (Storage.Text id) =>
                                 if truthy id then id
                                 else "session-" +:+ digits (Z.to_N now)
                             | _ => "session-" +:+ digits (Z.to_N now)
                             end
                             (Sidebar.titleOf (Message.content first)) (m :: stored)
                   \/ In chat (Sidebar.chatHistory s)).
    { destruct (Sidebar.findIndex _ _) as [i|].
      - now apply In_insert in Hin.
      - destruct Hin as [<-|Hin]; [now left|right]. now apply In_firstn in Hin. }
    destruct Hcase as [->|Hold]; [right|now left].
    exists first. split; [reflexivity|]. split; [reflexivity|].
    split; [apply sidebar_title_length|]. split; [apply sidebar_title_short|reflexivity].
  - destruct Hin as [<-|[]]. right.
    exists first. split; [reflexivity|]. split; [reflexivity|].
    split; [apply sidebar_title_length|]. split; [apply sidebar_title_short|reflexivity].
Qed.
End Quota.

Lemma poll_entry_shape_witness :
  exists first,
    find (fun msg => String.eqb (Message.type msg) "user")
         [Sample.accented; Sample.followUp] = Some first /\
    "Résumé des ventes par région e..." = Sidebar.titleOf (Message.content first) /\
    units "Résumé des ventes par région e..." <= 33 /\
    (units (Message.content first) <= 30 ->
     "Résumé des ventes par région e..." = Message.content first) /\
    [Sample.accented; Sample.followUp]
    = map Sidebar.cleanMessage [Sample.accented; Sample.followUp].
Proof.
  destruct (poll_entry_shape Sample.roomy 5000 Sample.crowded
              (Sidebar.mkState
                 (Session.mk "session-9" "Résumé des ventes par région e..."
                             [Sample.accented; Sample.followUp]
                  :: firstn 4 Sample.fiveSessions) None None EmptyString)
              Sample.crowdedStorage
              (Sidebar.storageOf (Sidebar.checkForNewMessages Sample.roomy 5000
                                    Sample.crowded Sample.crowdedStorage))
              [Sample.accented; Sample.followUp]
              (Session.mk "session-9" "Résumé des ventes par région e..."
                          [Sample.accented; Sample.followUp])
              eq_refl eq_refl (or_introl eq_refl)) as [Hold|Hnew].
  - exfalso. cbn in Hold.
    repeat (destruct Hold as [Hold|Hold]; [discriminate Hold|]). destruct Hold.
  - exact Hnew.
Defined.

End TitleFacts.

(** ** The chat list of the hook *)

Module ChatsFacts.
Import Hook Chats.

(** The title that a chat titled [t] has after the messages [ms]. *)
Lemma title_step (t : string) (m : Message) (ms : list Message) :
  (forall first, find isUser (m :: ms) = Some first ->
                 String.eqb t NEW_CHAT = true ->
                 titleOf (content first) <> NEW_CHAT) ->
  (if String.eqb (if String.eqb t NEW_CHAT && isUser m then titleOf (content m) else t)
                 NEW_CHAT
   then match find isUser ms with
        | Some f => titleOf (content f)
        | None => if String.eqb t NEW_CHAT && isUser m then titleOf (content m) else t
        end
   else if String.eqb t NEW_CHAT && isUser m then titleOf (content m) else t)
  = (if String.eqb t NEW_CHAT
     then match find isUser (m :: ms) with Some f => titleOf (content f) | None => t end
     else t).
Proof.
  intros Hfirst. cbn [find] in *.
  destruct (String.eqb t NEW_CHAT) eqn:Et; cbn [andb].
  - destruct (isUser m) eqn:Eu.
    + pose proof (Hfirst m eq_refl eq_refl) as Hne. apply String.eqb_neq in Hne.
      now rewrite Hne.
    + rewrite Et. destruct (find isUser ms); reflexivity.
  - now rewrite Et.
Qed.

Lemma addMessages_head (id : string) (arrivals : list (Message * Z))
      (chat : ChatHistory) (rest : list ChatHistory) :
  chatId chat = id ->
  (forall first, find isUser (map fst arrivals) = Some first ->
                 String.eqb (title chat) NEW_CHAT = true ->
                 titleOf (content first) <> NEW_CHAT) ->
  exists chat' rest',
    addMessages id arrivals (chat :: rest) = chat' :: rest' /\
    chatId chat' = id /\
    messages chat' = messages chat ++ map fst arrivals /\
    createdAt chat' = createdAt chat /\
    title chat' =
      (if String.eqb (title chat) NEW_CHAT
       then match find isUser (map fst arrivals) with
            | Some f => titleOf (content f)
            | None => title chat
            end
       else title chat).
Proof.
  revert chat rest. induction arrivals as [|[m now] arrivals IH]; intros chat rest Hid Hfirst.
  - exists chat, rest. cbn. rewrite app_nil_r.
    repeat split; try assumption. now destruct (String.eqb (title chat) NEW_CHAT).
  - unfold addMessages. cbn [fold_left fst snd].
    unfold addMessageToChat at 2. cbn [map]. rewrite Hid, String.eqb_refl.
    match goal with
    | |- context [fold_left ?f arrivals (?c :: ?r)] =>
        destruct (IH c r) as (chat' & rest' & Hrun & Hid' & Hms & Hcr & Ht)
    end.
    + reflexivity.
    + cbn [title]. intros first Hf Hnew.
      destruct (String.eqb (title chat) NEW_CHAT) eqn:Et; cbn [andb] in Hnew.
      * destruct (isUser m) eqn:Eu.
        -- exfalso. apply String.eqb_eq in Hnew.
           apply (Hfirst m); [cbn [map fst find]; now rewrite Eu|reflexivity|exact Hnew].
        -- apply Hfirst; [cbn [map fst find]; now rewrite Eu|reflexivity].
      * congruence.
    + exists chat', rest'. fold (addMessages id arrivals) in Hrun.
      split; [exact Hrun|]. split; [exact Hid'|].
      split; [rewrite Hms; cbn [messages map fst]; now rewrite <- app_assoc|].
      split; [exact Hcr|].
      rewrite Ht. cbn [title map fst].
      apply (title_step (title chat) m (map fst arrivals)). exact Hfirst.
Qed.

(** X16.  The first chat of the list has the placeholder title and no
    message yet.  When it receives its messages one by one it ends with
    the title that replacing the list at once gives it, the first user
    message cut after fifty code units (the placeholder when there is no
    user message), and with the same messages, as long as that title is
    not the text [New Chat] itself. *)
Theorem title_of_first_user_message (id : string) (created updated now : Z)
        (arrivals : list (Message * Z)) (rest : list ChatHistory) :
  (forall first, find isUser (map fst arrivals) = Some first ->
                 titleOf (content first) <> NEW_CHAT) ->
  let chats := mkChat id NEW_CHAT [] created updated :: rest in
  let oneByOne := getCurrentChat (addMessages id arrivals chats) (Some id) in
  let atOnce := getCurrentChat (updateChatMessages id (map fst arrivals) now chats)
                               (Some id) in
  option_map title oneByOne = option_map title atOnce /\
  option_map messages oneByOne = Some (map fst arrivals) /\
  option_map messages atOnce = Some (map fst arrivals) /\
  option_map title atOnce
  = Some (match find isUser (map fst arrivals) with
          | Some first =>
              if (50 <? Js.units (content first))%nat
              then Js.substringTo 50 (content first) +:+ "..."
              else content first
          | None => NEW_CHAT
          end).
Proof.
  intros Hfirst. cbn zeta.
  destruct (addMessages_head id arrivals (mkChat id NEW_CHAT [] created updated) rest
              eq_refl) as (chat' & rest' & -> & Hid & Hms & _ & Ht).
  { intros first Hf _. now apply Hfirst. }
  cbn [getCurrentChat find]. rewrite Hid, String.eqb_refl.
  cbn [option_map]. rewrite Ht, Hms. cbn [title messages app].
  unfold updateChatMessages. cbn [map chatId]. rewrite String.eqb_refl.
  cbn [find chatId]. rewrite String.eqb_refl. cbn [option_map title messages].
  rewrite String.eqb_refl. cbn [andb].
  destruct (map fst arrivals) as [|m0 l].
  - repeat split; reflexivity.
  - change (0 <? length (m0 :: l))%nat with true. cbn [andb].
    repeat split; reflexivity.
Qed.

Lemma title_of_first_user_message_witness :
  option_map title
    (getCurrentChat (addMessages "c1" Chats.arrivals [mkChat "c1" NEW_CHAT [] 1 1])
                    (Some "c1"))
  = Some "Résumé des ventes par région et par trimestre pour...".
Proof.
  destruct (title_of_first_user_message "c1" 1 1 12 Chats.arrivals [])
    as (H1 & _ & _ & H2).
  - intros first Hf. apply (inj Some) in Hf. subst first. vm_compute. discriminate.
  - rewrite H1. exact H2.
Defined.

End ChatsFacts.

(** ** The upload classifier: support, size window, file names *)

Module ClassifierFacts.
Import Js Upload UploadFacts.

Lemma sizeLimit_window (type : string) (l : N) :
  sizeLimitFor type = Bytes l -> (10 * MB <= l <= 200 * MB)%N.
Proof.
  unfold sizeLimitFor, Js.get.
  destruct (assoc type FILE_SIZE_LIMITS) as [l0|] eqn:E.
  - apply assoc_In in E. simpl in E.
    repeat (destruct E as [E|E];
            [inversion E; subst; intros H; injection H as <-; vm_compute;
             split; discriminate|]).
    destruct E.
  - destruct (existsb _ _); [discriminate|].
    intros H. injection H as <-. vm_compute. split; discriminate.
Qed.

Lemma sizeLimit_inherited (type : string) :
  sizeLimitFor type = NotANumber -> existsb (String.eqb type) OBJECT_PROTOTYPE = true.
Proof.
  unfold sizeLimitFor, Js.get.
  destruct (assoc type FILE_SIZE_LIMITS) as [l0|]; [destruct (_ =? _)%N; discriminate|].
  destruct (existsb _ _); [reflexivity|discriminate].
Qed.

Section Locale.
Variable toLowerCase toUpperCase : string -> string.

Lemma validateFile_accepts (file : File.t) :
  validateFile toLowerCase toUpperCase file = None <->
  is_Some (getFileInfo toLowerCase file)
  /\ match sizeLimitFor (File.type file) with
     | Bytes l => (File.size file <= l)%N
     | NotANumber => True
     end.
Proof using Type.
  destruct (getFileInfo toLowerCase file) as [found|] eqn:E.
  - rewrite (validateFile_resolved toLowerCase toUpperCase file found E).
    destruct (sizeLimitFor (File.type file)) as [l|].
    + destruct (N.ltb_spec l (File.size file)) as [Hlt|Hle].
      * split; [discriminate|]. intros [_ H]. lia.
      * split; [|reflexivity]. intros _. split; [now exists found|exact Hle].
    + split; [|reflexivity]. intros _. split; [now exists found|exact I].
  - rewrite (validateFile_unresolved toLowerCase toUpperCase file E).
    split; [discriminate|]. intros [[x Hx] _]. discriminate.
Qed.

Lemma isFileSupported_resolved (file : File.t) :
  isFileSupported toLowerCase file
  = bool_decide (is_Some (getFileInfo toLowerCase file)).
Proof using Type.
  unfold isFileSupported.
  pose proof (unsupported_test toLowerCase file) as H.
  rewrite <- !negb_orb in H. apply (f_equal negb) in H.
  now rewrite !negb_involutive in H.
Qed.

(** X17.  The two entry points agree on what is supported:
    [isFileSupported] holds exactly when [getFileInfo] returns something,
    an entry of the registry or a member that the tables inherit; it fails
    exactly when [validateFile] answers with the unsupported-format
    message; and for a file that [validateFile] accepts [getFileInfo]
    returns something. *)
Theorem support_agrees (file : File.t) :
  isFileSupported toLowerCase file
  = bool_decide (is_Some (getFileInfo toLowerCase file)) /\
  (isFileSupported toLowerCase file = false <->
   validateFile toLowerCase toUpperCase file = Some unsupportedMessage) /\
  (validateFile toLowerCase toUpperCase file = None ->
   is_Some (getFileInfo toLowerCase file)).
Proof using Type.
  pose proof (isFileSupported_resolved file) as Hs.
  split; [exact Hs|]. split.
  - rewrite Hs. destruct (getFileInfo toLowerCase file) as [found|] eqn:E.
    + rewrite (validateFile_resolved toLowerCase toUpperCase file found E).
      split.
      * intros H. apply bool_decide_eq_false_1 in H. destruct H. now exists found.
      * destruct (sizeLimitFor (File.type file)) as [l|]; [|discriminate].
        destruct (_ <? _)%N; [|discriminate].
        intros H. apply (inj Some) in H. exfalso. revert H.
        unfold tooLargeMessage, unsupportedMessage. simpl. discriminate.
    + rewrite (validateFile_unresolved toLowerCase toUpperCase file E).
      split; [reflexivity|].
      intros _. apply bool_decide_eq_false_2. intros [x Hx]. discriminate.
  - intros H. now apply validateFile_accepts in H as [H _].
Qed.

(** X18.  The size window of the classifier.  Every limit that is a number
    lies between 10 MB and 200 MB: a file that is accepted has at most
    200 MB unless its type names a member of [Object.prototype], and a
    supported file of at most 10 MB is accepted whatever its type is.  A
    file whose type names a member of [Object.prototype] is accepted
    whatever its size and its name are. *)
Theorem size_window (file : File.t) :
  (validateFile toLowerCase toUpperCase file = None ->
   (File.size file <= 200 * MB)%N
   \/ existsb (String.eqb (File.type file)) OBJECT_PROTOTYPE = true) /\
  (isFileSupported toLowerCase file = true -> (File.size file <= 10 * MB)%N ->
   validateFile toLowerCase toUpperCase file = None) /\
  (existsb (String.eqb (File.type file)) OBJECT_PROTOTYPE = true ->
   validateFile toLowerCase toUpperCase file = None).
Proof using Type.
  split; [|split].
  - intros H. apply validateFile_accepts in H as [_ H].
    destruct (sizeLimitFor (File.type file)) as [l|] eqn:El.
    + left. pose proof (sizeLimit_window _ _ El). lia.
    + right. now apply sizeLimit_inherited.
  - intros Hs Hsize. apply validateFile_accepts. split.
    + rewrite isFileSupported_resolved in Hs. now apply bool_decide_eq_true_1 in Hs.
    + destruct (sizeLimitFor (File.type file)) as [l|] eqn:El; [|exact I].
      pose proof (sizeLimit_window _ _ El). lia.
  - intros Hp. apply findByMime_inherited in Hp as [Hm Hl].
    apply validateFile_accepts. rewrite Hl. split; [|exact I].
    unfold getFileInfo. rewrite Hm. now eexists.
Qed.

Lemma split_no_dot (e : string) :
  occurs "." e = false -> split "." e = [e].
Proof using Type.
  induction e as [|c e IH]; [reflexivity|].
  cbn [occurs split]. intros H. apply orb_false_iff in H as [Hc He].
  rewrite Hc, (IH He). reflexivity.
Qed.

Lemma split_app (sep : ascii) (a b : string) :
  split sep (a +:+ String sep b) = split sep a ++ split sep b.
Proof using Type.
  induction a as [|c a IH].
  - rewrite StringFacts.append_nil_l. cbn [split]. now rewrite Ascii.eqb_refl.
  - rewrite StringFacts.append_cons. cbn [split]. rewrite IH.
    destruct (Ascii.eqb c sep); [reflexivity|].
    destruct (split sep a) as [|h t] eqn:Ea; [|reflexivity].
    destruct a as [|c' a]; cbn [split] in Ea; [discriminate|].
    destruct (Ascii.eqb c' sep); [discriminate|].
    destruct (split sep a); discriminate.
Qed.

Lemma pop_last (a : list string) (x : string) : pop (a ++ [x]) = Some x.
Proof using Type.
  induction a as [|y a IH]; [reflexivity|].
  cbn [app pop]. destruct (a ++ [x]) eqn:E; [now destruct a|exact IH].
Qed.

Lemma pop_split_dot (base e : string) :
  occurs "." e = false ->
  pop (split "." (base +:+ "." +:+ e)) = Some e.
Proof using Type.
  intros He. rewrite StringFacts.append_cons, StringFacts.append_nil_l.
  rewrite split_app, (split_no_dot e He). apply pop_last.
Qed.

(** X20.  What the classifier reads of a file name: the text after the last
    dot, converted to lower case; a name without a dot counts as a whole
    as its own extension. *)
Theorem extension_of_name (base e : string) :
  occurs "." e = false ->
  extensionOf toLowerCase (base +:+ "." +:+ e) = "." +:+ toLowerCase e /\
  extensionOf toLowerCase e = "." +:+ toLowerCase e.
Proof using Type.
  intros He. unfold extensionOf.
  now rewrite (pop_split_dot base e He), (split_no_dot e He).
Qed.

Lemma lower_upper (c : ascii) : lowerChar (upperChar c) = lowerChar c.
Proof using Type. destruct c as [[] [] [] [] [] [] [] []]; vm_compute; reflexivity. Qed.

Lemma upper_dot (c : ascii) : Ascii.eqb (upperChar c) "." = Ascii.eqb c ".".
Proof using Type. destruct c as [[] [] [] [] [] [] [] []]; vm_compute; reflexivity. Qed.

Lemma upper_ascii (c : ascii) :
  (nat_of_ascii (upperChar c) <? 128) = (nat_of_ascii c <? 128).
Proof using Type. destruct c as [[] [] [] [] [] [] [] []]; vm_compute; reflexivity. Qed.

Lemma split_mapChars (f : ascii -> ascii) (sep : ascii) (s : string) :
  (forall c, Ascii.eqb (f c) sep = Ascii.eqb c sep) ->
  split sep (mapChars f s) = map (mapChars f) (split sep s).
Proof using Type.
  intros Hf. induction s as [|c s IH]; [reflexivity|].
  cbn [mapChars split]. rewrite Hf, IH.
  destruct (Ascii.eqb c sep); [reflexivity|].
  now destruct (split sep s).
Qed.

Lemma pop_map (g : string -> string) (a : list string) :
  pop (map g a) = option_map g (pop a).
Proof using Type.
  induction a as [|x a IH]; [reflexivity|].
  destruct a as [|y a]; [reflexivity|]. exact IH.
Qed.

Lemma pop_In (a : list string) (x : string) : pop a = Some x -> In x a.
Proof using Type.
  induction a as [|y a IH]; [discriminate|].
  destruct a as [|z a]; [intros H; injection H as ->; now left|].
  intros H. right. now apply IH.
Qed.

Lemma split_ascii (sep : ascii) (s x : string) :
  isAscii s = true -> In x (split sep s) -> isAscii x = true.
Proof using Type.
  revert x. induction s as [|c s IH]; intros x Hs Hx.
  - destruct Hx as [<-|[]]. reflexivity.
  - cbn [isAscii] in Hs. apply andb_true_iff in Hs as [Hc Hs].
    cbn [split] in Hx. destruct (Ascii.eqb c sep).
    + destruct Hx as [<-|Hx]; [reflexivity|now apply IH].
    + destruct (split sep s) as [|h t] eqn:E.
      * destruct Hx as [<-|[]]. cbn [isAscii]. now rewrite Hc.
      * destruct Hx as [<-|Hx].
        -- cbn [isAscii]. rewrite Hc. apply IH; [exact Hs|now left].
        -- apply IH; [exact Hs|now right].
Qed.

Lemma upper_keeps_ascii (s : string) : isAscii (asciiUpperCase s) = isAscii s.
Proof using Type.
  unfold asciiUpperCase. induction s as [|c s IH]; [reflexivity|].
  cbn [mapChars isAscii]. now rewrite upper_ascii, IH.
Qed.

Lemma lower_upper_string (s : string) :
  asciiLowerCase (asciiUpperCase s) = asciiLowerCase s.
Proof using Type.
  unfold asciiLowerCase, asciiUpperCase.
  induction s as [|c s IH]; cbn [mapChars]; [reflexivity|].
  now rewrite lower_upper, IH.
Qed.

Lemma same_extension (name name' type : string) (size : N) :
  extensionOf toLowerCase name' = extensionOf toLowerCase name ->
  getFileInfo toLowerCase (File.mk name' type size)
  = getFileInfo toLowerCase (File.mk name type size) /\
  validateFile toLowerCase toUpperCase (File.mk name' type size)
  = validateFile toLowerCase toUpperCase (File.mk name type size) /\
  isFileSupported toLowerCase (File.mk name' type size)
  = isFileSupported toLowerCase (File.mk name type size).
Proof using Type.
  intros H. unfold validateFile, isFileSupported, getFileInfo.
  cbn [File.name File.type File.size]. now rewrite H.
Qed.

(** On strings of ASCII characters the conversions are the mappings of the
    letters. *)
Hypothesis toLowerCase_ascii :
  forall s, isAscii s = true -> toLowerCase s = asciiLowerCase s.
Hypothesis toUpperCase_ascii :
  forall s, isAscii s = true -> toUpperCase s = asciiUpperCase s.

Lemma extensionOf_upper (name : string) :
  isAscii name = true ->
  extensionOf toLowerCase (toUpperCase name) = extensionOf toLowerCase name.
Proof using toLowerCase_ascii toUpperCase_ascii.
  intros Ha. rewrite (toUpperCase_ascii name Ha).
  unfold extensionOf, asciiUpperCase at 1.
  rewrite (split_mapChars upperChar "." name upper_dot), pop_map.
  destruct (pop (split "." name)) as [seg|] eqn:E; cbn [option_map]; [|reflexivity].
  assert (Hseg : isAscii seg = true) by (apply (split_ascii "." name); [exact Ha|now apply pop_In]).
  fold (asciiUpperCase seg). f_equal.
  rewrite !toLowerCase_ascii; [apply lower_upper_string|exact Hseg|].
  now rewrite upper_keeps_ascii.
Qed.

(** X19.  For a file name of ASCII characters the classifier ignores the
    case: writing the name in capitals changes neither what [getFileInfo]
    finds nor the answers of [validateFile] and [isFileSupported]. *)
Theorem name_case_ignored (name type : string) (size : N) :
  isAscii name = true ->
  getFileInfo toLowerCase (File.mk (toUpperCase name) type size)
  = getFileInfo toLowerCase (File.mk name type size) /\
  validateFile toLowerCase toUpperCase (File.mk (toUpperCase name) type size)
  = validateFile toLowerCase toUpperCase (File.mk name type size) /\
  isFileSupported toLowerCase (File.mk (toUpperCase name) type size)
  = isFileSupported toLowerCase (File.mk name type size).
Proof using toLowerCase_ascii toUpperCase_ascii.
  intros Ha. apply same_extension, extensionOf_upper, Ha.
Qed.
End Locale.

Lemma extension_of_name_witness :
  extensionOf asciiLowerCase "Q3.Report.CSV" = ".csv"
  /\ extensionOf asciiLowerCase "parquet" = ".parquet".
Proof.
  split.
  - apply (extension_of_name asciiLowerCase "Q3.Report" "CSV"). reflexivity.
  - apply (extension_of_name asciiLowerCase "" "parquet"). reflexivity.
Defined.

Lemma name_case_ignored_witness :
  validateFile asciiLowerCase asciiUpperCase (File.mk "SALES.IPYNB" "" 1024)
  = validateFile asciiLowerCase asciiUpperCase (File.mk "sales.ipynb" "" 1024).
Proof.
  apply (name_case_ignored asciiLowerCase asciiUpperCase
           (fun s _ => eq_refl) (fun s _ => eq_refl) "sales.ipynb" "" 1024).
  reflexivity.
Defined.

End ClassifierFacts.

(** ** Inline code *)

Module InlineFacts.
Import Js Regex Rewrite Inline StringFacts RegexFacts RewriteFacts.

Lemma unparse_app (a b : list Piece) : unparse (a ++ b) = unparse a +:+ unparse b.
Proof.
  induction a as [|p a IH]; [reflexivity|].
  cbn [app unparse fold_right]. fold (unparse (a ++ b)) (unparse a).
  now rewrite IH, append_assoc.
Qed.

Lemma unparse_spanOf (t : string) : unparse (spanOf t) = t.
Proof.
  unfold spanOf. destruct t as [|c t]; [reflexivity|].
  cbn [truthy unparse fold_right source]. apply append_nil_r.
Qed.

Lemma span_take (cls : ascii -> bool) (n : nat) (s : string) :
  n <= span cls s -> span cls (take n s) = String.length (take n s).
Proof.
  revert s. induction n as [|n IH]; intros s H; [reflexivity|].
  destruct s as [|c s]; [reflexivity|]. cbn [span] in H.
  destruct (cls c) eqn:Ec; [|lia].
  cbn [take span String.length]. rewrite Ec. f_equal. apply IH. lia.
Qed.

Lemma span_le_length (cls : ascii -> bool) (s : string) : span cls s <= String.length s.
Proof.
  induction s as [|c s IH]; [reflexivity|]. cbn. destruct (cls c); lia.
Qed.

Lemma codeChar_plain (t : string) :
  span codeChar t = String.length t ->
  occurs "`" t = false /\ occurs "010" t = false.
Proof.
  induction t as [|c t IH]; intros H; [now split|].
  cbn [span String.length] in H. destruct (codeChar c) eqn:Ec; [|discriminate].
  injection H as H. destruct (IH H) as [H1 H2].
  unfold codeChar in Ec. apply negb_true_iff, orb_false_iff in Ec as [E1 E2].
  cbn [occurs]. now rewrite E1, E2, H1, H2.
Qed.

(** What a match of the pattern is made of. *)
Lemma inline_match (s : string) gs (rest : string) :
  matchHere inlineCodeRegex s = Some (gs, rest) ->
  exists g,
    gs = [Some g] /\ s = BACKTICK +:+ g +:+ BACKTICK +:+ rest /\
    g <> EmptyString /\ span codeChar g = String.length g.
Proof.
  unfold matchHere. intros H.
  assert (Hin : In (gs, rest) (matches inlineCodeRegex s)).
  { destruct (matches inlineCodeRegex s) as [|m ms]; [discriminate|].
    injection H as ->. now left. }
  clear H. unfold inlineCodeRegex in Hin. rewrite matches_lit in Hin.
  destruct (startsWith s BACKTICK) eqn:Es; [|destruct Hin].
  apply SanitizerFacts.startsWith_take in Es.
  set (s1 := drop (String.length BACKTICK) s) in *.
  rewrite matches_rep in Hin. apply in_flat_map in Hin as (n & Hn & Hin).
  apply in_map_iff in Hin as (m' & Heq & Hin).
  rewrite matches_lit in Hin.
  destruct (startsWith (drop n s1) BACKTICK) eqn:E2; [|destruct Hin].
  apply SanitizerFacts.startsWith_take in E2.
  destruct Hin as [<-|[]]. cbn [fst snd captured] in Heq.
  injection Heq as <- <-.
  unfold counts in Hn. apply in_rev, in_seq in Hn.
  pose proof (span_le_length codeChar s1) as Hk.
  exists (take n s1). split; [reflexivity|]. split; [|split].
  - transitivity (BACKTICK +:+ s1); [exact Es|]. f_equal.
    transitivity (take n s1 +:+ drop n s1); [symmetry; apply take_drop|].
    f_equal. exact E2.
  - intros Hnil. apply (f_equal String.length) in Hnil.
    rewrite take_length in Hnil by lia. cbn in Hnil. lia.
  - apply span_take. lia.
Qed.

Section Text.
Variable text : string.

Lemma match_parts (s : string) (m : result) :
  exec inlineCodeRegex s 0 = Some m ->
  exists g,
    groups m = [Some g] /\
    take (size m) (drop (index m) s) = BACKTICK +:+ g +:+ BACKTICK /\
    g <> EmptyString /\ span codeChar g = String.length g.
Proof using Type.
  intros H. apply exec_spec in H as (k & Hi & Hk & Hm & Hs & _).
  cbn in Hi. subst k. apply inline_match in Hm as (g & Hg & Hd & Hne & Hcls).
  exists g. split; [exact Hg|]. split; [|now split].
  rewrite Hs, Hd.
  replace (BACKTICK +:+ g +:+ BACKTICK +:+ after m)
    with ((BACKTICK +:+ g +:+ BACKTICK) +:+ after m)
    by (now rewrite !append_assoc).
  rewrite length_append.
  replace (String.length (BACKTICK +:+ g +:+ BACKTICK) + String.length (after m)
           - String.length (after m))
    with (String.length (BACKTICK +:+ g +:+ BACKTICK)) by lia.
  apply take_append.
Qed.

Lemma inline_keep (fuel last : nat) :
  last <= String.length text ->
  unparse (inlineParts text last (execLoop fuel inlineCodeRegex (drop last text) last))
  = drop last text.
Proof using Type.
  revert last. induction fuel as [|fuel IH]; intros last Hlast.
  - cbn [execLoop inlineParts].
    destruct (Nat.ltb_spec last (String.length text)) as [Hlt|Hge].
    + apply unparse_spanOf.
    + cbn. symmetry. apply drop_all, Hge.
  - cbn [execLoop]. rewrite exec_pos.
    destruct (exec inlineCodeRegex (drop last text) 0) as [m|] eqn:E; cbn [option_map].
    + pose proof (match_parts _ _ E) as (g & Hg & Htake & _ & _).
      apply exec_parts in E as (Hle & Hafter & Hs). rewrite drop_length in Hle.
      cbn [reindex index size after inlineParts]. rewrite unparse_app.
      cbn [unparse fold_right].
      fold (unparse (inlineParts text (last + index m + size m)
                       (execLoop fuel inlineCodeRegex (after m) (last + index m + size m)))).
      unfold group. cbn [groups reindex Nat.sub nth_error]. rewrite Hg.
      cbn [nth_error Parser.text default source].
      etransitivity; [|symmetry; exact Hs]. f_equal.
      * unfold slice. replace (last + index m - last) with (index m) by lia.
        destruct (Nat.ltb_spec last (last + index m)) as [Hlt|Hge].
        -- apply unparse_spanOf.
        -- replace (index m) with 0 by lia. reflexivity.
      * rewrite Htake. rewrite !append_assoc. f_equal. f_equal. f_equal.
        rewrite Hafter at 1. rewrite drop_drop.
        replace (last + index m + size m) with (last + (index m + size m)) by lia.
        rewrite IH by lia. rewrite Hafter. now rewrite drop_drop.
    + cbn [inlineParts].
      destruct (Nat.ltb_spec last (String.length text)) as [Hlt|Hge].
      * apply unparse_spanOf.
      * cbn. symmetry. apply drop_all, Hge.
Qed.

Lemma In_spanOf (t u : string) : ~ In (Code t) (spanOf u).
Proof using Type.
  unfold spanOf. destruct (truthy u); [|intros []]. intros [H|[]]. discriminate.
Qed.

Lemma inline_codes (fuel last : nat) (s t : string) :
  In (Code t) (inlineParts text last (execLoop fuel inlineCodeRegex s last)) ->
  t <> EmptyString /\ span codeChar t = String.length t.
Proof using Type.
  revert last s. induction fuel as [|fuel IH]; intros last s H.
  - cbn [execLoop inlineParts] in H. destruct (_ <? _)%nat; [|destruct H].
    now apply In_spanOf in H.
  - cbn [execLoop] in H. rewrite exec_pos in H.
    destruct (exec inlineCodeRegex s 0) as [m|] eqn:E; cbn [option_map] in H.
    + pose proof (match_parts _ _ E) as (g & Hg & _ & Hne & Hcls).
      cbn [reindex index size after inlineParts] in H.
      apply in_app_or in H as [H|[H|H]].
      * destruct (_ <? _)%nat; [|destruct H]. now apply In_spanOf in H.
      * unfold group in H. cbn [groups reindex Nat.sub nth_error] in H.
        rewrite Hg in H. cbn [nth_error Parser.text default] in H.
        injection H as <-. now split.
      * exact (IH _ _ H).
    + cbn [inlineParts] in H. destruct (_ <? _)%nat; [|destruct H].
      now apply In_spanOf in H.
Qed.

(** X21.  Inline code is parsed without loss: the pieces of
    [processInlineCode], each code piece put back between its backticks,
    make up the text again, and a code piece is never empty and holds no
    backtick and no line break. *)
Theorem inline_round_trip :
  unparse (processInlineCode text) = text /\
  forall t, In (Code t) (processInlineCode text) ->
            t <> EmptyString /\ occurs "`" t = false /\ occurs "010" t = false.
Proof using Type.
  pose proof (inline_keep (S (String.length text)) 0 (Nat.le_0_l _)) as Hkeep.
  cbn [drop] in Hkeep. fold (execAll inlineCodeRegex text) in Hkeep.
  unfold processInlineCode. split.
  - destruct (inlineParts text 0 (execAll inlineCodeRegex text)) as [|p ps] eqn:E;
      [|exact Hkeep].
    cbn in Hkeep. rewrite <- Hkeep. reflexivity.
  - intros t Hin.
    assert (Hok : t <> EmptyString /\ span codeChar t = String.length t).
    { destruct (inlineParts text 0 (execAll inlineCodeRegex text)) as [|p ps] eqn:E.
      - destruct Hin as [Hin|[]]. discriminate.
      - rewrite <- E in Hin. unfold execAll in Hin. exact (inline_codes _ _ _ _ Hin). }
    destruct Hok as [Hne Hcls]. split; [exact Hne|]. now apply codeChar_plain.
Qed.
End Text.

End InlineFacts.
(** ** Fenced code blocks and plain messages *)

Module FenceFacts.
Import Js Regex Parser Inline StringFacts RegexFacts RewriteFacts ParserFacts.

Lemma startsWith_append_long (a b p : string) :
  String.length p <= String.length a -> startsWith (a +:+ b) p = startsWith a p.
Proof.
  revert a. induction p as [|x p IH]; intros a H; [reflexivity|].
  destruct a as [|y a]; [cbn in H; lia|].
  rewrite append_cons, !startsWith_cons. f_equal. apply IH. cbn in H. lia.
Qed.

Lemma includes_at (n : nat) (s p : string) :
  includes s p = false -> startsWith (drop n s) p = false.
Proof.
  revert s. induction n as [|n IH]; intros s H.
  - destruct s; cbn [includes drop] in *; now apply orb_false_iff in H as [H _].
  - destruct s as [|c s]; cbn [drop].
    + cbn [includes] in H. now apply orb_false_iff in H as [H _].
    + cbn [includes] in H. apply orb_false_iff in H as [_ H]. now apply IH.
Qed.

(** No fence opens inside [a] when [a] followed by two backticks holds no
    run of three. *)
Lemma no_fence_inside (a tail : string) (n : nat) :
  includes (a +:+ "``") FENCE = false ->
  n < String.length a ->
  startsWith (drop n (a +:+ FENCE +:+ tail)) FENCE = false.
Proof.
  intros H Hn.
  replace (a +:+ FENCE +:+ tail) with ((a +:+ "``") +:+ ("`" +:+ tail)).
  - rewrite drop_append_lt by (rewrite length_append; lia).
    rewrite startsWith_append_long.
    + now apply includes_at.
    + rewrite drop_length, length_append. cbn. lia.
  - rewrite append_assoc. reflexivity.
Qed.

Lemma span_append_stop (cls : ascii -> bool) (a : string) (c : ascii) (s : string) :
  span cls a = String.length a -> cls c = false ->
  span cls (a +:+ String c s) = String.length a.
Proof.
  intros Ha Hc. induction a as [|x a IH].
  - rewrite append_nil_l. cbn. now rewrite Hc.
  - rewrite append_cons. cbn [span String.length] in *.
    destruct (cls x); [|discriminate]. f_equal. apply IH. lia.
Qed.

Lemma counts_greedy_top (k : nat) : counts true 0 k = k :: rev (seq 0 k).
Proof.
  unfold counts. rewrite Nat.sub_0_r, seq_S, rev_app_distr. reflexivity.
Qed.

Section Fence.
Variables before lang body rest : string.
Hypothesis before_plain : includes (before +:+ "``") FENCE = false.
Hypothesis lang_word : span word lang = String.length lang.
Hypothesis body_plain : includes (body +:+ "``") FENCE = false.
Hypothesis rest_plain : includes rest FENCE = false.

Let block : string := FENCE +:+ lang +:+ newline +:+ body +:+ FENCE +:+ rest.
Let content : string := before +:+ block.

(** The first group: the language, or [undefined] when there is none. *)
Let langGroup : option string :=
  match String.length lang with O => None | S _ => Some lang end.

Lemma text_langGroup : text langGroup = lang.
Proof using Type.
  unfold langGroup. generalize lang. intros [|c l]; reflexivity.
Qed.

Lemma fence_head :
  matchHere [Lit FENCE; Rep OptionalCapture true 0 word] block
  = Some ([langGroup], newline +:+ body +:+ FENCE +:+ rest).
Proof using lang_word.
  unfold matchHere, block. rewrite matches_lit, startsWith_append, drop_append.
  change (lang +:+ newline +:+ body +:+ FENCE +:+ rest)
    with (lang +:+ String "010" (body +:+ FENCE +:+ rest)).
  rewrite matches_rep.
  rewrite (span_append_stop word lang "010" _ lang_word eq_refl).
  rewrite counts_greedy_top. cbn [flat_map matches map app head fst snd captured].
  rewrite drop_append, take_append. reflexivity.
Qed.

Lemma fence_newline :
  matchHere [Lit newline] (newline +:+ body +:+ FENCE +:+ rest)
  = Some ([], body +:+ FENCE +:+ rest).
Proof using Type.
  unfold matchHere. rewrite matches_lit, startsWith_append, drop_append. reflexivity.
Qed.

Lemma fence_body :
  matchHere [Rep Capture false 0 any; Lit FENCE] (body +:+ FENCE +:+ rest)
  = Some ([Some body], rest).
Proof using body_plain.
  apply lazy_until. intros n Hn. now apply no_fence_inside.
Qed.

Lemma block_matched :
  matchHere codeBlockRegex block = Some ([langGroup; Some body], rest).
Proof using lang_word body_plain.
  change codeBlockRegex
    with ([Lit FENCE; Rep OptionalCapture true 0 word]
            ++ ([Lit newline] ++ [Rep Capture false 0 any; Lit FENCE])).
  apply (matchHere_app _ _ block (newline +:+ body +:+ FENCE +:+ rest)
                       [langGroup] [Some body] rest); [exact fence_head|].
  apply (matchHere_app _ _ _ (body +:+ FENCE +:+ rest) [] [Some body] rest);
    [exact fence_newline|exact fence_body].
Qed.

Lemma block_size :
  String.length block - String.length rest
  = String.length (FENCE +:+ lang +:+ newline +:+ body +:+ FENCE).
Proof using Type.
  unfold block. rewrite !length_append.
  generalize (String.length rest), (String.length FENCE), (String.length lang),
    (String.length newline), (String.length body).
  clear. intros. lia.
Qed.

Lemma block_found :
  execAll codeBlockRegex content
  = [mkResult (String.length before) [langGroup; Some body]
              (String.length block - String.length rest) rest].
Proof using before_plain lang_word body_plain rest_plain.
  unfold execAll. cbn [execLoop].
  assert (Hfirst : exec codeBlockRegex content 0
                   = Some (mkResult (String.length before) [langGroup; Some body]
                                    (String.length block - String.length rest) rest)).
  { unfold content. rewrite exec_skip.
    - now rewrite (exec_here _ _ _ _ _ block_matched).
    - intros n Hn. apply matches_lit_fail. unfold block.
      now apply no_fence_inside. }
  rewrite Hfirst. cbn [after index size]. f_equal.
  destruct (String.length content); [reflexivity|]. cbn [execLoop].
  unfold codeBlockRegex. now rewrite (exec_none FENCE _ rest _ rest_plain).
Qed.

Lemma content_after :
  drop (String.length before + (String.length block - String.length rest)) content = rest.
Proof using Type.
  rewrite block_size. unfold content, block.
  replace (before +:+ FENCE +:+ lang +:+ newline +:+ body +:+ FENCE +:+ rest)
    with ((before +:+ (FENCE +:+ lang +:+ newline +:+ body +:+ FENCE)) +:+ rest)
    by (now rewrite !append_assoc).
  rewrite <- length_append. apply drop_append.
Qed.

Lemma truthy_length (s : string) : (0 <? String.length s)%nat = truthy s.
Proof using Type. clear. now destruct s. Qed.

Lemma rest_guard :
  (String.length before + (String.length block - String.length rest)
   <? String.length content)%nat = truthy rest.
Proof using Type.
  rewrite <- truthy_length. unfold content. rewrite length_append.
  assert (Hle : String.length rest <= String.length block).
  { unfold block. rewrite !length_append. clear. lia. }
  generalize Hle.
  generalize (String.length rest), (String.length block), (String.length before).
  clear. intros r b a Hle.
  destruct (Nat.ltb_spec 0 r) as [H|H].
  - apply Nat.ltb_lt. lia.
  - apply Nat.ltb_ge. lia.
Qed.

(** X23.  [MessageContent] on a message with one fenced block: a badge for
    an expert message, the lines before the fence when there is text
    before it, the block with its trimmed code and its language, which is
    [text] when the fence names none, and the lines after the fence when
    there is text after it. *)
Theorem content_fenced_block :
  includes content PNG_SIGNATURE || includes content WRAPPER_SIGNATURE = false ->
  Content.MessageContent content
  = (if Content.isExpertMessage content then [Content.Badge] else [])
    ++ (if truthy before
        then Content.parseNonCodeContent before (Content.isExpertMessage content)
        else [])
    ++ [Content.Block (trim body) (if truthy lang then lang else "text")]
    ++ (if truthy rest
        then Content.parseNonCodeContent rest (Content.isExpertMessage content)
        else []).
Proof using before_plain lang_word body_plain rest_plain.
  intros Hplain. unfold Content.MessageContent. rewrite Hplain.
  unfold Content.renderContent. rewrite block_found.
  cbn [Content.renderParts index size groups Regex.group nth_error Nat.sub].
  rewrite content_after, rest_guard, truthy_length.
  unfold slice. cbn [drop]. rewrite Nat.sub_0_r.
  unfold content at 2. rewrite take_append.
  unfold Content.languageOf. rewrite text_langGroup.
  cbn [text default]. reflexivity.
Qed.
End Fence.

(** X24.  A message without a fence and without an image signature is
    one block of prose, blank or not: nothing of it is dropped. *)
Theorem plain_message_is_prose (content : string) :
  includes content WRAPPER_SIGNATURE || includes content PNG_SIGNATURE = false ->
  includes content FENCE = false ->
  AIMessage content = [Prose content].
Proof.
  intros Hplain Hfence. unfold AIMessage. rewrite Hplain.
  unfold parseMessageWithCode, execAll. cbn [execLoop snd].
  unfold codeBlockRegex. now rewrite (exec_none FENCE _ content 0 Hfence).
Qed.

(** X25.  The split of [parseHTMLContent] on the image pattern loses
    nothing: the parts, images and text, put together are the content. *)
Theorem base64_split_keeps_content (content : string) :
  fold_right String.append EmptyString (splitKeeping base64Regex content) = content.
Proof. apply splitKeeping_concat. Qed.


Lemma content_fenced_block_witness :
  Content.MessageContent
    ("**Result**" +:+ newline +:+ FENCE +:+ newline +:+ "SELECT 1;" +:+ newline +:+ FENCE)
  = [ Content.Paragraph false [(false, ""); (true, "Result"); (false, "")];
      Content.Spacer;
      Content.Block "SELECT 1;" "text" ].
Proof.
  exact (content_fenced_block ("**Result**" +:+ newline) "" ("SELECT 1;" +:+ newline) ""
           eq_refl eq_refl eq_refl eq_refl eq_refl).
Defined.

Lemma plain_message_is_prose_witness :
  AIMessage "The average is 52,000." = [Prose "The average is 52,000."].
Proof.
  exact (plain_message_is_prose "The average is 52,000." eq_refl eq_refl).
Defined.

End FenceFacts.
(** ** The message renderer of the chat area *)

Module ContentFacts.
Import Js Regex Content.

Lemma eachLine_grows (isExpert : bool) (acc : Lines) (line : string) :
  inList acc = false ->
  inList (eachLine isExpert acc line) = false /\
  exists e, elements (eachLine isExpert acc line) = elements acc ++ [e] /\
            forall items, e <> BulletList items.
Proof.
  intros Hin. unfold eachLine. rewrite Hin.
  destruct (negb (truthy (trim line))); [|destruct (includes line BOLD)];
    cbn [inList elements]; (split; [first [exact Hin|reflexivity]|]); eexists;
    (split; [reflexivity|]);
    intros items; discriminate.
Qed.

Lemma lines_grow (isExpert : bool) (lines : list string) (acc : Lines) :
  inList acc = false ->
  exists added,
    elements (fold_left (eachLine isExpert) lines acc) = elements acc ++ added /\
    length added = length lines /\
    forall items, ~ In (BulletList items) added.
Proof.
  revert acc. induction lines as [|line lines IH]; intros acc Hin.
  - exists []. cbn. rewrite app_nil_r. repeat split. intros items [].
  - cbn [fold_left].
    destruct (eachLine_grows isExpert acc line Hin) as (Hin' & e & He & Hne).
    destruct (IH _ Hin') as (added & Ha & Hlen & Hno).
    exists (e :: added). rewrite Ha, He, <- app_assoc. split; [reflexivity|].
    split; [cbn; now rewrite Hlen|].
    intros items [H|H]; [now apply (Hne items)|now apply (Hno items)].
Qed.

(** X26.  [parseNonCodeContent] renders one element for each line of the
    text, and never a bullet list: the variable [inList] is not set
    anywhere, so the branch that closes a list does not run. *)
Theorem one_element_per_line (text : string) (isExpert : bool) :
  length (parseNonCodeContent text isExpert) = length (Js.split "010" text) /\
  forall items, ~ In (BulletList items) (parseNonCodeContent text isExpert).
Proof.
  unfold parseNonCodeContent.
  destruct (lines_grow isExpert (Js.split "010" text) (mkLines [] [] false) eq_refl)
    as (added & Ha & Hlen & Hno).
  rewrite Ha. cbn [elements app]. now split.
Qed.

End ContentFacts.

(** ** What the chat area keeps *)

Module GrowthFacts.
Import Js Lifecycle ChatStore Growth.

Section Runtime.
Variable fits : gmap string Storage.Stored -> bool.

Lemma step_appends (w : World) (e : Event) :
  appends e = true ->
  exists added, messages (step fits w e) = messages w ++ added /\ length added <= 1.
Proof using Type.
  intros He.
  assert (Hsame : exists added, messages w = messages w ++ added /\ length added <= 1).
  { exists []. rewrite app_nil_r. split; [reflexivity|cbn; lia]. }
  destruct e as [msg fileId now clock|c how now clock|i now clock|m| |];
    try discriminate; cbn [step].
  - unfold handleSendMessage.
    destruct (isTyping w), (currentAbortController w); cbn; try exact Hsame;
      destruct (negb (truthy (trim msg))); cbn; try exact Hsame;
      (eexists; split; [reflexivity|cbn; lia]).
  - unfold settle. destruct (existsb _ _); [|exact Hsame].
    unfold finish, addMessage.
    destruct how; cbn; repeat (case_bool_decide; cbn); try exact Hsame;
      (eexists; split; [reflexivity|cbn; lia]).
  - unfold fire. destruct (nth_error _ _) as [[stage|]|]; cbn; try exact Hsame.
    eexists. split; [reflexivity|cbn; lia].
  - cbn. eexists. split; [reflexivity|cbn; lia].
Qed.

(** X27.  The conversation only grows: as long as no new chat is started
    and the stored messages are not reloaded, the events of the chat area
    leave every message in its place and add at most one message each. *)
Theorem conversation_only_grows (es : list Event) (w : World) :
  forallb appends es = true ->
  exists added,
    messages (run fits w es) = messages w ++ added /\ length added <= length es.
Proof using Type.
  revert w. induction es as [|e es IH]; intros w Hes.
  - exists []. cbn. rewrite app_nil_r. split; [reflexivity|lia].
  - cbn [forallb] in Hes. apply andb_true_iff in Hes as [He Hes].
    cbn [run fold_left]. fold (run fits (step fits w e) es).
    destruct (step_appends w e He) as (a1 & H1 & L1).
    destruct (IH (step fits w e) Hes) as (a2 & H2 & L2).
    exists (a1 ++ a2). rewrite H2, H1, <- app_assoc. split; [reflexivity|].
    rewrite length_app. cbn [length]. lia.
Qed.

(** X28.  The apology of a failed request is not tied to its
    conversation: when a request that is not canceled fails, the timer it
    leaves adds the apology when it fires, also after a new chat has
    emptied the conversation in between. *)
Theorem late_apology (c : nat) (w : World) (now now' : Z) (clock clock' : string) :
  In c (map fst (inflight w)) ->
  c ∉ aborted w ->
  let failed := settle fits c Rejected now clock w in
  timers failed = timers w ++ [FallbackTimer] /\
  messages failed = messages w /\
  messages (fire fits (length (timers w)) now' clock' (handleNewChat fits failed))
  = [assistantMessage now' clock' FALLBACK].
Proof using Type.
  intros Hin Hna. cbn zeta.
  assert (Hex : existsb (fun r => Nat.eqb (fst r) c) (inflight w) = true).
  { apply in_map_iff in Hin as (r & Hr & Hin). apply existsb_exists.
    exists r. split; [exact Hin|]. now apply Nat.eqb_eq. }
  assert (Hsettle : timers (settle fits c Rejected now clock w)
                    = timers w ++ [FallbackTimer] /\
                    messages (settle fits c Rejected now clock w) = messages w).
  { unfold settle. rewrite Hex. cbn [aborted]. rewrite (bool_decide_eq_false_2 _ Hna).
    unfold finish. cbn [aborted]. rewrite (bool_decide_eq_false_2 _ Hna). now cbn. }
  destruct Hsettle as [Ht Hm]. split; [exact Ht|]. split; [exact Hm|].
  unfold fire. cbn [timers handleNewChat setMessages]. rewrite Ht.
  rewrite nth_error_app2 by lia. rewrite Nat.sub_diag. cbn [nth_error].
  unfold addMessage. reflexivity.
Qed.
End Runtime.

Lemma conversation_only_grows_witness :
  exists added,
    messages (run Sample.roomy Sample.awaiting
                  [Settle 0 (Resolved "52,000") 2000 "9:01 AM";
                   Send "Now by region" None 3000 "9:02 AM"])
    = messages Sample.awaiting ++ added /\ length added <= 2.
Proof.
  apply (conversation_only_grows Sample.roomy
           [Settle 0 (Resolved "52,000") 2000 "9:01 AM";
            Send "Now by region" None 3000 "9:02 AM"] Sample.awaiting).
  reflexivity.
Defined.

Lemma late_apology_witness :
  messages (fire Sample.roomy 3 4000 "9:03 AM"
              (handleNewChat Sample.roomy
                 (settle Sample.roomy 0 Rejected 2000 "9:01 AM" Sample.awaiting)))
  = [assistantMessage 4000 "9:03 AM" FALLBACK].
Proof.
  apply (late_apology Sample.roomy 0 Sample.awaiting 2000 4000 "9:01 AM" "9:03 AM").
  - cbn. now left.
  - cbn. apply not_elem_of_empty.
Defined.

End GrowthFacts.
(** ** The loops over the matches end *)

Module LoopFacts.
Import Js Regex Parser StringFacts RegexFacts.

Lemma execLoop_length (x : ascii) (l : string) (r : Regex.t) (fuel : nat)
      (s : string) (pos : nat) :
  length (execLoop fuel (Lit (String x l) :: r) s pos) <= String.length s.
Proof.
  revert s pos. induction fuel as [|fuel IH]; intros s pos; cbn [execLoop length]; [lia|].
  destruct (exec _ s pos) as [m|] eqn:E; cbn [length]; [|lia].
  apply exec_consumed in E.
  pose proof (IH (after m) (index m + size m)). lia.
Qed.

Lemma literal_loop (x : ascii) (l : string) (r : Regex.t) (fuel : nat) (subject : string) :
  String.length subject < fuel ->
  execLoop fuel (Lit (String x l) :: r) subject 0
  = execAll (Lit (String x l) :: r) subject /\
  length (execAll (Lit (String x l) :: r) subject) <= String.length subject.
Proof.
  intros Hfuel. split.
  - unfold execAll. apply execLoop_fuel; lia.
  - apply execLoop_length.
Qed.

(** X29.  The loops over the matches of a pattern end: each pattern that
    the parser, the renderer and the two sanitizers run in a loop opens
    with a literal, so a match is never empty, the loop makes at most as
    many rounds as the subject has characters, and going on longer finds
    nothing more. *)
Theorem match_loops_finish (r : Regex.t) (fuel : nat) (subject : string) :
  In r [ codeBlockRegex; htmlDivRegex; base64Regex; Inline.inlineCodeRegex;
         ChatStore.pngPayloadRegex; Sidebar.imagePayloadRegex ] ->
  String.length subject < fuel ->
  execLoop fuel r subject 0 = execAll r subject /\
  length (execAll r subject) <= String.length subject.
Proof.
  intros Hr Hfuel.
  repeat (destruct Hr as [<-|Hr]; [now apply literal_loop|]).
  destruct Hr.
Qed.

Lemma match_loops_finish_witness :
  execLoop 100 codeBlockRegex "```js" 0 = execAll codeBlockRegex "```js" /\
  length (execAll codeBlockRegex "```js") <= 5.
Proof.
  apply (match_loops_finish codeBlockRegex 100 "```js").
  - now left.
  - cbn. lia.
Defined.

End LoopFacts.
(** ** A wrapper that is not closed *)

Module UnclosedFacts.
Import Js Regex Parser StringFacts RegexFacts RewriteFacts.

Lemma includes_of_drop (n : nat) (s p : string) :
  includes (drop n s) p = true -> includes s p = true.
Proof.
  revert s. induction n as [|n IH]; intros s H; [exact H|].
  destruct s as [|x s]; [exact H|].
  cbn [drop] in H. cbn [includes]. rewrite (IH _ H). apply orb_true_r.
Qed.

(** A match runs over every literal of its pattern. *)
Lemma match_needs_literal (l : string) (r : Regex.t) (s : string)
      (m : list (option string) * string) :
  In (Lit l) r -> In m (matches r s) -> includes s l = true.
Proof.
  revert s m. induction r as [|a r IH]; intros s m Hl Hm; [destruct Hl|].
  destruct a as [l'|cap greedy min cls|greedy min unit].
  - rewrite matches_lit in Hm. destruct (startsWith s l') eqn:Es; [|destruct Hm].
    destruct Hl as [Hl|Hl].
    + injection Hl as ->. now apply includes_startsWith.
    + apply (includes_of_drop (String.length l')). exact (IH _ _ Hl Hm).
  - destruct Hl as [Hl|Hl]; [discriminate|].
    rewrite matches_rep in Hm. apply in_flat_map in Hm as (n & _ & Hm).
    apply in_map_iff in Hm as (m' & _ & Hm).
    apply (includes_of_drop n). exact (IH _ _ Hl Hm).
  - destruct Hl as [Hl|Hl]; [discriminate|].
    cbn [matches] in Hm. apply in_flat_map in Hm as (n & _ & Hm).
    apply (includes_of_drop n). exact (IH _ _ Hl Hm).
Qed.

Lemma exec_needs_literal (l : string) (r : Regex.t) (s : string) (pos : nat) (m : result) :
  In (Lit l) r -> exec r s pos = Some m -> includes s l = true.
Proof.
  intros Hl H. apply exec_spec in H as (k & _ & _ & Hm & _).
  apply (includes_of_drop k). unfold matchHere in Hm.
  destruct (matches r (drop k s)) as [|m0 ms] eqn:E; [discriminate|].
  apply (match_needs_literal l r (drop k s) m0 Hl). rewrite E. now left.
Qed.

(** X30.  A wrapper that is not closed is not parsed: a message that
    carries the wrapper signature and no closing tag of a division is
    rendered as one block of prose holding the whole markup. *)
Theorem unclosed_wrapper_is_prose (content : string) :
  includes content WRAPPER_SIGNATURE = true ->
  includes content CLOSE_DIV = false ->
  AIMessage content = [Prose content].
Proof.
  intros Hsig Hopen. unfold AIMessage, parseHTMLContent. rewrite Hsig.
  cbn [orb negb]. rewrite andb_false_r.
  unfold execAll. cbn [execLoop].
  destruct (exec htmlDivRegex content 0) as [m|] eqn:E.
  - apply (exec_needs_literal CLOSE_DIV) in E; [congruence|].
    cbn. auto 20.
  - cbn [wrapperParts]. destruct (0 <? String.length content)%nat; [|reflexivity].
    cbn [drop]. unfold prose. destruct (truthy (trim content)); reflexivity.
Qed.

Lemma unclosed_wrapper_is_prose_witness :
  AIMessage (Sample.opening +:+ "<img src=") = [Prose (Sample.opening +:+ "<img src=")].
Proof.
  exact (unclosed_wrapper_is_prose (Sample.opening +:+ "<img src=") eq_refl eq_refl).
Defined.

End UnclosedFacts.
